(** * Entanglement calculator: enumeration, pattern analysis,
      canonicalisation and rule mining

    A shallow embedding of the TypeScript sources of the entanglement
    calculator, followed by the properties that the specification states
    about them.

    Conventions of the embedding.
    - A JavaScript [number] that holds an integer is a [Z]; board sizes and
      loop indices of the enumerator and of the pattern analyser are [nat].
    - A [Grid] ([number[][]]) is a [list (list Z)].  Reading [g[r][c]]
      yields [option Z]; [None] stands for [undefined].
    - A [throw] is the [Throw] constructor of [result].
    - A JavaScript [Map] is an association list in insertion order.  Where
      the source keys a map by [JSON.stringify v] and later reads the key
      back with [JSON.parse], the association list is keyed by [v] itself:
      [JSON_stringify] is injective (lemma [JSON_stringify_inj]), so both
      maps have the same entries in the same order.
    - [Array.prototype.sort] with the comparator
      [(a, b) => a[0] - b[0] || a[1] - b[1]] is [merge_sort point_le]: two
      points that compare equal are equal, hence the sorted array does not
      depend on the sorting algorithm (lemma [sortPoints_unique]). *)

From stdpp Require Import base list strings pretty sorting gmap.
From Stdlib Require Import ZArith Lia Ascii.

Open Scope Z_scope.

(** ** Results of operations that may throw *)

Inductive result (A : Type) : Type :=
| Ok (a : A)
| Throw (msg : string).
Arguments Ok {A} a.
Arguments Throw {A} msg.

Definition rbind {A B} (r : result A) (k : A → result B) : result B :=
  match r with
  | Ok a => k a
  | Throw m => Throw m
  end.


Global Instance result_fmap : FMap result :=
  λ A B f r, match r with Ok a => Ok (f a) | Throw m => Throw m end.
Module Geometry.

(** ** Points and the eight transforms (pureEntanglementExtractor.ts) *)

Definition Point : Type := Z * Z.
Definition Transform : Type := Z → Z → Point.

Definition transforms : list Transform :=
  [ (λ r c, (r, c));
    (λ r c, (- r, c));
    (λ r c, (r, - c));
    (λ r c, (- r, - c));
    (λ r c, (c, r));
    (λ r c, (- c, r));
    (λ r c, (c, - r));
    (λ r c, (- c, - r)) ].

Definition applyTransform (tf : Transform) (p : Point) : Point := tf p.1 p.2.

(** [Math.min(...xs)] on a non-empty array.  On the empty array JavaScript
    returns [Infinity]; every caller below rejects the empty array first. *)
Definition Math_min (xs : list Z) : Z :=
  match xs with
  | [] => 0
  | x :: xs' => foldl Z.min x xs'
  end.

Definition Math_max (xs : list Z) : Z :=
  match xs with
  | [] => 0
  | x :: xs' => foldl Z.max x xs'
  end.

(** The comparator [(a, b) => a[0] - b[0] || a[1] - b[1]]: [a] goes before
    [b] when the comparator is not positive. *)
Definition comparePoints (a b : Point) : Z :=
  if decide (a.1 - b.1 = 0) then a.2 - b.2 else a.1 - b.1.

Definition point_le (a b : Point) : Prop := comparePoints a b ≤ 0.

Global Instance point_le_dec : RelDecision point_le.
Proof. intros a b. unfold point_le. apply _. Defined.

Definition sortPoints (l : list Point) : list Point := merge_sort point_le l.

(** ** [JSON.stringify] on arrays of points *)

Definition stringify_point (p : Point) : string :=
  "[" +:+ pretty p.1 +:+ "," +:+ pretty p.2 +:+ "]".

Fixpoint join_comma (l : list string) : string :=
  match l with
  | [] => ""
  | [x] => x
  | x :: xs => x +:+ "," +:+ join_comma xs
  end.

Definition JSON_stringify (l : list Point) : string :=
  "[" +:+ join_comma (map stringify_point l) +:+ "]".

(** ** [canonicalize] (generic, any number of stars) *)

Record CanonicalPattern : Type := mkCanonicalPattern {
  canonicalStars : list Point;
  canonicalCells : list Point;
  transformIndex : nat;
  translation : Point
}.

Definition shiftBy (minRow minCol : Z) (p : Point) : Point :=
  (p.1 - minRow, p.2 - minCol).

(** The body of the loop over [t] for one transform, before the comparison
    with the best key so far. *)
Definition candidate (pointsStars pointsCells : list Point)
    (t : nat) (tf : Transform) : CanonicalPattern * string :=
  let sT := map (applyTransform tf) pointsStars in
  let cT := map (applyTransform tf) pointsCells in
  let minRow := Math_min (map fst sT) in
  let minCol := Math_min (map snd sT) in
  let sN := sortPoints (map (shiftBy minRow minCol) sT) in
  let cN := sortPoints (map (shiftBy minRow minCol) cT) in
  (mkCanonicalPattern sN cN t (minRow, minCol), JSON_stringify sN).

(** [if (!bestStars || key < bestKey) { best = ...; bestKey = key }] *)
Definition keepSmallest {A} (best : option (A * string)) (cand : A * string)
    : option (A * string) :=
  match best with
  | None => Some cand
  | Some (_, bestKey) => if String.ltb cand.2 bestKey then Some cand else best
  end.

Definition candidates (pointsStars pointsCells : list Point)
    : list (CanonicalPattern * string) :=
  imap (candidate pointsStars pointsCells) transforms.

Definition canonicalize (pointsStars pointsCells : list Point)
    : result CanonicalPattern :=
  if decide (length pointsStars = 0%nat) then
    Throw "canonicalize expects at least one star"
  else
    match foldl keepSmallest None (candidates pointsStars pointsCells) with
    | None => Throw "Failed to canonicalize stars"
    | Some (best, _) => Ok best
    end.

(** ** The two-star [canonicalizeStars] and [canonicalizeEmpties]
       (pureEntanglementExtractor.ts, first version) *)

Record CanonicalizationResult : Type := mkCanonicalizationResult {
  cr_canonicalStars : list Point;
  cr_transformIndex : nat;
  cr_translation : Point
}.

Definition pairCandidate (star1 star2 : Point) (i : nat) (transform : Transform)
    : CanonicalizationResult * string :=
  let t1 := applyTransform transform star1 in
  let t2 := applyTransform transform star2 in
  let minRow := Z.min t1.1 t2.1 in
  let minCol := Z.min t1.2 t2.2 in
  let p1 : Point := (t1.1 - minRow, t1.2 - minCol) in
  let p2 : Point := (t2.1 - minRow, t2.2 - minCol) in
  let sortedPair :=
    if decide (p1.1 < p2.1 ∨ (p1.1 = p2.1 ∧ p1.2 < p2.2))
    then [p1; p2] else [p2; p1] in
  (mkCanonicalizationResult sortedPair i (minRow, minCol),
   JSON_stringify sortedPair).

Definition canonicalizeStars (initialStars : list Point)
    : result CanonicalizationResult :=
  match initialStars with
  | [star1; star2] =>
      match foldl keepSmallest None (imap (pairCandidate star1 star2) transforms) with
      | None => Throw "Failed to canonicalize stars"
      | Some (best, _) => Ok best
      end
  | _ => Throw "canonicalizeStars expects exactly 2 stars"
  end.

(** [transforms[transformIndex]]; an index outside the table cannot come
    from [canonicalizeStars], the identity stands in for it. *)
Definition transformAt (i : nat) : Transform :=
  default ((λ r c, (r, c)) : Transform) (transforms !! i).

Definition canonicalizeEmpties (forcedEmpty : list Point)
    (transformIndex : nat) (translation : Point) : list Point :=
  let transform := transformAt transformIndex in
  sortPoints
    (map (λ p, let t := applyTransform transform p in
               (t.1 - translation.1, t.2 - translation.2)) forcedEmpty).

End Geometry.


Module Enumeration.

(** ** Grids (types.ts) *)

Abbreviation Grid := (list (list Z)).

(** [grid[r][c]]; [None] is [undefined]. *)
Definition gridAt (g : Grid) (r c : nat) : option Z :=
  g !! r ≫= (λ row, row !! c).

(** [grid[r][c]] with integer indices that may be negative. *)
Definition gridAtZ (g : Grid) (r c : Z) : option Z :=
  if decide (0 ≤ r ∧ 0 ≤ c) then gridAt g (Z.to_nat r) (Z.to_nat c) else None.

(** [grid[r][c] = v] *)
Definition setCell (g : Grid) (r c : nat) (v : Z) : Grid :=
  alter (λ row, <[c := v]> row) r g.

(** ** ConfigurationEnumerator (core/enumeration.ts)

    The progress callback and the node counter only report progress; they
    are left out. *)

Record EnumState : Type := mkEnumState {
  grid : Grid;
  solutions : list Grid
}.

Section Enumerator.
Variable boardSize : nat.
Variable starsPerRow : Z.

Definition offsets : list Z := [-1; 0; 1].

Definition isValidPlacement (g : Grid) (row col : nat) : bool :=
  forallb (λ dr,
    forallb (λ dc,
      if decide (dr = 0 ∧ dc = 0) then true
      else
        let nr := Z.of_nat row + dr in
        let nc := Z.of_nat col + dc in
        if decide (0 ≤ nr ∧ nr < Z.of_nat boardSize ∧ 0 ≤ nc ∧ nc < Z.of_nat boardSize)
        then negb (bool_decide (gridAtZ g nr nc = Some 1))
        else true) offsets) offsets.

(** [grid[row].reduce((sum, val) => sum + val, 0)] *)
Definition countStarsInRow (g : Grid) (row : nat) : Z :=
  foldl Z.add 0 (default [] (g !! row)).

(** [for (row = 0; row < boardSize; row++) count += grid[row][col]] *)
Definition countStarsInColumn (g : Grid) (col : nat) : Z :=
  foldl (λ count row, count + default 0 (gridAt g row col)) 0 (seq 0 boardSize).

Definition copyGrid (g : Grid) : Grid := map (λ row, row) g.

(** [backtrack]: the recursion is bounded by [fuel]; [None] means that the
    fuel ran out.  The mutable [grid] and the [solutions] array travel in
    the state. *)
Fixpoint backtrack (fuel : nat) (st : EnumState) (row col : nat) : option EnumState :=
  match fuel with
  | O => None
  | S fuel' =>
    if decide (row = boardSize) then
      let valid :=
        forallb (λ c, bool_decide (countStarsInColumn (grid st) c = starsPerRow))
                (seq 0 boardSize) in
      if valid
      then Some (mkEnumState (grid st) (solutions st ++ [copyGrid (grid st)]))
      else Some st
    else
      let remainingInRow := Z.of_nat boardSize - Z.of_nat col in
      let starsInRow := countStarsInRow (grid st) row in
      let starsNeeded := starsPerRow - starsInRow in
      if decide (starsNeeded > remainingInRow) then Some st
      else if bool_decide (0 < col)%nat
              && bool_decide (countStarsInColumn (grid st) (col - 1) > starsPerRow)
      then Some st
      else if decide (col = boardSize) then
        if decide (starsInRow = starsPerRow) then
          let canProceed :=
            forallb (λ c, negb (bool_decide (countStarsInColumn (grid st) c > starsPerRow)))
                    (seq 0 boardSize) in
          if canProceed then backtrack fuel' st (row + 1) 0 else Some st
        else Some st
      else
        let afterStar :=
          if bool_decide (starsInRow < starsPerRow) && isValidPlacement (grid st) row col
          then
            match backtrack fuel' (mkEnumState (setCell (grid st) row col 1) (solutions st))
                            row (col + 1) with
            | Some st1 => Some (mkEnumState (setCell (grid st1) row col 0) (solutions st1))
            | None => None
            end
          else Some st in
        match afterStar with
        | Some st2 => backtrack fuel' st2 row (col + 1)
        | None => None
        end
  end.

Definition emptyGrid : Grid := replicate boardSize (replicate boardSize 0).

(** [enumerate]: every call of [backtrack] moves one cell forward or to the
    start of the next row, so [(boardSize + 1)²] steps of fuel suffice. *)
Definition enumerate : option (list Grid) :=
  solutions <$> backtrack ((boardSize + 1) * (boardSize + 1)) (mkEnumState emptyGrid []) 0 0.

End Enumerator.

(** [isLocallyValid] and [isPatternCompatible] (static methods) *)

Record Cell : Type := mkCell { row : Z; col : Z }.

Global Instance Cell_eq_dec : EqDecision Cell.
Proof. solve_decision. Defined.

Fixpoint isLocallyValid (cells : list Cell) : bool :=
  match cells with
  | [] => true
  | ci :: rest =>
      forallb (λ cj,
        negb (bool_decide (Z.abs (row ci - row cj) ≤ 1 ∧ Z.abs (col ci - col cj) ≤ 1)))
        rest
      && isLocallyValid rest
  end.

Definition isPatternCompatible (pattern : list Cell) (solution : Grid) : bool :=
  forallb (λ cell, bool_decide (gridAtZ solution (row cell) (col cell) = Some 1)) pattern.

End Enumeration.

Module Configuration.
Import Enumeration.

(** ** What a Configuration is (spec, data model)

    An N×N matrix of zeros and ones with exactly [S] ones in every row and
    in every column, and no two ones within Chebyshev distance 1. *)

Fixpoint sumTo (f : nat → Z) (n : nat) : Z :=
  match n with
  | O => 0
  | S n' => sumTo f n' + f n'
  end.

Definition cellValue (g : Grid) (r c : nat) : Z := default 0 (gridAt g r c).

Definition rowTotal (N : nat) (g : Grid) (r : nat) : Z := sumTo (cellValue g r) N.
Definition colTotal (N : nat) (g : Grid) (c : nat) : Z := sumTo (λ r, cellValue g r c) N.

Definition wellFormed (N : nat) (g : Grid) : Prop :=
  length g = N ∧ Forall (λ rw, length rw = N) g.

Definition binary (N : nat) (g : Grid) : Prop :=
  ∀ r c, (r < N)%nat → (c < N)%nat → cellValue g r c = 0 ∨ cellValue g r c = 1.

(** Two different cells within Chebyshev distance 1. *)
Definition touching (r1 c1 r2 c2 : nat) : Prop :=
  (r1, c1) ≠ (r2, c2) ∧
  Z.abs (Z.of_nat r1 - Z.of_nat r2) ≤ 1 ∧ Z.abs (Z.of_nat c1 - Z.of_nat c2) ≤ 1.

Definition noTouching (N : nat) (g : Grid) : Prop :=
  ∀ r1 c1 r2 c2, (r1 < N)%nat → (c1 < N)%nat → (r2 < N)%nat → (c2 < N)%nat →
    cellValue g r1 c1 = 1 → cellValue g r2 c2 = 1 → ¬ touching r1 c1 r2 c2.

Definition isConfiguration (N : nat) (S : Z) (g : Grid) : Prop :=
  wellFormed N g ∧ binary N g ∧
  (∀ r, (r < N)%nat → rowTotal N g r = S) ∧
  (∀ c, (c < N)%nat → colTotal N g c = S) ∧
  noTouching N g.

End Configuration.

Module Analyzer.
Import Enumeration.

(** ** PatternAnalyzer (core/patternAnalyzer.ts)

    The sets of string keys [`${row},${col}`] are sets of coordinate pairs:
    the key of a pair of integers determines the pair. *)

Inductive CellState : Type := forced_star | forced_empty | flexible.

Global Instance CellState_eq_dec : EqDecision CellState.
Proof. solve_decision. Defined.

(** The [Pattern] record of types.ts. *)
Record Pattern : Type := mkPattern {
  initial_stars : list Cell;
  compatible_solutions : Z;
  forced_empty_cells : list Cell;
  forced_star_cells : list Cell
}.

Definition keyOf (c : Cell) : Z * Z := (row c, col c).

Definition cellAt (r c : nat) : Cell := mkCell (Z.of_nat r) (Z.of_nat c).

Section PatternAnalyzer.
Variable boardSize : nat.
Variable solutions : list Grid.
Variable includeInherent : bool.

(** All board cells in the order of the two nested loops over [row] and
    [col]. *)
Definition boardCells : list (nat * nat) :=
  r ← seq 0 boardSize; (λ c, (r, c)) <$> seq 0 boardSize.

Definition patternSetOf (pattern : list Cell) : gset (Z * Z) :=
  list_to_set (keyOf <$> pattern).

(** The in-bounds neighbours of the pattern stars that are not pattern
    stars themselves. *)
Definition neighbourKeys (star : Cell) : list (Z * Z) :=
  dr ← offsets; dc ← offsets;
  if decide (dr = 0 ∧ dc = 0) then []
  else
    let nr := row star + dr in
    let nc := col star + dc in
    if decide (0 ≤ nr ∧ nr < Z.of_nat boardSize ∧ 0 ≤ nc ∧ nc < Z.of_nat boardSize)
    then [(nr, nc)] else [].

Definition adjacentKeys (pattern : list Cell) : gset (Z * Z) :=
  list_to_set
    (filter (λ key, key ∉ patternSetOf pattern) (pattern ≫= neighbourKeys)).

Definition compatibleWith (pattern : list Cell) : list Grid :=
  filter (λ solution, isPatternCompatible pattern solution = true) solutions.

Definition starCountAt (compatibleSolutions : list Grid) (r c : nat) : nat :=
  length (filter (λ sol, gridAt sol r c = Some 1) compatibleSolutions).

(** The state written to [cellStates[row][col]] by the classification
    loop. *)
Definition classify (pattern : list Cell) (compatibleSolutions : list Grid)
    (r c : nat) : CellState :=
  let isInPattern :=
    existsb (λ p, bool_decide (row p = Z.of_nat r ∧ col p = Z.of_nat c)) pattern in
  if isInPattern then forced_star
  else if decide (keyOf (cellAt r c) ∈ adjacentKeys pattern) then forced_empty
  else
    let starCount := starCountAt compatibleSolutions r c in
    if decide (starCount = 0%nat) then forced_empty
    else if decide (starCount = length compatibleSolutions) then forced_star
    else flexible.

Definition computeCellStates (pattern : list Cell) (compatibleSolutions : list Grid)
    : list (list CellState) :=
  (λ r, classify pattern compatibleSolutions r <$> seq 0 boardSize) <$> seq 0 boardSize.

(** [cellStates[row][col]] *)
Definition stateAt (cellStates : list (list CellState)) (r c : nat) : option CellState :=
  cellStates !! r ≫= (λ states, states !! c).

Definition notInPattern (pattern : list Cell) (rc : nat * nat) : Prop :=
  keyOf (cellAt rc.1 rc.2) ∉ patternSetOf pattern.

Definition forcedCells (pattern : list Cell) (cellStates : list (list CellState))
    (state : CellState) : list Cell :=
  (λ rc, cellAt rc.1 rc.2) <$>
    filter (λ rc, notInPattern pattern rc ∧ stateAt cellStates rc.1 rc.2 = Some state)
           boardCells.

Definition isNonTrivial (pattern : list Cell) (cellStates : list (list CellState)) : bool :=
  existsb (λ rc, bool_decide (notInPattern pattern rc)
                 && (bool_decide (stateAt cellStates rc.1 rc.2 = Some forced_star)
                     || bool_decide (stateAt cellStates rc.1 rc.2 = Some forced_empty)))
          boardCells.

Definition allSameRowAs (pattern : list Cell) (firstRow : Z) : bool :=
  forallb (λ c, bool_decide (row c = firstRow)) pattern.

Definition allSameColAs (pattern : list Cell) (firstCol : Z) : bool :=
  forallb (λ c, bool_decide (col c = firstCol)) pattern.

Definition shouldSkipPattern (pattern : list Cell) (cellStates : list (list CellState))
    : bool :=
  match pattern with
  | [] => false
  | first :: _ =>
    let adjacentCells := adjacentKeys pattern in
    let allForcedEmpty := forcedCells pattern cellStates forced_empty in
    let allForcedStar := forcedCells pattern cellStates forced_star in
    let forcedEmptyAdjacent := filter (λ cell, keyOf cell ∈ adjacentCells) allForcedEmpty in
    let forcedStarAdjacent := filter (λ cell, keyOf cell ∈ adjacentCells) allForcedStar in
    let forcedEmptyNotAdjacent := filter (λ cell, keyOf cell ∉ adjacentCells) allForcedEmpty in
    let forcedStarNotAdjacent := filter (λ cell, keyOf cell ∉ adjacentCells) allForcedStar in
    if bool_decide (length forcedEmptyNotAdjacent = 0%nat)
       && bool_decide (length forcedStarAdjacent = 0%nat)
       && bool_decide (length forcedStarNotAdjacent = 0%nat)
       && bool_decide (0 < length forcedEmptyAdjacent)%nat
    then true
    else
      let firstRow := row first in
      let allSameRow := allSameRowAs pattern firstRow in
      let firstCol := col first in
      let allSameCol := allSameColAs pattern firstCol in
      if allSameRow || allSameCol then
        let allForcedEmptyOnLineOrAdjacent :=
          forallb (λ cell,
            let isAdjacent := bool_decide (keyOf cell ∈ adjacentCells) in
            let isOnSameRow := allSameRow && bool_decide (row cell = firstRow) in
            let isOnSameCol := allSameCol && bool_decide (col cell = firstCol) in
            isAdjacent || isOnSameRow || isOnSameCol) allForcedEmpty in
        if allForcedEmptyOnLineOrAdjacent
           && bool_decide (0 < length allForcedEmpty)%nat
           && bool_decide (length allForcedStar = 0%nat)
        then true else false
      else false
  end.

(** [analyzePattern]; [None] is [null]. *)
Definition analyzePattern (pattern : list Cell) : option Pattern :=
  let compatibleSolutions := compatibleWith pattern in
  if decide (length compatibleSolutions = 0%nat) then None
  else
    let cellStates := computeCellStates pattern compatibleSolutions in
    if negb (isNonTrivial pattern cellStates) then None
    else
      let firstRow := match pattern with c :: _ => row c | [] => -1 end in
      let firstCol := match pattern with c :: _ => col c | [] => -1 end in
      let allSameRow :=
        bool_decide (0 < length pattern)%nat && allSameRowAs pattern firstRow in
      let allSameCol :=
        bool_decide (0 < length pattern)%nat && allSameColAs pattern firstCol in
      let forcedEmpty :=
        filter (λ cell,
          let isAdjacent := bool_decide (keyOf cell ∈ adjacentKeys pattern) in
          let isOnSameLine :=
            (allSameRow && bool_decide (row cell = firstRow))
            || (allSameCol && bool_decide (col cell = firstCol)) in
          includeInherent || (negb isAdjacent && negb isOnSameLine) = true)
          (forcedCells pattern cellStates forced_empty) in
      let forcedStar := forcedCells pattern cellStates forced_star in
      if shouldSkipPattern pattern cellStates then None
      else Some (mkPattern pattern (Z.of_nat (length compatibleSolutions))
                           forcedEmpty forcedStar).

End PatternAnalyzer.

(** ** The reference classification (spec, 4.2 step 3)

    A cell is forced_empty if it is empty in every compatible solution,
    forced_star if it is a star in every compatible solution, and flexible
    otherwise. *)
Definition referenceState (compatibleSolutions : list Grid) (r c : nat) : CellState :=
  if decide (Forall (λ sol, gridAt sol r c ≠ Some 1) compatibleSolutions) then forced_empty
  else if decide (Forall (λ sol, gridAt sol r c = Some 1) compatibleSolutions) then forced_star
  else flexible.

End Analyzer.

Module AnalyzerSpec.
Import Enumeration Analyzer.

(** ** Trivial patterns (spec, 4.2 steps 4 and 6)

    A forced-empty cell is explained by the basic rules when it is next to
    a pattern star, or when all pattern stars share one row (column) and
    the cell lies on that row (column). *)

Definition onCommonRow (pattern : list Cell) (r : nat) : Prop :=
  pattern ≠ [] ∧ ∀ p, p ∈ pattern → row p = Z.of_nat r.

Definition onCommonCol (pattern : list Cell) (c : nat) : Prop :=
  pattern ≠ [] ∧ ∀ p, p ∈ pattern → col p = Z.of_nat c.

Definition explained (N : nat) (pattern : list Cell) (r c : nat) : Prop :=
  keyOf (cellAt r c) ∈ adjacentKeys N pattern ∨
  onCommonRow pattern r ∨ onCommonCol pattern c.

End AnalyzerSpec.

Module Miners.
Import Geometry Enumeration Analyzer.

(** ** Shared records (types.ts) and JavaScript maps *)

Record Output : Type := mkOutput {
  board_size : Z;
  stars_per_row : Z;
  stars_per_column : Z;
  initial_star_count : Z;
  total_solutions : Z;
  patterns : list Pattern
}.

Definition withPatterns (output : Output) (ps : list Pattern) : Output :=
  mkOutput (board_size output) (stars_per_row output) (stars_per_column output)
           (initial_star_count output) (total_solutions output) ps.

(** [cell => [cell.row, cell.col]] *)
Definition toPoint (cell : Cell) : Point := (row cell, col cell).

(** A [Map]: entries in insertion order; [set] on a present key replaces the
    value in place, on an absent key it appends. *)
Section JSMap.
Context {K V : Type} `{EqDecision K}.

Fixpoint mapGet (k : K) (m : list (K * V)) : option V :=
  match m with
  | [] => None
  | (k', v) :: m' => if decide (k' = k) then Some v else mapGet k m'
  end.

Fixpoint mapSet (k : K) (v : V) (m : list (K * V)) : list (K * V) :=
  match m with
  | [] => [(k, v)]
  | (k', v') :: m' =>
      if decide (k' = k) then (k, v) :: m' else (k', v') :: mapSet k v m'
  end.

Definition mapHas (k : K) (m : list (K * V)) : bool := bool_decide (is_Some (mapGet k m)).

End JSMap.

(** [Array.prototype.sort] and [String.prototype.localeCompare] are
    parameters: the collation order of the host is not part of the sources,
    and the properties below use of [sort] only that it permutes. *)
Section Mining.
Variable arraySort : ∀ A : Type, (A → A → Z) → list A → list A.
Variable localeCompare : string → string → Z.

(** ** Pure entanglement templates (pureEntanglementExtractor.ts) *)

Record StarClass : Type := mkStarClass {
  occurrenceCount : Z;
  emptiesMap : list (list Point * Z)
}.

Record PureEntanglementTemplate : Type := mkTemplate {
  canonical_stars : list Point;
  canonical_forced_empty : list Point;
  occurrences : Z
}.

Record PureEntanglementOutput : Type := mkPureOutput {
  pe_board_size : Z;
  pe_initial_stars : Z;
  pure_entanglement_templates : list PureEntanglementTemplate
}.

(** "Update star class": create the class on first sight, then count the
    occurrence in the class object held by the map. *)
Definition recordOccurrence (starClasses : list (list Point * StarClass))
    (starKey emptiesKey : list Point) : list (list Point * StarClass) :=
  let starClasses1 :=
    if mapHas starKey starClasses then starClasses
    else mapSet starKey (mkStarClass 0 []) starClasses in
  match mapGet starKey starClasses1 with
  | Some starClass =>
      mapSet starKey
        (mkStarClass (occurrenceCount starClass + 1)
           (mapSet emptiesKey
              (default 0 (mapGet emptiesKey (emptiesMap starClass)) + 1)
              (emptiesMap starClass)))
        starClasses1
  | None => starClasses1
  end.

Definition templatesOf (starClasses : list (list Point * StarClass)) (minOccurrences : Z)
    : list PureEntanglementTemplate :=
  '(starKey, starClass) ← starClasses;
  let distinctForcedPatterns := length (emptiesMap starClass) in
  let totalOccurrences := occurrenceCount starClass in
  if bool_decide (distinctForcedPatterns = 1%nat)
     && bool_decide (totalOccurrences >= minOccurrences)
  then
    match emptiesMap starClass with
    | (emptiesKey, _) :: _ => [mkTemplate starKey emptiesKey totalOccurrences]
    | [] => []
    end
  else [].

Definition compareTemplates (a b : PureEntanglementTemplate) : Z :=
  if decide (occurrences b ≠ occurrences a) then occurrences b - occurrences a
  else localeCompare (JSON_stringify (canonical_stars a))
                     (JSON_stringify (canonical_stars b)).

(** The canonical star and forced-empty keys of one pattern; [Ok None] is
    [continue]. *)
Definition pairKeys (pattern : Pattern) : result (option (list Point * list Point)) :=
  let initialStars := toPoint <$> initial_stars pattern in
  let forcedEmpty := toPoint <$> forced_empty_cells pattern in
  rbind (canonicalizeStars initialStars) (λ r,
    let canonicalEmpties :=
      canonicalizeEmpties forcedEmpty (cr_transformIndex r) (cr_translation r) in
    Ok (Some (cr_canonicalStars r, canonicalEmpties))).

Definition genericKeys (pattern : Pattern) : result (option (list Point * list Point)) :=
  let initialStars := toPoint <$> initial_stars pattern in
  if decide (length initialStars = 0%nat) then Ok None
  else
    let forcedEmpty := toPoint <$> forced_empty_cells pattern in
    rbind (canonicalize initialStars forcedEmpty) (λ r,
      Ok (Some (canonicalStars r, canonicalCells r))).

Definition pureStep (keysOf : Pattern → result (option (list Point * list Point)))
    (acc : result (list (list Point * StarClass))) (pattern : Pattern)
    : result (list (list Point * StarClass)) :=
  rbind acc (λ starClasses,
    rbind (keysOf pattern) (λ keys,
      match keys with
      | None => Ok starClasses
      | Some (starKey, emptiesKey) => Ok (recordOccurrence starClasses starKey emptiesKey)
      end)).

Definition extractPureWith (keysOf : Pattern → result (option (list Point * list Point)))
    (output : Output) (minOccurrences : Z) : result PureEntanglementOutput :=
  rbind (foldl (pureStep keysOf) (Ok []) (patterns output)) (λ starClasses,
    Ok (mkPureOutput (board_size output) (initial_star_count output)
          (arraySort _ compareTemplates (templatesOf starClasses minOccurrences)))).

(** [extractPureEntanglements] of pureEntanglementExtractor.ts (two stars,
    [canonicalizeStars] then [canonicalizeEmpties]). *)
Definition extractPureEntanglements_pair : Output → Z → result PureEntanglementOutput :=
  extractPureWith pairKeys.

(** [extractPureEntanglements] of miners/pureEntanglementExtractor.ts (any
    number of stars, generic [canonicalize]). *)
Definition extractPureEntanglements : Output → Z → result PureEntanglementOutput :=
  extractPureWith genericKeys.

(** ** Feature bags *)

Inductive JSValue : Type := JBool (b : bool) | JNum (z : Z).

Definition truthy (v : JSValue) : bool :=
  match v with
  | JBool b => b
  | JNum z => negb (bool_decide (z = 0))
  end.

(** [(features as any)[featureName] || false] in a boolean position *)
Definition featureValue (features : list (string * JSValue)) (featureName : string) : bool :=
  match mapGet featureName features with
  | Some v => truthy v
  | None => false
  end.

(** ** The search for separating features (shared text of
       mineConstrainedEntanglements and mineTripleEntanglements) *)
Section RuleSearch.
Context {O : Type} (value : O → string → bool) (featureNames : list string).

Definition separatesAlone (posOccs negOccs : list O) (featureName : string) : bool :=
  forallb (λ occ, value occ featureName) posOccs
  && negb (existsb (λ occ, value occ featureName) negOccs).

Definition separatesTogether (posOccs negOccs : list O) (f1 f2 : string) : bool :=
  forallb (λ occ, value occ f1 && value occ f2) posOccs
  && negb (existsb (λ occ, value occ f1 && value occ f2) negOccs).

(** [(featureNames[i], featureNames[j])] for [i < j], in loop order. *)
Fixpoint featurePairs (names : list string) : list (string * string) :=
  match names with
  | [] => []
  | f1 :: rest => ((λ f2, (f1, f2)) <$> rest) ++ featurePairs rest
  end.

Definition bestConstraints (posOccs negOccs : list O) : list string :=
  let singleFeatureConstraints := filter (λ f, separatesAlone posOccs negOccs f = true)
                                         featureNames in
  match singleFeatureConstraints with
  | [] =>
      foldl (λ best '(f1, f2),
               if separatesTogether posOccs negOccs f1 f2 then
                 if bool_decide (length best = 0%nat) || bool_decide (2 < length best)%nat
                 then [f1; f2] else best
               else best)
            singleFeatureConstraints (featurePairs featureNames)
  | first :: _ => [first]
  end.

End RuleSearch.

(** ** Constrained rules (constrainedEntanglementMiner.ts) *)

Record Occurrence : Type := mkOccurrence {
  occ_canonical_stars : list Point;
  occ_canonical_forced_empty : list Point;
  abs_stars : list Point;
  abs_forced_empty : list Point;
  occ_compatible_solutions : Z;
  extra_features : list (string * JSValue)
}.

Record ConstrainedRule : Type := mkConstrainedRule {
  rule_canonical_stars : list Point;
  rule_canonical_forced_empty : list Point;
  constraint_features : list string;
  rule_occurrences : Z
}.

Record ConstrainedEntanglementOutput : Type := mkConstrainedOutput {
  ce_board_size : Z;
  ce_initial_stars : Z;
  unconstrained_rules : list ConstrainedRule;
  constrained_rules : list ConstrainedRule
}.

Definition hasEmptyInRegion (empties : list Point) (minR maxR minC maxC : Z) : bool :=
  existsb (λ p, bool_decide (p.1 >= minR) && bool_decide (p.1 ≤ maxR)
                && bool_decide (p.2 >= minC) && bool_decide (p.2 ≤ maxC)) empties.

Definition emptyFeatures (empties : list Point) (boardSize : Z) : list (string * JSValue) :=
  [ ("has_empty_on_row0", JBool (existsb (λ p, bool_decide (p.1 = 0)) empties));
    ("has_empty_on_row_board_size_minus_1",
       JBool (existsb (λ p, bool_decide (p.1 = boardSize - 1)) empties));
    ("has_empty_on_col0", JBool (existsb (λ p, bool_decide (p.2 = 0)) empties));
    ("has_empty_on_col_board_size_minus_1",
       JBool (existsb (λ p, bool_decide (p.2 = boardSize - 1)) empties));
    ("has_empty_in_top_left_3x3", JBool (hasEmptyInRegion empties 0 2 0 2));
    ("has_empty_in_top_right_3x3",
       JBool (hasEmptyInRegion empties 0 2 (boardSize - 3) (boardSize - 1)));
    ("has_empty_in_bottom_left_3x3",
       JBool (hasEmptyInRegion empties (boardSize - 3) (boardSize - 1) 0 2));
    ("has_empty_in_bottom_right_3x3",
       JBool (hasEmptyInRegion empties (boardSize - 3) (boardSize - 1)
                (boardSize - 3) (boardSize - 1))) ].

(** [extractFeatures] of the two-star miner; [star0] and [star1] are the
    two entries of [abs_stars]. *)
Definition extractFeatures_pair (star0 star1 : Point) (empties : list Point)
    (boardSize : Z) : list (string * JSValue) :=
  let minRow := Z.min star0.1 star1.1 in
  let maxRow := Z.max star0.1 star1.1 in
  let minCol := Z.min star0.2 star1.2 in
  let maxCol := Z.max star0.2 star1.2 in
  let halfSize := boardSize `div` 2 in
  [ ("star0_on_top_edge", JBool (bool_decide (star0.1 = 0)));
    ("star0_on_bottom_edge", JBool (bool_decide (star0.1 = boardSize - 1)));
    ("star0_on_left_edge", JBool (bool_decide (star0.2 = 0)));
    ("star0_on_right_edge", JBool (bool_decide (star0.2 = boardSize - 1)));
    ("star1_on_top_edge", JBool (bool_decide (star1.1 = 0)));
    ("star1_on_bottom_edge", JBool (bool_decide (star1.1 = boardSize - 1)));
    ("star1_on_left_edge", JBool (bool_decide (star1.2 = 0)));
    ("star1_on_right_edge", JBool (bool_decide (star1.2 = boardSize - 1)));
    ("min_row_is_0", JBool (bool_decide (minRow = 0)));
    ("max_row_is_board_size_minus_1", JBool (bool_decide (maxRow = boardSize - 1)));
    ("min_col_is_0", JBool (bool_decide (minCol = 0)));
    ("max_col_is_board_size_minus_1", JBool (bool_decide (maxCol = boardSize - 1)));
    ("stars_same_row", JBool (bool_decide (star0.1 = star1.1)));
    ("stars_same_col", JBool (bool_decide (star0.2 = star1.2)));
    ("row_distance", JNum (Z.abs (star0.1 - star1.1)));
    ("col_distance", JNum (Z.abs (star0.2 - star1.2)));
    ("both_stars_in_top_half",
       JBool (bool_decide (star0.1 < halfSize) && bool_decide (star1.1 < halfSize)));
    ("both_stars_in_bottom_half",
       JBool (bool_decide (star0.1 >= halfSize) && bool_decide (star1.1 >= halfSize)));
    ("both_stars_in_left_half",
       JBool (bool_decide (star0.2 < halfSize) && bool_decide (star1.2 < halfSize)));
    ("both_stars_in_right_half",
       JBool (bool_decide (star0.2 >= halfSize) && bool_decide (star1.2 >= halfSize))) ]
  ++ emptyFeatures empties boardSize.

Definition getFeatureNames_pair : list string :=
  [ "star0_on_top_edge"; "star0_on_bottom_edge"; "star0_on_left_edge";
    "star0_on_right_edge"; "star1_on_top_edge"; "star1_on_bottom_edge";
    "star1_on_left_edge"; "star1_on_right_edge"; "min_row_is_0";
    "max_row_is_board_size_minus_1"; "min_col_is_0"; "max_col_is_board_size_minus_1";
    "stars_same_row"; "stars_same_col"; "both_stars_in_top_half";
    "both_stars_in_bottom_half"; "both_stars_in_left_half"; "both_stars_in_right_half";
    "has_empty_on_row0"; "has_empty_on_row_board_size_minus_1"; "has_empty_on_col0";
    "has_empty_on_col_board_size_minus_1"; "has_empty_in_top_left_3x3";
    "has_empty_in_top_right_3x3"; "has_empty_in_bottom_left_3x3";
    "has_empty_in_bottom_right_3x3" ].

(** The star features shared by the generic miners (any number of stars). *)
Definition starFeatures (stars : list Point) (boardSize : Z) : list (string * JSValue) :=
  let minRow := Math_min (fst <$> stars) in
  let maxRow := Math_max (fst <$> stars) in
  let minCol := Math_min (snd <$> stars) in
  let maxCol := Math_max (snd <$> stars) in
  let halfSize := boardSize `div` 2 in
  [ ("anyStarOnTopEdge", JBool (existsb (λ p, bool_decide (p.1 = 0)) stars));
    ("anyStarOnBottomEdge", JBool (existsb (λ p, bool_decide (p.1 = boardSize - 1)) stars));
    ("anyStarOnLeftEdge", JBool (existsb (λ p, bool_decide (p.2 = 0)) stars));
    ("anyStarOnRightEdge", JBool (existsb (λ p, bool_decide (p.2 = boardSize - 1)) stars));
    ("allStarsInLeftHalf", JBool (forallb (λ p, bool_decide (p.2 < halfSize)) stars));
    ("allStarsInRightHalf", JBool (forallb (λ p, bool_decide (p.2 >= halfSize)) stars));
    ("allStarsInTopHalf", JBool (forallb (λ p, bool_decide (p.1 < halfSize)) stars));
    ("allStarsInBottomHalf", JBool (forallb (λ p, bool_decide (p.1 >= halfSize)) stars));
    ("min_row_is_0", JBool (bool_decide (minRow = 0)));
    ("max_row_is_board_size_minus_1", JBool (bool_decide (maxRow = boardSize - 1)));
    ("min_col_is_0", JBool (bool_decide (minCol = 0)));
    ("max_col_is_board_size_minus_1", JBool (bool_decide (maxCol = boardSize - 1))) ].

Definition starFeatureNames : list string :=
  [ "anyStarOnTopEdge"; "anyStarOnBottomEdge"; "anyStarOnLeftEdge"; "anyStarOnRightEdge";
    "allStarsInLeftHalf"; "allStarsInRightHalf"; "allStarsInTopHalf";
    "allStarsInBottomHalf"; "min_row_is_0"; "max_row_is_board_size_minus_1";
    "min_col_is_0"; "max_col_is_board_size_minus_1" ].

Definition extractFeatures (stars empties : list Point) (boardSize : Z)
    : result (list (string * JSValue)) :=
  if decide (length stars = 0%nat) then Throw "extractFeatures expects at least one star"
  else Ok (starFeatures stars boardSize ++ emptyFeatures empties boardSize).

Definition getFeatureNames : list string :=
  starFeatureNames ++
  [ "has_empty_on_row0"; "has_empty_on_row_board_size_minus_1"; "has_empty_on_col0";
    "has_empty_on_col_board_size_minus_1"; "has_empty_in_top_left_3x3";
    "has_empty_in_top_right_3x3"; "has_empty_in_bottom_left_3x3";
    "has_empty_in_bottom_right_3x3" ].

(** Step 1 for one pattern: the occurrence it contributes, if any. *)
Definition occurrenceOf_pair (boardSize : Z) (pattern : Pattern) : result (list Occurrence) :=
  let initialStars := toPoint <$> initial_stars pattern in
  match initialStars with
  | [star0; star1] =>
      let forcedEmpty := toPoint <$> forced_empty_cells pattern in
      rbind (canonicalizeStars initialStars) (λ r,
        let canonicalEmpties :=
          canonicalizeEmpties forcedEmpty (cr_transformIndex r) (cr_translation r) in
        Ok [mkOccurrence (cr_canonicalStars r) canonicalEmpties initialStars forcedEmpty
              (compatible_solutions pattern)
              (extractFeatures_pair star0 star1 forcedEmpty boardSize)])
  | _ => Ok []
  end.

Definition occurrenceOf (boardSize : Z) (pattern : Pattern) : result (list Occurrence) :=
  let initialStars := toPoint <$> initial_stars pattern in
  if decide (length initialStars = 0%nat) then Ok []
  else
    let forcedEmpty := toPoint <$> forced_empty_cells pattern in
    rbind (canonicalize initialStars forcedEmpty) (λ r,
      rbind (extractFeatures initialStars forcedEmpty boardSize) (λ features,
        Ok [mkOccurrence (canonicalStars r) (canonicalCells r) initialStars forcedEmpty
              (compatible_solutions pattern) features])).

(** A loop that pushes what each element contributes; a [throw] ends it. *)
Definition collect {A B} (f : A → result (list B)) (l : list A) : result (list B) :=
  foldl (λ acc a, rbind acc (λ done, rbind (f a) (λ new, Ok (done ++ new)))) (Ok []) l.

(** Step 2: group by canonical stars, then by canonical forced-empty
    cells. *)
Definition groupOccurrence
    (starGroups : list (list Point * list (list Point * list Occurrence)))
    (occ : Occurrence) : list (list Point * list (list Point * list Occurrence)) :=
  let starKey := occ_canonical_stars occ in
  let emptiesKey := occ_canonical_forced_empty occ in
  let starGroups1 := if mapHas starKey starGroups then starGroups
                     else mapSet starKey [] starGroups in
  match mapGet starKey starGroups1 with
  | Some emptiesMap =>
      let emptiesMap1 := if mapHas emptiesKey emptiesMap then emptiesMap
                         else mapSet emptiesKey [] emptiesMap in
      mapSet starKey
        (mapSet emptiesKey (default [] (mapGet emptiesKey emptiesMap1) ++ [occ]) emptiesMap1)
        starGroups1
  | None => starGroups1
  end.

(** Step 3 for one star geometry: its unconstrained and constrained
    rules. *)
Definition rulesOfGroup (featureNames : list string) (minOccurrences : Z)
    (canonicalStars : list Point) (emptiesMap : list (list Point * list Occurrence))
    : list ConstrainedRule * list ConstrainedRule :=
  let distinctEmptiesPatterns := fst <$> emptiesMap in
  match emptiesMap with
  | [(emptiesKey, occs)] =>
      (if bool_decide (Z.of_nat (length occs) >= minOccurrences)
       then [mkConstrainedRule canonicalStars emptiesKey [] (Z.of_nat (length occs))]
       else [],
       [])
  | _ =>
      ([],
       emptiesKey ← distinctEmptiesPatterns;
       let posOccs := default [] (mapGet emptiesKey emptiesMap) in
       if bool_decide (Z.of_nat (length posOccs) < minOccurrences) then []
       else
         let negOccs :=
           '(otherEmptiesKey, otherOccs) ← emptiesMap;
           if decide (otherEmptiesKey ≠ emptiesKey) then otherOccs else [] in
         if bool_decide (length negOccs = 0%nat) then []
         else
           let best :=
             bestConstraints (λ occ f, featureValue (extra_features occ) f)
                             featureNames posOccs negOccs in
           if bool_decide (0 < length best)%nat
           then [mkConstrainedRule canonicalStars emptiesKey best
                                   (Z.of_nat (length posOccs))]
           else [])
  end.

Definition compareRules (a b : ConstrainedRule) : Z :=
  if decide (rule_occurrences b ≠ rule_occurrences a)
  then rule_occurrences b - rule_occurrences a
  else localeCompare (JSON_stringify (rule_canonical_stars a))
                     (JSON_stringify (rule_canonical_stars b)).

Definition mineConstrainedWith (occurrenceOfPattern : Z → Pattern → result (list Occurrence))
    (featureNames : list string) (output : Output) (minOccurrences : Z)
    : result ConstrainedEntanglementOutput :=
  rbind (collect (occurrenceOfPattern (board_size output)) (patterns output)) (λ occurrences,
    let starGroups := foldl groupOccurrence [] occurrences in
    let rules := (λ '(starKey, emptiesMap),
                    rulesOfGroup featureNames minOccurrences starKey emptiesMap)
                 <$> starGroups in
    Ok (mkConstrainedOutput (board_size output) (initial_star_count output)
          (arraySort _ compareRules (rules ≫= fst))
          (arraySort _ compareRules (rules ≫= snd)))).

(** [mineConstrainedEntanglements] of constrainedEntanglementMiner.ts (two
    stars). *)
Definition mineConstrainedEntanglements_pair
    : Output → Z → result ConstrainedEntanglementOutput :=
  mineConstrainedWith occurrenceOf_pair getFeatureNames_pair.

(** [mineConstrainedEntanglements] of miners/constrainedEntanglementMiner.ts
    (any number of stars). *)
Definition mineConstrainedEntanglements : Output → Z → result ConstrainedEntanglementOutput :=
  mineConstrainedWith occurrenceOf getFeatureNames.

(** ** Triples: a star set and one candidate cell
       (tripleEntanglementMiner.ts) *)

Record TripleOccurrence : Type := mkTripleOccurrence {
  t_canonical_stars : list Point;
  canonical_candidate : Point;
  t_abs_stars : list Point;
  abs_candidate : Point;
  is_forced : bool;
  t_extra_features : list (string * JSValue)
}.

Record TripleRule : Type := mkTripleRule {
  tr_canonical_stars : list Point;
  tr_canonical_candidate : Point;
  tr_constraint_features : list string;
  forced : bool;
  tr_occurrences : Z
}.

Record TripleEntanglementOutput : Type := mkTripleOutput {
  te_board_size : Z;
  te_initial_stars : Z;
  te_unconstrained_rules : list TripleRule;
  te_constrained_rules : list TripleRule
}.

Record CanonicalTriple : Type := mkCanonicalTriple {
  ct_canonicalStars : list Point;
  ct_canonicalCandidate : Point;
  ct_transformIndex : nat;
  ct_translation : Point
}.

(** [JSON.stringify([stars, candidate])] *)
Definition stringify_triple (stars : list Point) (candidate : Point) : string :=
  "[" +:+ JSON_stringify stars +:+ "," +:+ stringify_point candidate +:+ "]".

(** One round of the loop of the two-star [canonicalizeTriple]: the key
    holds the stars and the candidate. *)
Definition tripleCandidate (star1 star2 candidate : Point) (i : nat)
    (transform : Transform) : CanonicalTriple * string :=
  let t1 := applyTransform transform star1 in
  let t2 := applyTransform transform star2 in
  let tc := applyTransform transform candidate in
  let minRow := Z.min t1.1 t2.1 in
  let minCol := Z.min t1.2 t2.2 in
  let p1 : Point := (t1.1 - minRow, t1.2 - minCol) in
  let p2 : Point := (t2.1 - minRow, t2.2 - minCol) in
  let pc : Point := (tc.1 - minRow, tc.2 - minCol) in
  let sortedStars :=
    if decide (p1.1 < p2.1 ∨ (p1.1 = p2.1 ∧ p1.2 < p2.2))
    then [p1; p2] else [p2; p1] in
  (mkCanonicalTriple sortedStars pc i (minRow, minCol),
   stringify_triple sortedStars pc).

(** [canonicalizeTriple] of the two-star miner *)
Definition canonicalizeTriple_pair (stars : list Point) (candidate : Point)
    : result CanonicalTriple :=
  match stars with
  | [star1; star2] =>
      match foldl keepSmallest None
                  (imap (tripleCandidate star1 star2 candidate) transforms) with
      | None => Throw "Failed to canonicalize triple"
      | Some (best, _) => Ok best
      end
  | _ => Throw "canonicalizeTriple expects exactly 2 stars"
  end.

(** [canonicalizeTriple] of the generic miner: the candidate is the one
    auxiliary cell of [canonicalize]. *)
Definition canonicalizeTriple (stars : list Point) (candidate : Point)
    : result CanonicalTriple :=
  if decide (length stars = 0%nat) then
    Throw "canonicalizeTriple expects at least one star"
  else
    rbind (canonicalize stars [candidate]) (λ r,
      match canonicalCells r with
      | [c] => Ok (mkCanonicalTriple (canonicalStars r) c (transformIndex r) (translation r))
      | _ => Throw "Expected exactly one candidate cell after canonicalization"
      end).

Definition candidateFeatures (candidate : Point) (boardSize : Z) : list (string * JSValue) :=
  let c_row := candidate.1 in
  let c_col := candidate.2 in
  [ ("candidate_on_top_edge", JBool (bool_decide (c_row = 0)));
    ("candidate_on_bottom_edge", JBool (bool_decide (c_row = boardSize - 1)));
    ("candidate_on_left_edge", JBool (bool_decide (c_col = 0)));
    ("candidate_on_right_edge", JBool (bool_decide (c_col = boardSize - 1)));
    ("candidate_on_outer_ring",
       JBool (bool_decide (c_row = 0) || bool_decide (c_row = boardSize - 1)
              || bool_decide (c_col = 0) || bool_decide (c_col = boardSize - 1)));
    ("candidate_in_top_left_3x3",
       JBool (bool_decide (c_row >= 0) && bool_decide (c_row ≤ 2)
              && bool_decide (c_col >= 0) && bool_decide (c_col ≤ 2)));
    ("candidate_in_top_right_3x3",
       JBool (bool_decide (c_row >= 0) && bool_decide (c_row ≤ 2)
              && bool_decide (c_col >= boardSize - 3) && bool_decide (c_col ≤ boardSize - 1)));
    ("candidate_in_bottom_left_3x3",
       JBool (bool_decide (c_row >= boardSize - 3) && bool_decide (c_row ≤ boardSize - 1)
              && bool_decide (c_col >= 0) && bool_decide (c_col ≤ 2)));
    ("candidate_in_bottom_right_3x3",
       JBool (bool_decide (c_row >= boardSize - 3) && bool_decide (c_row ≤ boardSize - 1)
              && bool_decide (c_col >= boardSize - 3)
              && bool_decide (c_col ≤ boardSize - 1))) ].

Definition candidateFeatureNames : list string :=
  [ "candidate_on_top_edge"; "candidate_on_bottom_edge"; "candidate_on_left_edge";
    "candidate_on_right_edge"; "candidate_on_outer_ring"; "candidate_in_top_left_3x3";
    "candidate_in_top_right_3x3"; "candidate_in_bottom_left_3x3";
    "candidate_in_bottom_right_3x3" ].

(** [extractTripleFeatures] of the two-star miner.  [const [star0, star1] =
    occurrence.abs_stars] followed by [const [s0_row, s0_col] = star0]
    raises a TypeError when a star is missing. *)
Definition extractTripleFeatures_pair (absStars : list Point) (candidate : Point)
    (boardSize : Z) : result (list (string * JSValue)) :=
  match absStars with
  | star0 :: star1 :: _ =>
      let minRow := Z.min star0.1 star1.1 in
      let maxRow := Z.max star0.1 star1.1 in
      let minCol := Z.min star0.2 star1.2 in
      let maxCol := Z.max star0.2 star1.2 in
      Ok ([ ("star0_on_top_edge", JBool (bool_decide (star0.1 = 0)));
            ("star0_on_bottom_edge", JBool (bool_decide (star0.1 = boardSize - 1)));
            ("star0_on_left_edge", JBool (bool_decide (star0.2 = 0)));
            ("star0_on_right_edge", JBool (bool_decide (star0.2 = boardSize - 1)));
            ("star1_on_top_edge", JBool (bool_decide (star1.1 = 0)));
            ("star1_on_bottom_edge", JBool (bool_decide (star1.1 = boardSize - 1)));
            ("star1_on_left_edge", JBool (bool_decide (star1.2 = 0)));
            ("star1_on_right_edge", JBool (bool_decide (star1.2 = boardSize - 1)));
            ("min_row_is_0", JBool (bool_decide (minRow = 0)));
            ("max_row_is_board_size_minus_1", JBool (bool_decide (maxRow = boardSize - 1)));
            ("min_col_is_0", JBool (bool_decide (minCol = 0)));
            ("max_col_is_board_size_minus_1", JBool (bool_decide (maxCol = boardSize - 1))) ]
          ++ candidateFeatures candidate boardSize)
  | _ => Throw "TypeError: undefined is not iterable"
  end.

Definition getTripleFeatureNames_pair : list string :=
  [ "star0_on_top_edge"; "star0_on_bottom_edge"; "star0_on_left_edge";
    "star0_on_right_edge"; "star1_on_top_edge"; "star1_on_bottom_edge";
    "star1_on_left_edge"; "star1_on_right_edge"; "min_row_is_0";
    "max_row_is_board_size_minus_1"; "min_col_is_0"; "max_col_is_board_size_minus_1" ]
  ++ candidateFeatureNames.

(** [extractTripleFeatures] of the generic miner *)
Definition extractTripleFeatures (absStars : list Point) (candidate : Point)
    (boardSize : Z) : result (list (string * JSValue)) :=
  if decide (length absStars = 0%nat) then
    Throw "extractTripleFeatures expects at least one star"
  else Ok (starFeatures absStars boardSize ++ candidateFeatures candidate boardSize).

Definition getTripleFeatureNames : list string :=
  starFeatureNames ++ candidateFeatureNames.

(** [isCandidateForcedEmpty] *)
Definition isCandidateForcedEmpty (stars : list Cell) (candidate : Cell)
    (solutions : list Grid) : bool :=
  let compatibleSolutions := filter (λ solution, isPatternCompatible stars solution = true)
                                    solutions in
  if bool_decide (length compatibleSolutions = 0%nat) then false
  else forallb (λ solution,
                  bool_decide (gridAtZ solution (row candidate) (col candidate) = Some 0))
               compatibleSolutions.

(** The two miners differ in four places, gathered here: which patterns
    Step 1 takes, the canonicaliser, the feature extractor with its
    names, and how Step 2 places the canonical stars at a base cell. *)
Record TripleVariant : Type := mkTripleVariant {
  supported : Pattern → bool;
  canonicalizer : list Point → Point → result CanonicalTriple;
  featuresOf : list Point → Point → Z → result (list (string * JSValue));
  featureNamesOf : list string;
  placeStars : Z → Z → list Point → result (list Point)
}.

(** [const [s0, s1] = canonStars; absStar0 = [baseRow + s0[0], ...]] *)
Definition placeStars_pair (baseRow baseCol : Z) (canonStars : list Point)
    : result (list Point) :=
  match canonStars with
  | s0 :: s1 :: _ => Ok [(baseRow + s0.1, baseCol + s0.2); (baseRow + s1.1, baseCol + s1.2)]
  | _ => Throw "TypeError: cannot read properties of undefined"
  end.

(** [canonStars.map(star => [baseRow + star[0], baseCol + star[1]])] *)
Definition placeStars_all (baseRow baseCol : Z) (canonStars : list Point)
    : result (list Point) :=
  Ok ((λ star : Point, (baseRow + star.1, baseCol + star.2)) <$> canonStars).

Definition pairVariant : TripleVariant :=
  mkTripleVariant (λ pattern, bool_decide (length (initial_stars pattern) = 2%nat))
                  canonicalizeTriple_pair extractTripleFeatures_pair
                  getTripleFeatureNames_pair placeStars_pair.

Definition genericVariant : TripleVariant :=
  mkTripleVariant (λ pattern, negb (bool_decide (length (initial_stars pattern) = 0%nat)))
                  canonicalizeTriple extractTripleFeatures
                  getTripleFeatureNames placeStars_all.

Section TripleMiner.
Variable variant : TripleVariant.
Variable solutions : list Grid.

(** Step 1 for one pattern: one triple for each forced-empty cell. *)
Definition triplesOfPattern (boardSize : Z) (pattern : Pattern)
    : result (list TripleOccurrence) :=
  if supported variant pattern then
    let initialStars := toPoint <$> initial_stars pattern in
    collect (λ emptyCell,
      let candidate := toPoint emptyCell in
      rbind (canonicalizer variant initialStars candidate) (λ ct,
        let isForced := isCandidateForcedEmpty (initial_stars pattern) emptyCell solutions in
        rbind (featuresOf variant initialStars candidate boardSize) (λ features,
          Ok [mkTripleOccurrence (ct_canonicalStars ct) (ct_canonicalCandidate ct)
                initialStars candidate isForced features])))
      (forced_empty_cells pattern)
  else Ok [].

Definition tripleKeyOf (occ : TripleOccurrence) : list Point * Point :=
  (t_canonical_stars occ, canonical_candidate occ).

Definition placementKeyOf (occ : TripleOccurrence)
    : list Point * Point * list Point * Point :=
  (tripleKeyOf occ, t_abs_stars occ, abs_candidate occ).

(** The first loop of Step 2: the canonical triples in order of first
    appearance, and the placements already seen. *)
Definition canonicalTriplesOf (occs : list TripleOccurrence)
    : list ((list Point * Point) * (list Point * Point)) :=
  foldl (λ m occ, if mapHas (tripleKeyOf occ) m then m
                  else mapSet (tripleKeyOf occ) (tripleKeyOf occ) m) [] occs.

Definition seenPlacementsOf (occs : list TripleOccurrence)
    : gset (list Point * Point * list Point * Point) :=
  foldl (λ seen occ, {[ placementKeyOf occ ]} ∪ seen) ∅ occs.

Definition outsideBoard (boardSize : Z) (p : Point) : bool :=
  bool_decide (p.1 < 0) || bool_decide (p.1 >= boardSize)
  || bool_decide (p.2 < 0) || bool_decide (p.2 >= boardSize).

Fixpoint hasAdjacentStars (absStars : list Point) : bool :=
  match absStars with
  | [] => false
  | si :: rest =>
      existsb (λ sj, bool_decide (Z.abs (si.1 - sj.1) ≤ 1)
                     && bool_decide (Z.abs (si.2 - sj.2) ≤ 1)) rest
      || hasAdjacentStars rest
  end.

(** The body of the two loops over [baseRow] and [baseCol]. *)
Definition tryPlacement (boardSize : Z) (tripleKey : list Point * Point)
    (st : result (list TripleOccurrence * gset (list Point * Point * list Point * Point)))
    (base : Z * Z)
    : result (list TripleOccurrence * gset (list Point * Point * list Point * Point)) :=
  rbind st (λ '(tripleOccurrences, seenPlacements),
    let canonStars := tripleKey.1 in
    let canonCandidate := tripleKey.2 in
    rbind (placeStars variant base.1 base.2 canonStars) (λ absStars,
      let absCandidate : Point := (base.1 + canonCandidate.1, base.2 + canonCandidate.2) in
      if existsb (outsideBoard boardSize) absStars || outsideBoard boardSize absCandidate
      then Ok (tripleOccurrences, seenPlacements)
      else if hasAdjacentStars absStars then Ok (tripleOccurrences, seenPlacements)
      else
        let starCells := (λ p : Point, mkCell p.1 p.2) <$> absStars in
        let candidateCell := mkCell absCandidate.1 absCandidate.2 in
        if negb (existsb (λ solution, isPatternCompatible starCells solution) solutions)
        then Ok (tripleOccurrences, seenPlacements)
        else
          let placementKey := (tripleKey, absStars, absCandidate) in
          if decide (placementKey ∈ seenPlacements)
          then Ok (tripleOccurrences, seenPlacements)
          else
            let isForced := isCandidateForcedEmpty starCells candidateCell solutions in
            rbind (featuresOf variant absStars absCandidate boardSize) (λ features,
              Ok (tripleOccurrences ++
                    [mkTripleOccurrence canonStars canonCandidate absStars absCandidate
                       isForced features],
                  {[ placementKey ]} ∪ seenPlacements)))).

(** [for (baseRow = 0; baseRow < boardSize; baseRow++)
       for (baseCol = 0; baseCol < boardSize; baseCol++)] *)
Definition basesOf (boardSize : Z) : list (Z * Z) :=
  baseRow ← seqZ 0 boardSize; (λ baseCol, (baseRow, baseCol)) <$> seqZ 0 boardSize.

(** Steps 1 and 2: the occurrence sample. *)
Definition tripleOccurrencesOf (output : Output) : result (list TripleOccurrence) :=
  rbind (collect (triplesOfPattern (board_size output)) (patterns output))
    (λ fromPatterns,
      rbind (foldl (λ st '(tripleKey, _),
                      foldl (tryPlacement (board_size output) tripleKey) st
                            (basesOf (board_size output)))
                   (Ok (fromPatterns, seenPlacementsOf fromPatterns))
                   (canonicalTriplesOf fromPatterns))
            (λ st, Ok st.1)).

(** Step 3: group by canonical triple. *)
Definition groupTriple (tripleGroups : list ((list Point * Point) * list TripleOccurrence))
    (occ : TripleOccurrence) : list ((list Point * Point) * list TripleOccurrence) :=
  let key := tripleKeyOf occ in
  let tripleGroups1 := if mapHas key tripleGroups then tripleGroups
                       else mapSet key [] tripleGroups in
  mapSet key (default [] (mapGet key tripleGroups1) ++ [occ]) tripleGroups1.

(** Step 4 for one canonical triple. *)
Definition tripleRulesOfGroup (minOccurrences : Z) (tripleKey : list Point * Point)
    (occurrences : list TripleOccurrence) : list TripleRule * list TripleRule :=
  let posOccs := filter (λ occ, is_forced occ = true) occurrences in
  let negOccs := filter (λ occ, is_forced occ = false) occurrences in
  if bool_decide (Z.of_nat (length posOccs) < minOccurrences) then ([], [])
  else if bool_decide (length negOccs = 0%nat) then
    ([mkTripleRule tripleKey.1 tripleKey.2 [] true (Z.of_nat (length posOccs))], [])
  else
    let best := bestConstraints (λ occ f, featureValue (t_extra_features occ) f)
                                (featureNamesOf variant) posOccs negOccs in
    if bool_decide (0 < length best)%nat
    then ([], [mkTripleRule tripleKey.1 tripleKey.2 best true (Z.of_nat (length posOccs))])
    else ([], []).

Definition compareTripleRules (a b : TripleRule) : Z :=
  if decide (tr_occurrences b ≠ tr_occurrences a)
  then tr_occurrences b - tr_occurrences a
  else localeCompare (stringify_triple (tr_canonical_stars a) (tr_canonical_candidate a))
                     (stringify_triple (tr_canonical_stars b) (tr_canonical_candidate b)).

Definition mineTripleWith (output : Output) (minOccurrences : Z)
    : result TripleEntanglementOutput :=
  rbind (tripleOccurrencesOf output) (λ tripleOccurrences,
    let tripleGroups := foldl groupTriple [] tripleOccurrences in
    let rules := (λ '(tripleKey, occurrences),
                    tripleRulesOfGroup minOccurrences tripleKey occurrences)
                 <$> tripleGroups in
    Ok (mkTripleOutput (board_size output) (initial_star_count output)
          (arraySort _ compareTripleRules (rules ≫= fst))
          (arraySort _ compareTripleRules (rules ≫= snd)))).

End TripleMiner.

(** [mineTripleEntanglements] of tripleEntanglementMiner.ts (two stars) *)
Definition mineTripleEntanglements_pair
    : list Grid → Output → Z → result TripleEntanglementOutput :=
  mineTripleWith pairVariant.

(** [mineTripleEntanglements] of miners/tripleEntanglementMiner.ts (any
    number of stars) *)
Definition mineTripleEntanglements : list Grid → Output → Z → result TripleEntanglementOutput :=
  mineTripleWith genericVariant.

End Mining.

(** The later [mineTripleEntanglements] of constrainedEntanglementMiner.ts
    chooses its boolean constraints in one loop:
    [allPosTrue && someNegNotTrue] keeps a feature. *)
Definition chosenFeatures {O : Type} (value : O → string → bool)
    (booleanFeatureKeys : list string) (pos neg : list O) : list string :=
  filter (λ fname, forallb (λ o, value o fname) pos
                   && existsb (λ o, negb (value o fname)) neg = true)
         booleanFeatureKeys.

(** A sort and a string comparison to run the miners with: any stable sort
    and any comparison serve where a property holds for all of them. *)
Definition stableSort (A : Type) (cmp : A → A → Z) (l : list A) : list A :=
  @merge_sort A (λ a b, cmp a b ≤ 0) (λ a b, decide (cmp a b ≤ 0)) l.

Definition codeUnitCompare (a b : string) : Z :=
  match String.compare a b with
  | Lt => -1
  | Eq => 0
  | Gt => 1
  end.

End Miners.

Module Pipeline.
Import Geometry Enumeration Analyzer Miners.

(** ** Pattern generation (core/patternAnalyzer.ts) *)

(** [generateCombinations(array, k, start, current, result)]: [result] is
    the array that the calls push to, threaded through them.  The depth of
    the recursion is at most [array.length - start + 1]. *)
Fixpoint generateCombinations {A} (fuel : nat) (array : list A) (k : Z) (start : nat)
    (current : list A) (result : list (list A)) : option (list (list A)) :=
  match fuel with
  | O => None
  | S fuel' =>
      if decide (Z.of_nat (length current) = k) then Some (result ++ [current])
      else
        foldl (λ acc i,
                 acc ≫= λ res,
                   match array !! i with
                   | Some x => generateCombinations fuel' array k (S i) (current ++ [x]) res
                   | None => Some res
                   end)
              (Some result) (seq start (length array - start))
  end.

Section Generator.
Variable boardSize : nat.
Variable solutions : list Grid.

Definition allCells : list Cell := (λ rc, cellAt rc.1 rc.2) <$> boardCells boardSize.

Definition generatePatterns (patternSize : Z) : option (list (list Cell)) :=
  patterns ← generateCombinations (length allCells + 1) allCells patternSize 0 [] [];
  let validPatterns := filter (λ p, isLocallyValid p = true) patterns in
  let realizablePatterns :=
    filter (λ pattern,
              existsb (λ solution, isPatternCompatible pattern solution) solutions = true)
           validPatterns in
  Some realizablePatterns.

End Generator.

(** ** The split of the patterns among the workers (workers/worker.ts,
       index.ts)

    [Math.ceil(totalPatterns / totalWorkers)] with a positive divisor. *)
Definition ceilDiv (a b : nat) : nat := ((a + b - 1) / b)%nat.

(** The results that worker [workerId] posts.  With [totalWorkers = 0] the
    loop bounds are [NaN] or [Infinity] and the loop body never runs. *)
Definition workerResults {A B} (analyze : A → option B) (patterns : list A)
    (workerId totalWorkers : nat) : list B :=
  if decide (totalWorkers = 0%nat) then []
  else
    let totalPatterns := length patterns in
    let patternsPerWorker := ceilDiv totalPatterns totalWorkers in
    let startIdx := (workerId * patternsPerWorker)%nat in
    let endIdx := Nat.min (startIdx + patternsPerWorker) totalPatterns in
    omap (λ i, patterns !! i ≫= analyze) (seq startIdx (endIdx - startIdx)).

(** [workerResults.flat()] once every worker has posted its results. *)
Definition allResults {A B} (analyze : A → option B) (patterns : list A)
    (numWorkers : nat) : list B :=
  w ← seq 0 numWorkers; workerResults analyze patterns w numWorkers.

(** ** The file format of the patterns ([writeOutput] of utils/index.ts,
       [extractFromFile] of pureEntanglementExtractor.ts)

    A key that [writeOutput] leaves out is [None]. *)
Record CompressedPattern : Type := mkCompressedPattern {
  cp_initial_stars : list Point;
  cp_compatible_solutions : option Z;
  cp_forced_empty : option (list Point);
  cp_forced_star : option (list Point)
}.

Definition compressPattern (includeCompatibleSolutions : bool) (pattern : Pattern)
    : CompressedPattern :=
  mkCompressedPattern
    (toPoint <$> initial_stars pattern)
    (if includeCompatibleSolutions then Some (compatible_solutions pattern) else None)
    (if bool_decide (0 < length (forced_empty_cells pattern))%nat
     then Some (toPoint <$> forced_empty_cells pattern) else None)
    (if bool_decide (0 < length (forced_star_cells pattern))%nat
     then Some (toPoint <$> forced_star_cells pattern) else None).

(** [([row, col]) => ({ row, col })] *)
Definition toCell (p : Point) : Cell := mkCell p.1 p.2.

(** [p.compatible_solutions || 0], [(p.forced_empty || []).map(...)] *)
Definition expandPattern (p : CompressedPattern) : Pattern :=
  mkPattern
    (toCell <$> cp_initial_stars p)
    (match cp_compatible_solutions p with
     | Some n => if decide (n = 0) then 0 else n
     | None => 0
     end)
    (toCell <$> default [] (cp_forced_empty p))
    (toCell <$> default [] (cp_forced_star p)).

(** What is read back from the file that [writeOutput] wrote:
    [JSON.parse (JSON.stringify v)] is [v] for these values. *)
Definition reloadOutput (includeCompatibleSolutions : bool) (output : Output) : Output :=
  withPatterns output
    (expandPattern <$> (compressPattern includeCompatibleSolutions <$> patterns output)).

(** ** All star pairs (miners/tripleEntanglementMiner.ts) *)
Definition enumerateAllStarPairs (boardSize : Z) : list (list Cell) :=
  r1 ← seqZ 0 boardSize; c1 ← seqZ 0 boardSize;
  r2 ← seqZ 0 boardSize; c2 ← seqZ 0 boardSize;
  if decide (r1 = r2 ∧ c1 = c2) then []
  else if decide (Z.abs (r1 - r2) ≤ 1 ∧ Z.abs (c1 - c2) ≤ 1) then []
  else [[mkCell r1 c1; mkCell r2 c2]].

(** ** [canonicalizeStars] of miners/pureEntanglementExtractor.ts: the
       wrapper of [canonicalize] kept for the two-star callers.
       [[result.canonicalStars[0], result.canonicalStars[1]]] is the first
       two canonical stars; there are two of them. *)
Definition canonicalizeStars_wrapper (initialStars : list Point)
    : result CanonicalizationResult :=
  if decide (length initialStars ≠ 2%nat) then
    Throw "canonicalizeStars expects exactly 2 stars"
  else
    rbind (canonicalize initialStars []) (λ r,
      Ok (mkCanonicalizationResult (take 2 (canonicalStars r))
                                   (transformIndex r) (translation r))).

End Pipeline.
Module GeometryFacts.
Import Geometry.

(** *** The order on keys: [<] on strings is a strict total order *)

Lemma ltb_leb (a b : string) : String.ltb a b = negb (String.leb b a).
Proof.
  unfold String.ltb, String.leb. rewrite (String.compare_antisym a b).
  destruct (String.compare b a); reflexivity.
Qed.

Lemma ltb_irrefl (a : string) : String.ltb a a = false.
Proof.
  rewrite ltb_leb. destruct (String.leb a a) eqn:E; [done|].
  assert (String.le a a) as H by reflexivity.
  unfold String.le in H. rewrite E in H. done.
Qed.

Lemma ltb_false_le (a b : string) : String.ltb a b = false ↔ String.le b a.
Proof.
  rewrite ltb_leb. unfold String.le. destruct (String.leb b a); simpl; split; done.
Qed.

Lemma ltb_true_lt (a b : string) : String.ltb a b = true ↔ String.le a b ∧ a ≠ b.
Proof.
  split.
  - intros H. split.
    + destruct (total String.le a b) as [|Hba]; [done|].
      apply ltb_false_le in Hba. congruence.
    + intros ->. rewrite ltb_irrefl in H. done.
  - intros [Hab Hne]. destruct (String.ltb a b) eqn:E; [done|].
    apply ltb_false_le in E. destruct Hne. by apply (anti_symm String.le).
Qed.

Lemma ltb_antisym_eq (a b : string) :
  String.ltb a b = false → String.ltb b a = false → a = b.
Proof.
  rewrite !ltb_false_le. intros H1 H2. by apply (anti_symm String.le).
Qed.

Lemma ltb_le_trans (a b c : string) :
  String.ltb b a = false → String.ltb b c = true → String.ltb c a = false.
Proof.
  rewrite ltb_true_lt, !ltb_false_le. intros Hab [Hbc _]. by etrans.
Qed.

(** *** Keeping the smallest key *)

Section KeepSmallest.
Context {A : Type}.
Implicit Types (l : list (A * string)) (b c : A * string).

Definition minimalIn b l : Prop :=
  b ∈ l ∧ ∀ x, x ∈ l → String.ltb x.2 b.2 = false.

Lemma keepSmallest_foldl_some l b :
  ∃ b', foldl keepSmallest (Some b) l = Some b'.
Proof.
  revert b. induction l as [|c l IH]; intros b; simpl; [by eexists|].
  destruct b as [x k]. simpl. destruct (String.ltb c.2 k); apply IH.
Qed.

Lemma keepSmallest_foldl_min l b b' :
  foldl keepSmallest (Some b) l = Some b' → minimalIn b' (b :: l).
Proof.
  revert b. induction l as [|c l IH]; intros b; simpl.
  - intros [= ->]. split; [left|]. intros x ->%list_elem_of_singleton.
    apply ltb_irrefl.
  - destruct b as [x k]. simpl. destruct (String.ltb c.2 k) eqn:E; intros H.
    + apply IH in H as [Hin Hmin]. split; [by right|].
      intros y [->|Hy]%elem_of_cons; [|by apply Hmin].
      simpl. eapply ltb_le_trans; [|exact E]. apply Hmin. left.
    + apply IH in H as [Hin Hmin]. split.
      * apply elem_of_cons in Hin as [->|?]; [left|right; by right].
      * intros y [->|[->|Hy]%elem_of_cons]%elem_of_cons.
        -- apply Hmin. left.
        -- simpl. destruct (String.ltb c.2 b'.2) eqn:E'; [|done].
           assert (String.ltb k b'.2 = false) as Hk by (apply (Hmin (x, k)); left).
           apply ltb_false_le in E, Hk. apply ltb_true_lt in E' as [E1 E2].
           destruct E2. apply (anti_symm String.le); [done|]. by etrans.
        -- apply Hmin. by right.
Qed.

Lemma keepSmallest_min c l :
  ∃ b, foldl keepSmallest None (c :: l) = Some b ∧ minimalIn b (c :: l).
Proof.
  simpl. destruct (keepSmallest_foldl_some l c) as [b Hb].
  exists b. split; [done|]. by apply keepSmallest_foldl_min.
Qed.

Lemma minimalIn_key_unique b b' l l' :
  minimalIn b l → minimalIn b' l' →
  (∀ x, x ∈ l → ∃ y, y ∈ l' ∧ y.2 = x.2) →
  (∀ y, y ∈ l' → ∃ x, x ∈ l ∧ x.2 = y.2) →
  b.2 = b'.2.
Proof.
  intros [Hb Hmin] [Hb' Hmin'] H12 H21.
  destruct (H12 _ Hb) as (y & Hy & Ey). destruct (H21 _ Hb') as (x & Hx & Ex).
  apply ltb_antisym_eq.
  - rewrite <- Ey. by apply Hmin'.
  - rewrite <- Ex. by apply Hmin.
Qed.
End KeepSmallest.


(** *** [JSON.stringify] is injective on arrays of points *)

Fixpoint plain (s : string) : Prop :=
  match s with
  | EmptyString => True
  | String a s' => a ≠ ","%char ∧ a ≠ "]"%char ∧ plain s'
  end.

Lemma pretty_N_char_plain x : pretty_N_char x ≠ ","%char ∧ pretty_N_char x ≠ "]"%char.
Proof. unfold pretty_N_char. by repeat case_match. Qed.

Lemma pretty_N_go_plain x s : plain s → plain (pretty_N_go x s).
Proof.
  revert s. induction (N.lt_wf_0 x) as [x _ IH]; intros s Hs.
  assert (x = 0 ∨ 0 < x)%N as [->|?] by lia.
  - by rewrite pretty_N_go_0.
  - rewrite pretty_N_go_step by done. apply IH; [by apply N.div_lt|].
    simpl. destruct (pretty_N_char_plain (x `mod` 10)). done.
Qed.

Lemma pretty_N_plain (x : N) : plain (pretty x).
Proof.
  unfold pretty, pretty_N. case_decide; [simpl; done|]. by apply pretty_N_go_plain.
Qed.

Lemma pretty_Z_plain (z : Z) : plain (pretty z).
Proof.
  destruct z as [|p|p]; unfold pretty, pretty_Z.
  - simpl. done.
  - apply pretty_N_plain.
  - simpl. split_and!; [done..|]. apply pretty_N_plain.
Qed.

Definition delimiter (d : ascii) : Prop := d = ","%char ∨ d = "]"%char.

Lemma append_nil (b : string) : "" +:+ b = b.
Proof. reflexivity. Qed.

Lemma append_cons (x : ascii) (a b : string) : String x a +:+ b = String x (a +:+ b).
Proof. reflexivity. Qed.

Lemma append_assoc (a b c : string) : (a +:+ b) +:+ c = a +:+ (b +:+ c).
Proof.
  induction a as [|x a IH]; [done|]. rewrite !append_cons. by rewrite IH.
Qed.

Ltac string_norm := rewrite ?append_assoc, ?append_cons, ?append_nil.

Lemma plain_split a b d1 d2 r1 r2 :
  plain a → plain b → delimiter d1 → delimiter d2 →
  a +:+ String d1 r1 = b +:+ String d2 r2 → a = b ∧ d1 = d2 ∧ r1 = r2.
Proof.
  revert b. induction a as [|x a IH]; intros [|y b];
    string_norm; intros Ha Hb Hd1 Hd2 Heq.
  - by simplify_eq.
  - simplify_eq. destruct Hb as (? & ? & _). by destruct Hd1.
  - simplify_eq. destruct Ha as (? & ? & _). by destruct Hd2.
  - injection Heq as -> Heq. destruct Ha as (_ & _ & Ha), Hb as (_ & _ & Hb).
    destruct (IH b Ha Hb Hd1 Hd2 Heq) as (-> & -> & ->). done.
Qed.

Lemma stringify_point_app p r :
  stringify_point p +:+ r
  = String "[" (pretty p.1 +:+ String "," (pretty p.2 +:+ String "]" r)).
Proof. unfold stringify_point. by string_norm. Qed.

Lemma stringify_point_split p q r1 r2 :
  stringify_point p +:+ r1 = stringify_point q +:+ r2 → p = q ∧ r1 = r2.
Proof.
  rewrite !stringify_point_app. intros [= H].
  apply plain_split in H as (H1 & _ & H);
    [|apply pretty_Z_plain|apply pretty_Z_plain|by left|by left].
  apply plain_split in H as (H2 & _ & H);
    [|apply pretty_Z_plain|apply pretty_Z_plain|by right|by right].
  apply (inj pretty) in H1, H2. destruct p, q; simpl in *; by subst.
Qed.

Lemma join_comma_cons x xs r :
  join_comma (x :: xs) +:+ r
  = x +:+ match xs with [] => r | _ => String "," (join_comma xs +:+ r) end.
Proof.
  destruct xs as [|y ys]; [done|].
  change (join_comma (x :: y :: ys)) with (x +:+ "," +:+ join_comma (y :: ys)).
  by string_norm.
Qed.

Lemma join_points_inj l1 l2 :
  join_comma (map stringify_point l1) +:+ "]"
  = join_comma (map stringify_point l2) +:+ "]" → l1 = l2.
Proof.
  revert l2. induction l1 as [|p l1 IH]; intros [|q l2]; [done|..].
  - rewrite fmap_cons, join_comma_cons, stringify_point_app. by string_norm.
  - rewrite fmap_cons, join_comma_cons, stringify_point_app. by string_norm.
  - rewrite !fmap_cons, !join_comma_cons.
    intros [-> H]%stringify_point_split. f_equal.
    destruct l1 as [|p1 l1], l2 as [|q1 l2]; simpl in H; try done.
    apply IH. by injection H.
Qed.

Lemma JSON_stringify_inj l1 l2 : JSON_stringify l1 = JSON_stringify l2 → l1 = l2.
Proof.
  unfold JSON_stringify. string_norm. intros [= H]. by apply join_points_inj.
Qed.


(** *** Sorting points *)

Lemma point_le_iff a b : point_le a b ↔ a.1 < b.1 ∨ (a.1 = b.1 ∧ a.2 ≤ b.2).
Proof. unfold point_le, comparePoints. case_decide; lia. Qed.

Global Instance point_le_trans : Transitive point_le.
Proof. intros a b c. rewrite !point_le_iff. lia. Qed.

Global Instance point_le_total : Total point_le.
Proof. intros a b. rewrite !point_le_iff. lia. Qed.

Global Instance point_le_antisym : AntiSymm (=) point_le.
Proof.
  intros [a1 a2] [b1 b2]. rewrite !point_le_iff. simpl. intros ??.
  f_equal; lia.
Qed.

Lemma sortPoints_perm l : sortPoints l ≡ₚ l.
Proof. apply merge_sort_Permutation. Qed.

Lemma sortPoints_unique l1 l2 : l1 ≡ₚ l2 → sortPoints l1 = sortPoints l2.
Proof.
  intros H. apply (Sorted_unique point_le); try apply _.
  - apply Sorted_merge_sort, _.
  - apply Sorted_merge_sort, _.
  - by rewrite !sortPoints_perm.
Qed.

Lemma sortPoints_sorted l : Sorted point_le l → sortPoints l = l.
Proof.
  intros H. apply (Sorted_unique point_le); try apply _; [|done|].
  - apply Sorted_merge_sort, _.
  - apply sortPoints_perm.
Qed.

Lemma sortPoints_idemp l : sortPoints (sortPoints l) = sortPoints l.
Proof. apply sortPoints_sorted, Sorted_merge_sort, _. Qed.

(** *** [Math.min] *)

Lemma foldl_min_spec (xs : list Z) (x : Z) :
  (foldl Z.min x xs = x ∨ foldl Z.min x xs ∈ xs) ∧
  foldl Z.min x xs ≤ x ∧ ∀ y, y ∈ xs → foldl Z.min x xs ≤ y.
Proof.
  revert x. induction xs as [|a xs IH]; intros x; simpl.
  - split; [by left|]. split; [lia|]. intros y Hy. by apply elem_of_nil in Hy.
  - destruct (IH (Z.min x a)) as (Hin & Hle & Hall). split_and!.
    + destruct Hin as [Hin|Hin]; [|right; by right].
      rewrite Hin. destruct (Z.min_spec x a) as [[_ ->]|[_ ->]]; [by left|right; left].
    + lia.
    + intros y [->|Hy]%elem_of_cons; [lia|by apply Hall].
Qed.

Lemma Math_min_in l : l ≠ [] → Math_min l ∈ l.
Proof.
  destruct l as [|x xs]; [done|]. intros _. simpl.
  destruct (foldl_min_spec xs x) as ([->|?] & _); [left|by right].
Qed.

Lemma Math_min_le l y : y ∈ l → Math_min l ≤ y.
Proof.
  destruct l as [|x xs]; [by intros ?%elem_of_nil|]. simpl.
  destruct (foldl_min_spec xs x) as (_ & ? & Hall).
  intros [->|?]%elem_of_cons; [done|by apply Hall].
Qed.

Lemma Math_min_unique l m : m ∈ l → (∀ y, y ∈ l → m ≤ y) → Math_min l = m.
Proof.
  intros Hin Hall. assert (l ≠ []) as Hne by (by destruct l; [apply elem_of_nil in Hin|]).
  pose proof (Math_min_in l Hne). pose proof (Math_min_le l m Hin).
  specialize (Hall _ H). lia.
Qed.

Lemma Math_min_perm l l' : l ≡ₚ l' → Math_min l = Math_min l'.
Proof.
  intros Hp. destruct l as [|x xs].
  { apply Permutation_nil_l in Hp. by subst. }
  apply Math_min_unique.
  - rewrite Hp. apply Math_min_in. intros ->. by apply Permutation_nil_r in Hp.
  - intros y Hy. apply Math_min_le. by rewrite <- Hp.
Qed.

Lemma Math_min_add l d : l ≠ [] → Math_min (map (λ x, x + d) l) = Math_min l + d.
Proof.
  intros Hne. apply Math_min_unique.
  - apply list_elem_of_fmap. exists (Math_min l). split; [done|]. by apply Math_min_in.
  - intros y (x & -> & Hx)%list_elem_of_fmap. pose proof (Math_min_le l x Hx). lia.
Qed.

(** *** Normal form of a transformed star set *)

Definition translate (d p : Point) : Point := (p.1 + d.1, p.2 + d.2).

Definition minCorner (L : list Point) : Point :=
  (Math_min (map fst L), Math_min (map snd L)).

Definition normalize (L : list Point) : list Point :=
  map (shiftBy (minCorner L).1 (minCorner L).2) L.

Definition starImage (tf : Transform) (P : list Point) : list Point :=
  sortPoints (normalize (map (applyTransform tf) P)).

Definition cellImage (tf : Transform) (P C : list Point) : list Point :=
  let m := minCorner (map (applyTransform tf) P) in
  sortPoints (map (shiftBy m.1 m.2) (map (applyTransform tf) C)).

Lemma candidate_eq P C t tf :
  candidate P C t tf
  = (mkCanonicalPattern (starImage tf P) (cellImage tf P C) t
       (minCorner (map (applyTransform tf) P)),
     JSON_stringify (starImage tf P)).
Proof. reflexivity. Qed.

Lemma minCorner_perm L L' : L ≡ₚ L' → minCorner L = minCorner L'.
Proof.
  intros Hp. unfold minCorner. f_equal; apply Math_min_perm; by rewrite Hp.
Qed.

Lemma minCorner_translate d L :
  L ≠ [] → minCorner (map (translate d) L) = translate d (minCorner L).
Proof.
  intros Hne. unfold minCorner, translate. simpl.
  rewrite <- !list_fmap_compose.
  f_equal.
  - rewrite <- (Math_min_add (map fst L) d.1) by (by destruct L).
    rewrite <- list_fmap_compose. done.
  - rewrite <- (Math_min_add (map snd L) d.2) by (by destruct L).
    rewrite <- list_fmap_compose. done.
Qed.

Lemma normalize_perm L L' : L ≡ₚ L' → normalize L ≡ₚ normalize L'.
Proof.
  intros Hp. unfold normalize. rewrite (minCorner_perm L L' Hp). by rewrite Hp.
Qed.

Lemma shiftBy_translate d m p :
  shiftBy (translate d m).1 (translate d m).2 (translate d p) = shiftBy m.1 m.2 p.
Proof. unfold shiftBy, translate. simpl. f_equal; lia. Qed.

Lemma normalize_translate d L : L ≠ [] → normalize (map (translate d) L) = normalize L.
Proof.
  intros Hne. unfold normalize. rewrite minCorner_translate by done.
  rewrite <- list_fmap_compose. apply list_fmap_ext.
  intros i p _. apply (shiftBy_translate d (minCorner L) p).
Qed.


(** *** The eight transforms form a group of linear maps *)

Definition d4_image (g : Transform) (d : Point) (p : Point) : Point :=
  translate d (applyTransform g p).

Ltac break_transform H :=
  unfold transforms in H;
  rewrite !elem_of_cons, elem_of_nil in H;
  destruct_or! H; try done; subst.

Ltac use_transform t :=
  exists t; split;
  [ unfold transforms; repeat constructor
  | intros [? ?]; unfold applyTransform; simpl; f_equal; lia ].

Ltac find_transform :=
  first [ use_transform (λ r c : Z, (r, c))
        | use_transform (λ r c : Z, (- r, c))
        | use_transform (λ r c : Z, (r, - c))
        | use_transform (λ r c : Z, (- r, - c))
        | use_transform (λ r c : Z, (c, r))
        | use_transform (λ r c : Z, (- c, r))
        | use_transform (λ r c : Z, (c, - r))
        | use_transform (λ r c : Z, (- c, - r)) ].

Lemma transforms_linear tf d p :
  tf ∈ transforms →
  applyTransform tf (translate d p) = translate (applyTransform tf d) (applyTransform tf p).
Proof.
  intros H. destruct d, p. break_transform H;
    unfold applyTransform, translate; simpl; f_equal; lia.
Qed.

Lemma transforms_compose g t :
  g ∈ transforms → t ∈ transforms →
  ∃ t', t' ∈ transforms ∧
        ∀ p, applyTransform t (applyTransform g p) = applyTransform t' p.
Proof. intros Hg Ht. break_transform Hg; break_transform Ht; find_transform. Qed.

Lemma transforms_factor g t' :
  g ∈ transforms → t' ∈ transforms →
  ∃ t, t ∈ transforms ∧
       ∀ p, applyTransform t (applyTransform g p) = applyTransform t' p.
Proof. intros Hg Ht. break_transform Hg; break_transform Ht; find_transform. Qed.

Lemma transformed_image P Q g d tf tf' :
  tf ∈ transforms →
  (∀ p, applyTransform tf (applyTransform g p) = applyTransform tf' p) →
  Q ≡ₚ map (d4_image g d) P →
  map (applyTransform tf) Q
  ≡ₚ map (translate (applyTransform tf d)) (map (applyTransform tf') P).
Proof.
  intros Htf Hc ->. rewrite <- !list_fmap_compose.
  erewrite list_fmap_ext; [reflexivity|]. intros i p _. simpl.
  unfold d4_image. rewrite transforms_linear by done. by rewrite Hc.
Qed.

Lemma starImage_d4 P Q g d tf tf' :
  P ≠ [] → tf ∈ transforms →
  (∀ p, applyTransform tf (applyTransform g p) = applyTransform tf' p) →
  Q ≡ₚ map (d4_image g d) P →
  starImage tf Q = starImage tf' P.
Proof.
  intros Hne Htf Hc HQ. unfold starImage.
  rewrite <- (normalize_translate (applyTransform tf d) (map (applyTransform tf') P))
    by (by destruct P).
  apply sortPoints_unique, normalize_perm. by eapply transformed_image.
Qed.

Lemma cellImage_d4 P Q C CQ g d tf tf' :
  P ≠ [] → tf ∈ transforms →
  (∀ p, applyTransform tf (applyTransform g p) = applyTransform tf' p) →
  Q ≡ₚ map (d4_image g d) P → CQ ≡ₚ map (d4_image g d) C →
  cellImage tf Q CQ = cellImage tf' P C.
Proof.
  intros Hne Htf Hc HQ HC. unfold cellImage. cbv zeta.
  rewrite (minCorner_perm _ _ (transformed_image P Q g d tf tf' Htf Hc HQ)).
  rewrite minCorner_translate by (by destruct P).
  apply sortPoints_unique.
  rewrite (transformed_image C CQ g d tf tf' Htf Hc HC).
  rewrite <- (list_fmap_compose (translate _)).
  erewrite list_fmap_ext; [reflexivity|]. intros i p _.
  apply (shiftBy_translate _ (minCorner (map (applyTransform tf') P))).
Qed.

(** *** What [canonicalize] returns *)

Lemma candidates_elem P C x :
  x ∈ candidates P C ↔ ∃ t tf, transforms !! t = Some tf ∧ x = candidate P C t tf.
Proof.
  unfold candidates. rewrite elem_of_lookup_imap. split.
  - intros (t & tf & Hx & Ht). by exists t, tf.
  - intros (t & tf & Ht & Hx). by exists t, tf.
Qed.

Lemma canonicalize_spec P C :
  P ≠ [] →
  ∃ r tf, canonicalize P C = Ok r ∧
    transforms !! transformIndex r = Some tf ∧
    canonicalStars r = starImage tf P ∧
    canonicalCells r = cellImage tf P C ∧
    translation r = minCorner (map (applyTransform tf) P) ∧
    ∀ tf', tf' ∈ transforms →
      String.ltb (JSON_stringify (starImage tf' P))
                 (JSON_stringify (canonicalStars r)) = false.
Proof.
  intros Hne. unfold canonicalize.
  destruct (decide (length P = 0%nat)) as [Hl|_].
  { destruct P; [done|discriminate]. }
  destruct (candidates P C) as [|c l] eqn:Hc.
  { unfold candidates, transforms in Hc. discriminate. }
  destruct (keepSmallest_min c l) as ([r k] & -> & Hin & Hmin).
  rewrite <- Hc in Hin, Hmin.
  apply candidates_elem in Hin as (t & tf & Ht & Heq).
  rewrite candidate_eq in Heq. injection Heq as -> ->.
  exists (mkCanonicalPattern (starImage tf P) (cellImage tf P C) t
            (minCorner (map (applyTransform tf) P))), tf.
  split_and!; try done.
  intros tf' (t' & Ht')%list_elem_of_lookup.
  apply (Hmin (candidate P C t' tf')). apply candidates_elem. eauto.
Qed.

Lemma canonicalStars_determined P Q C CQ r rq :
  canonicalize P C = Ok r → canonicalize Q CQ = Ok rq → P ≠ [] → Q ≠ [] →
  (∀ tf, tf ∈ transforms → ∃ tf', tf' ∈ transforms ∧ starImage tf Q = starImage tf' P) →
  (∀ tf', tf' ∈ transforms → ∃ tf, tf ∈ transforms ∧ starImage tf Q = starImage tf' P) →
  canonicalStars rq = canonicalStars r.
Proof.
  intros Hr Hrq HP HQ H1 H2.
  destruct (canonicalize_spec P C HP) as (r' & tf & Hr' & Ht & Hs & _ & _ & Hmin).
  destruct (canonicalize_spec Q CQ HQ) as (rq' & tfq & Hrq' & Htq & Hsq & _ & _ & Hminq).
  rewrite Hr in Hr'. rewrite Hrq in Hrq'. simplify_eq.
  apply JSON_stringify_inj, ltb_antisym_eq.
  - rewrite Hsq. destruct (H1 tfq) as (tf0 & Htf0 & ->); [by eapply list_elem_of_lookup_2|].
    by apply Hmin.
  - rewrite Hs. destruct (H2 tf) as (tf0 & Htf0 & <-); [by eapply list_elem_of_lookup_2|].
    by apply Hminq.
Qed.

Lemma canonicalize_perm_invariant P Q C CQ g d :
  P ≠ [] → g ∈ transforms → Q ≡ₚ map (d4_image g d) P →
  ∃ r rq, canonicalize P C = Ok r ∧ canonicalize Q CQ = Ok rq ∧
          canonicalStars rq = canonicalStars r.
Proof.
  intros HP Hg HQ.
  assert (Q ≠ []) as HQne.
  { intros ->. symmetry in HQ. apply Permutation_nil_r in HQ. by destruct P. }
  destruct (canonicalize_spec P C HP) as (r & _ & Hr & _).
  destruct (canonicalize_spec Q CQ HQne) as (rq & _ & Hrq & _).
  exists r, rq. split_and!; [done..|].
  eapply canonicalStars_determined; [done..| |].
  - intros tf Htf. destruct (transforms_compose g tf Hg Htf) as (tf' & Htf' & Hc).
    exists tf'. split; [done|]. by eapply starImage_d4.
  - intros tf' Htf'. destruct (transforms_factor g tf' Hg Htf') as (tf & Htf & Hc).
    exists tf. split; [done|]. by eapply starImage_d4.
Qed.

Lemma starImage_is_image tf P :
  starImage tf P
  ≡ₚ map (d4_image tf (- (minCorner (map (applyTransform tf) P)).1,
                       - (minCorner (map (applyTransform tf) P)).2)) P.
Proof.
  unfold starImage. rewrite sortPoints_perm. unfold normalize.
  rewrite <- list_fmap_compose. erewrite list_fmap_ext; [reflexivity|].
  intros i p _. unfold d4_image, translate, shiftBy. simpl. f_equal; lia.
Qed.

End GeometryFacts.

Module CanonicalForm.
Import Geometry GeometryFacts.

(** *** The two-star [canonicalizeStars] agrees with the generic [canonicalize] *)

Lemma sortPoints_pair p1 p2 :
  sortPoints [p1; p2]
  = if decide (p1.1 < p2.1 ∨ (p1.1 = p2.1 ∧ p1.2 < p2.2)) then [p1; p2] else [p2; p1].
Proof.
  apply (Sorted_unique point_le); try apply _.
  - apply Sorted_merge_sort, _.
  - case_decide as H.
    + repeat constructor. apply point_le_iff. lia.
    + repeat constructor. apply point_le_iff. lia.
  - rewrite sortPoints_perm. case_decide; [done|apply Permutation_swap].
Qed.

Definition toCanonicalizationResult (r : CanonicalPattern) : CanonicalizationResult :=
  mkCanonicalizationResult (canonicalStars r) (transformIndex r) (translation r).

Lemma pairCandidate_candidate star1 star2 i tf :
  pairCandidate star1 star2 i tf
  = (toCanonicalizationResult (candidate [star1; star2] [] i tf).1,
     (candidate [star1; star2] [] i tf).2).
Proof.
  unfold pairCandidate, candidate, toCanonicalizationResult. simpl.
  rewrite sortPoints_pair. done.
Qed.

Lemma keepSmallest_fmap {A B} (f : A → B) (l : list (A * string)) (o : option (A * string)) :
  foldl keepSmallest (prod_map f id <$> o) (map (prod_map f id) l)
  = prod_map f id <$> foldl keepSmallest o l.
Proof.
  revert o. induction l as [|c l IH]; intros o; simpl; [done|].
  rewrite <- IH. f_equal. destruct o as [[a k]|]; simpl; [|done].
  destruct c as [c kc]. simpl. by destruct (String.ltb kc k).
Qed.

Lemma canonicalizeStars_canonicalize star1 star2 :
  canonicalizeStars [star1; star2]
  = rbind (canonicalize [star1; star2] []) (λ r, Ok (toCanonicalizationResult r)).
Proof.
  unfold canonicalizeStars, canonicalize, candidates.
  destruct (decide _) as [?|_]; [done|].
  assert (imap (pairCandidate star1 star2) transforms
          = map (prod_map toCanonicalizationResult id)
                (imap (candidate [star1; star2] []) transforms)) as ->.
  { rewrite fmap_imap. apply imap_ext. intros i tf _.
    rewrite pairCandidate_candidate. unfold compose.
    by destruct (candidate _ _ _ _). }
  rewrite (keepSmallest_fmap toCanonicalizationResult _ None).
  destruct (foldl keepSmallest None _) as [[r k]|]; done.
Qed.

(** C2 — symmetry invariance and idempotence of the canonical stars.
    For every non-empty list of stars [P], canonicalising the image of [P]
    under any of the eight transforms followed by any translation gives the
    same [canonicalStars] as canonicalising [P], and canonicalising the
    [canonicalStars] that were produced gives them back.  The auxiliary
    cells passed along do not matter. *)
Theorem canonicalize_symmetry_invariant
    (P C CQ C' : list Point) (g : Transform) (d : Point) :
  P ≠ [] → g ∈ transforms →
  ∃ r, canonicalize P C = Ok r ∧
    (∃ rq, canonicalize (map (d4_image g d) P) CQ = Ok rq ∧
           canonicalStars rq = canonicalStars r) ∧
    (∃ r2, canonicalize (canonicalStars r) C' = Ok r2 ∧
           canonicalStars r2 = canonicalStars r).
Proof.
  intros HP Hg.
  destruct (canonicalize_perm_invariant P (map (d4_image g d) P) C CQ g d HP Hg)
    as (r & rq & Hr & Hrq & Heq); [done|].
  exists r. split_and!; [done|by exists rq|].
  destruct (canonicalize_spec P C HP) as (r' & tf & Hr' & Ht & Hs & _).
  rewrite Hr in Hr'. injection Hr' as <-.
  destruct (canonicalize_perm_invariant P (canonicalStars r) C C' tf
              (- (minCorner (map (applyTransform tf) P)).1,
               - (minCorner (map (applyTransform tf) P)).2) HP)
    as (r0 & r2 & Hr0 & Hr2 & Heq2).
  - by eapply list_elem_of_lookup_2.
  - rewrite Hs. apply starImage_is_image.
  - rewrite Hr in Hr0. injection Hr0 as <-. by exists r2.
Qed.

Lemma canonicalize_symmetry_invariant_witness :
  ∃ r, canonicalize [(1, 2); (3, 7); (4, 4)] [(0, 0)] = Ok r ∧
    (∃ rq, canonicalize
             (map (d4_image (λ r c, (- c, r)) (5, -3)) [(1, 2); (3, 7); (4, 4)])
             [] = Ok rq ∧
           canonicalStars rq = canonicalStars r) ∧
    (∃ r2, canonicalize (canonicalStars r) [(9, 9)] = Ok r2 ∧
           canonicalStars r2 = canonicalStars r).
Proof.
  apply (canonicalize_symmetry_invariant
           [(1, 2); (3, 7); (4, 4)] [(0, 0)] [] [(9, 9)] (λ r c, (- c, r)) (5, -3)).
  - done.
  - unfold transforms. repeat constructor.
Defined.

(** C3 — the canonical auxiliary cells are not symmetry invariant as stated.
    The stars [(0,0),(2,2)] are their own mirror image in the main
    diagonal; the diagonal reflection maps the auxiliary cell (0,1) to
    (1,0).  Both inputs have the same canonical stars, the identity wins
    the tie in both, and the canonical cells differ. *)
Lemma canonicalize_aux_not_invariant :
  let g : Transform := λ r c, (c, r) in
  g ∈ transforms ∧
  map (d4_image g (0, 0)) [(0, 0); (2, 2)] = [(0, 0); (2, 2)] ∧
  map (d4_image g (0, 0)) [(0, 1)] = [(1, 0)] ∧
  canonicalize [(0, 0); (2, 2)] [(0, 1)]
    = Ok (mkCanonicalPattern [(0, 0); (2, 2)] [(0, 1)] 0 (0, 0)) ∧
  canonicalize [(0, 0); (2, 2)] [(1, 0)]
    = Ok (mkCanonicalPattern [(0, 0); (2, 2)] [(1, 0)] 0 (0, 0)) ∧
  [(0, 1)] ≠ [(1, 0)].
Proof.
  split_and!; [unfold transforms; repeat constructor|done..].
Qed.

(** C3 (amended) — when the transforms that reach the canonical stars of
    the first input all give the same sorted auxiliary image, one transform
    plus translation applied to stars and auxiliary cells alike leaves both
    [canonicalStars] and [canonicalCells] unchanged. *)
Theorem canonicalize_aux_invariant_when_ties_agree
    (P C : list Point) (g : Transform) (d : Point) (r : CanonicalPattern) :
  g ∈ transforms →
  canonicalize P C = Ok r →
  (∀ tf tf', tf ∈ transforms → tf' ∈ transforms →
     starImage tf P = canonicalStars r → starImage tf' P = canonicalStars r →
     cellImage tf P C = cellImage tf' P C) →
  ∃ rq, canonicalize (map (d4_image g d) P) (map (d4_image g d) C) = Ok rq ∧
        canonicalStars rq = canonicalStars r ∧
        canonicalCells rq = canonicalCells r.
Proof.
  intros Hg Hr Hties.
  assert (P ≠ []) as HP.
  { intros ->. unfold canonicalize in Hr. simpl in Hr. done. }
  destruct (canonicalize_perm_invariant P (map (d4_image g d) P) C
              (map (d4_image g d) C) g d HP Hg) as (r' & rq & Hr' & Hrq & Heq); [done|].
  rewrite Hr in Hr'. injection Hr' as <-.
  exists rq. split_and!; [done..|].
  assert (map (d4_image g d) P ≠ []) as HQ by (by destruct P).
  destruct (canonicalize_spec _ (map (d4_image g d) C) HQ)
    as (rq' & tfq & Hrq' & Htq & Hsq & Hcq & _).
  rewrite Hrq in Hrq'. injection Hrq' as <-.
  destruct (canonicalize_spec P C HP) as (r' & tf & Hr' & Ht & Hs & Hc & _).
  rewrite Hr in Hr'. injection Hr' as <-.
  assert (tfq ∈ transforms) as Htq' by (by eapply list_elem_of_lookup_2).
  destruct (transforms_compose g tfq Hg Htq') as (tf' & Htf' & Hcomp).
  rewrite Hcq, Hc.
  rewrite (cellImage_d4 P _ C _ g d tfq tf' HP Htq' Hcomp) by done.
  apply Hties; [done|by eapply list_elem_of_lookup_2| |by symmetry].
  rewrite <- Heq, Hsq. symmetry. by eapply starImage_d4.
Qed.

Lemma canonicalize_aux_invariant_when_ties_agree_witness :
  ∃ rq, canonicalize (map (d4_image (λ r c, (- c, r)) (5, -3)) [(0, 0); (0, 2); (2, 3)])
                     (map (d4_image (λ r c, (- c, r)) (5, -3)) [(1, 1); (4, 0)]) = Ok rq ∧
        canonicalStars rq = [(0, 0); (0, 2); (2, 3)] ∧
        canonicalCells rq = [(1, 1); (4, 0)].
Proof.
  apply (canonicalize_aux_invariant_when_ties_agree
           [(0, 0); (0, 2); (2, 3)] [(1, 1); (4, 0)] (λ r c, (- c, r)) (5, -3)
           (mkCanonicalPattern [(0, 0); (0, 2); (2, 3)] [(1, 1); (4, 0)] 0 (0, 0))).
  - unfold transforms. repeat constructor.
  - vm_compute. reflexivity.
  - intros tf tf' H1 H2.
    break_transform H1; break_transform H2; vm_compute; congruence.
Defined.

(** C8 — canonical auxiliary cells can be negative.  A cell above and to
    the left of the only star keeps its negative offset. *)
Lemma canonical_cells_can_be_negative :
  canonicalize [(1, 1)] [(0, 0)]
    = Ok (mkCanonicalPattern [(0, 0)] [(-1, -1)] 0 (1, 1)) ∧
  canonicalizeEmpties [(0, 0)] 0 (1, 1) = [(-1, -1)] ∧
  ¬ (∀ q : Point, q ∈ [((-1), (-1))] → 0 ≤ q.1 ∧ 0 ≤ q.2).
Proof.
  split_and!; [done..|]. intros H. destruct (H (-1, -1)); [left|]. simpl in *. lia.
Qed.

(** C8 (amended) — every coordinate of every canonical star is
    non-negative; the canonical auxiliary cells are non-negative exactly
    when each auxiliary cell, after the winning transform, lies at or
    beyond the translation (the minimum corner of the transformed stars). *)
Theorem canonical_stars_nonnegative (P C : list Point) (r : CanonicalPattern) :
  canonicalize P C = Ok r →
  (∀ p, p ∈ canonicalStars r → 0 ≤ p.1 ∧ 0 ≤ p.2) ∧
  ((∀ q, q ∈ canonicalCells r → 0 ≤ q.1 ∧ 0 ≤ q.2) ↔
   (∀ c, c ∈ C →
      (translation r).1 ≤ (applyTransform (transformAt (transformIndex r)) c).1 ∧
      (translation r).2 ≤ (applyTransform (transformAt (transformIndex r)) c).2)).
Proof.
  intros Hr.
  assert (P ≠ []) as HP.
  { intros ->. unfold canonicalize in Hr. simpl in Hr. done. }
  destruct (canonicalize_spec P C HP) as (r' & tf & Hr' & Ht & Hs & Hc & Htr & _).
  rewrite Hr in Hr'. injection Hr' as <-.
  unfold transformAt. rewrite Ht. simpl. rewrite Hs, Hc, Htr. split.
  - intros p. unfold starImage. rewrite sortPoints_perm. unfold normalize.
    intros (q & -> & Hq)%list_elem_of_fmap. unfold shiftBy, minCorner. simpl.
    pose proof (Math_min_le (map fst (map (applyTransform tf) P)) q.1) as H1.
    pose proof (Math_min_le (map snd (map (applyTransform tf) P)) q.2) as H2.
    split.
    + cut (Math_min (map fst (map (applyTransform tf) P)) ≤ q.1); [lia|].
      apply H1, list_elem_of_fmap. eauto.
    + cut (Math_min (map snd (map (applyTransform tf) P)) ≤ q.2); [lia|].
      apply H2, list_elem_of_fmap. eauto.
  - unfold cellImage. cbv zeta. split.
    + intros H c Hc'.
      destruct (H (shiftBy (minCorner (map (applyTransform tf) P)).1
                           (minCorner (map (applyTransform tf) P)).2
                           (applyTransform tf c))) as [H1 H2].
      { rewrite sortPoints_perm. apply list_elem_of_fmap. eexists. split; [done|].
        apply list_elem_of_fmap. eauto. }
      unfold shiftBy, minCorner in *. simpl in *. lia.
    + intros H q. rewrite sortPoints_perm.
      intros (q' & -> & (c & -> & Hc')%list_elem_of_fmap)%list_elem_of_fmap.
      destruct (H c Hc'). unfold shiftBy, minCorner in *. simpl in *. lia.
Qed.

Lemma canonical_stars_nonnegative_witness :
  (∀ p, p ∈ [(0, 0); (1, 2)] → 0 ≤ p.1 ∧ 0 ≤ p.2) ∧
  ((∀ q, q ∈ [(3, 3)] → 0 ≤ q.1 ∧ 0 ≤ q.2) ↔
   (∀ c : Point, c ∈ [(4:Z, 5:Z)] →
      (1, 2).1 ≤ (applyTransform (transformAt 0) c).1 ∧
      (1, 2).2 ≤ (applyTransform (transformAt 0) c).2)).
Proof.
  apply (canonical_stars_nonnegative [(1, 2); (2, 4)] [(4, 5)]
           (mkCanonicalPattern [(0, 0); (1, 2)] [(3, 3)] 0 (1, 2))).
  vm_compute. reflexivity.
Defined.

End CanonicalForm.

Module EnumerationFacts.
Import Enumeration Configuration.

(** *** Sums *)

Lemma sumTo_ext f h n : (∀ i, (i < n)%nat → f i = h i) → sumTo f n = sumTo h n.
Proof.
  induction n as [|n IH]; intros H; simpl; [done|].
  rewrite IH, H by (intros; try apply H; lia). done.
Qed.

Lemma sumTo_le f h n : (∀ i, (i < n)%nat → f i ≤ h i) → sumTo f n ≤ sumTo h n.
Proof.
  induction n as [|n IH]; intros H; simpl; [done|].
  specialize (IH (λ i Hi, H i (Nat.lt_lt_succ_r _ _ Hi))).
  specialize (H n (Nat.lt_succ_diag_r n)). lia.
Qed.

Lemma sumTo_bound f h k n :
  (k ≤ n)%nat →
  (∀ i, (i < k)%nat → f i = h i) →
  (∀ i, (k ≤ i < n)%nat → h i = 0 ∧ 0 ≤ f i ≤ 1) →
  sumTo h n ≤ sumTo f n ≤ sumTo h n + (Z.of_nat n - Z.of_nat k).
Proof.
  induction n as [|n IH]; intros Hk Hlt Hge; simpl.
  - assert (k = 0)%nat as -> by lia. simpl. lia.
  - destruct (decide (k = S n)) as [->|Hne].
    + rewrite (sumTo_ext f h n) by (intros; apply Hlt; lia).
      rewrite Hlt by lia. lia.
    + destruct (Hge n) as [Hh Hf]; [lia|].
      assert (sumTo h n ≤ sumTo f n ≤ sumTo h n + (Z.of_nat n - Z.of_nat k)).
      { apply IH; [lia|done|]. intros i Hi. apply Hge. lia. }
      lia.
Qed.

Lemma sumTo_strict f h k n :
  (k < n)%nat → (∀ i, (i < n)%nat → h i ≤ f i) → h k + 1 ≤ f k →
  sumTo h n + 1 ≤ sumTo f n.
Proof.
  induction n as [|n IH]; intros Hk Hle Hlt; simpl; [lia|].
  destruct (decide (k = n)) as [->|Hne].
  - assert (sumTo h n ≤ sumTo f n) by (apply sumTo_le; intros; apply Hle; lia). lia.
  - assert (sumTo h n + 1 ≤ sumTo f n) by (apply IH; [lia| |done]; intros; apply Hle; lia).
    specialize (Hle n). lia.
Qed.

(** *** Reading and writing cells *)

Lemma row_length N (g : Grid) r rw : wellFormed N g → g !! r = Some rw → length rw = N.
Proof.
  intros [_ Hrows] Hrw. rewrite Forall_forall in Hrows.
  apply Hrows. by eapply list_elem_of_lookup_2.
Qed.

Lemma gridAt_wellFormed N g r c :
  wellFormed N g → (r < N)%nat → (c < N)%nat → ∃ v, gridAt g r c = Some v.
Proof.
  intros Hwf Hr Hc. unfold gridAt.
  destruct (lookup_lt_is_Some_2 g r) as [rw Hrw]; [destruct Hwf; lia|]. rewrite Hrw. simpl.
  pose proof (row_length N g r rw Hwf Hrw).
  apply lookup_lt_is_Some_2. lia.
Qed.

Lemma wellFormed_setCell N g r c v : wellFormed N g → wellFormed N (setCell g r c v).
Proof.
  intros Hwf. unfold setCell. split; [rewrite length_alter; apply Hwf|].
  rewrite Forall_forall. intros rw' Hin.
  apply list_elem_of_lookup in Hin as [i Hi].
  destruct (decide (i = r)) as [->|Hne].
  - rewrite list_lookup_alter_eq in Hi.
    destruct (g !! r) as [rw|] eqn:E; simplify_eq/=.
    rewrite length_insert. by eapply row_length.
  - rewrite list_lookup_alter_ne in Hi by done. by eapply row_length.
Qed.

Lemma cellValue_setCell N g r c v r' c' :
  wellFormed N g → (r < N)%nat → (c < N)%nat →
  cellValue (setCell g r c v) r' c'
  = if decide (r' = r ∧ c' = c) then v else cellValue g r' c'.
Proof.
  intros Hwf Hr Hc. unfold cellValue, gridAt, setCell.
  destruct (lookup_lt_is_Some_2 g r) as [rw Hrw]; [destruct Hwf; lia|].
  pose proof (row_length N g r rw Hwf Hrw) as Hl.
  destruct (decide (r' = r)) as [->|Hne].
  - rewrite list_lookup_alter_eq, Hrw. simpl.
    destruct (decide (c' = c)) as [->|Hnc].
    + rewrite list_lookup_insert_eq by lia. by rewrite decide_True.
    + rewrite list_lookup_insert_ne by done. by rewrite decide_False by tauto.
  - rewrite list_lookup_alter_ne by done. by rewrite decide_False by tauto.
Qed.

Lemma setCell_restore N g r c :
  wellFormed N g → (r < N)%nat → (c < N)%nat → cellValue g r c = 0 →
  setCell (setCell g r c 1) r c 0 = g.
Proof.
  intros Hwf Hr Hc H0.
  destruct (gridAt_wellFormed N g r c Hwf Hr Hc) as [v Hv].
  unfold cellValue in H0. rewrite Hv in H0. simpl in H0. subst v.
  unfold gridAt in Hv. destruct (g !! r) as [rw|] eqn:Hrw; [|done]. simpl in Hv.
  unfold setCell. apply list_eq. intros i.
  destruct (decide (i = r)) as [->|Hne].
  - rewrite !list_lookup_alter_eq, Hrw. simpl. f_equal.
    rewrite list_insert_insert_eq. by apply list_insert_id.
  - by rewrite !list_lookup_alter_ne.
Qed.

Lemma grid_ext N g g' :
  wellFormed N g → wellFormed N g' →
  (∀ r c, (r < N)%nat → (c < N)%nat → cellValue g r c = cellValue g' r c) → g = g'.
Proof.
  intros Hwf Hwf' Heq. apply list_eq_same_length with N; [apply Hwf'|apply Hwf|].
  intros r rw rw' Hr Hrw Hrw'.
  pose proof (row_length N g r rw Hwf Hrw).
  pose proof (row_length N g' r rw' Hwf' Hrw').
  apply list_eq_same_length with N; [done..|].
  intros c v v' Hc Hv Hv'. specialize (Heq r c Hr Hc).
  unfold cellValue, gridAt in Heq. rewrite Hrw, Hrw' in Heq. simpl in Heq.
  rewrite Hv, Hv' in Heq. done.
Qed.

(** *** The counting loops compute the row and column totals *)

Lemma foldl_add_sumTo (l : list Z) (a : Z) :
  foldl Z.add a l = a + sumTo (λ c, default 0 (l !! c)) (length l).
Proof.
  revert a. induction l as [|x l IH] using rev_ind; intros a; simpl; [lia|].
  rewrite foldl_app, length_app, Nat.add_comm. simpl. rewrite IH.
  rewrite (sumTo_ext (λ c, default 0 ((l ++ [x]) !! c)) (λ c, default 0 (l !! c)) (length l)).
  - rewrite lookup_app_r by lia. rewrite Nat.sub_diag. simpl. lia.
  - intros i Hi. by rewrite lookup_app_l.
Qed.

Lemma countStarsInRow_total N g r :
  wellFormed N g → (r < N)%nat → countStarsInRow g r = rowTotal N g r.
Proof.
  intros Hwf Hr. unfold countStarsInRow, rowTotal.
  destruct (lookup_lt_is_Some_2 g r) as [rw Hrw]; [destruct Hwf; lia|]. rewrite Hrw. simpl.
  pose proof (row_length N g r rw Hwf Hrw) as Hl.
  rewrite foldl_add_sumTo, Hl. simpl. apply sumTo_ext. intros c _.
  unfold cellValue, gridAt. by rewrite Hrw.
Qed.

Lemma countStarsInColumn_total N g c : countStarsInColumn N g c = colTotal N g c.
Proof.
  unfold countStarsInColumn, colTotal. induction N as [|N IH]; [done|].
  rewrite seq_S, foldl_app. simpl. rewrite IH. done.
Qed.

Lemma copyGrid_id g : copyGrid g = g.
Proof. unfold copyGrid. apply list_fmap_id. Qed.

Lemma forallb_seq (p : nat → bool) n :
  forallb p (seq 0 n) = true ↔ ∀ i, (i < n)%nat → p i = true.
Proof.
  rewrite forallb_forall. setoid_rewrite in_seq. split.
  - intros H i Hi. apply H. lia.
  - intros H i Hi. apply H. lia.
Qed.


(** *** [isValidPlacement] *)

Lemma gridAtZ_of_nat (g : Grid) r c : gridAtZ g (Z.of_nat r) (Z.of_nat c) = gridAt g r c.
Proof.
  unfold gridAtZ. rewrite decide_True by lia. by rewrite !Nat2Z.id.
Qed.

Lemma cellValue_one (g : Grid) r c : cellValue g r c = 1 ↔ gridAt g r c = Some 1.
Proof.
  unfold cellValue. destruct (gridAt g r c) as [v|]; simpl; split; intros H; simplify_eq; done.
Qed.

Lemma touching_sym r1 c1 r2 c2 : touching r1 c1 r2 c2 → touching r2 c2 r1 c1.
Proof. unfold touching. intros (Hne & ? & ?). split; [congruence|lia]. Qed.

Lemma isValidPlacement_spec N (g : Grid) row col :
  isValidPlacement N g row col = true ↔
  ∀ r c, (r < N)%nat → (c < N)%nat → touching row col r c → cellValue g r c ≠ 1.
Proof.
  unfold isValidPlacement. rewrite forallb_forall. split.
  - intros H r c Hr Hc (Hne & Hdr & Hdc).
    specialize (H (Z.of_nat r - Z.of_nat row)).
    rewrite forallb_forall in H.
    assert (In (Z.of_nat r - Z.of_nat row) offsets) as Hin1.
    { unfold offsets. simpl. lia. }
    assert (In (Z.of_nat c - Z.of_nat col) offsets) as Hin2.
    { unfold offsets. simpl. lia. }
    specialize (H Hin1 _ Hin2). cbv zeta in H.
    rewrite decide_False in H.
    2:{ intros [? ?]. apply Hne. f_equal; lia. }
    rewrite decide_True in H by lia.
    replace (Z.of_nat row + (Z.of_nat r - Z.of_nat row)) with (Z.of_nat r) in H by lia.
    replace (Z.of_nat col + (Z.of_nat c - Z.of_nat col)) with (Z.of_nat c) in H by lia.
    rewrite gridAtZ_of_nat in H. rewrite cellValue_one.
    apply negb_true_iff, bool_decide_eq_false in H. done.
  - intros H dr Hdr. rewrite forallb_forall. intros dc Hdc. cbv zeta.
    destruct (decide (dr = 0 ∧ dc = 0)) as [|Hne]; [done|].
    destruct (decide _) as [Hb|]; [|done].
    apply negb_true_iff, bool_decide_eq_false.
    replace (Z.of_nat row + dr) with (Z.of_nat (Z.to_nat (Z.of_nat row + dr))) by lia.
    replace (Z.of_nat col + dc) with (Z.of_nat (Z.to_nat (Z.of_nat col + dc))) by lia.
    rewrite gridAtZ_of_nat, <- cellValue_one.
    unfold offsets in Hdr, Hdc. simpl in Hdr, Hdc.
    apply H; [lia|lia|]. split; [|lia].
    intros [= E1 E2]. apply Hne. lia.
Qed.

(** *** Partial grids and the configurations that extend them *)

Definition before (r c row col : nat) : Prop :=
  (r < row)%nat ∨ (r = row ∧ (c < col)%nat).

Definition agree (N : nat) (grid : Grid) (row col : nat) (g : Grid) : Prop :=
  ∀ r c, (r < N)%nat → (c < N)%nat → before r c row col →
    cellValue g r c = cellValue grid r c.

Record partialGrid (N : nat) (S : Z) (grid : Grid) (row col : nat) : Prop := {
  p_wf : wellFormed N grid;
  p_bin : binary N grid;
  p_zero : ∀ r c, (r < N)%nat → (c < N)%nat → ¬ before r c row col → cellValue grid r c = 0;
  p_rows : ∀ r, (r < row)%nat → (r < N)%nat → rowTotal N grid r = S;
  p_touch : noTouching N grid
}.

Definition target (N : nat) (S : Z) (grid : Grid) (row col : nat) (g : Grid) : Prop :=
  isConfiguration N S g ∧ agree N grid row col g.

Section Search.
Context (N : nat) (S : Z).
Implicit Types (grid g : Grid) (row col : nat).

Lemma target_above grid row col g r c :
  partialGrid N S grid row col → target N S grid row col g →
  (r < N)%nat → (c < N)%nat → cellValue grid r c ≤ cellValue g r c.
Proof.
  intros Hp [Hconf Hag] Hr Hc.
  destruct (decide (before r c row col)) as [Hb|Hb].
  - rewrite (Hag r c) by done. lia.
  - rewrite (p_zero _ _ _ _ _ Hp r c) by done.
    destruct Hconf as (_ & Hbin & _). destruct (Hbin r c Hr Hc); lia.
Qed.

Lemma target_column grid row col g c :
  partialGrid N S grid row col → target N S grid row col g →
  (c < N)%nat → colTotal N grid c ≤ S.
Proof.
  intros Hp Ht Hc. destruct Ht as [Hconf Hag].
  destruct Hconf as (Hwf & Hbin & Hrow & Hcol & Hnt).
  rewrite <- (Hcol c Hc). apply sumTo_le. intros r Hr.
  apply (target_above grid row col g); [done| |done..].
  split; [|done]. by split_and!.
Qed.

Lemma target_row grid row col g :
  partialGrid N S grid row col → target N S grid row col g →
  (row < N)%nat → (col ≤ N)%nat →
  rowTotal N grid row ≤ S ≤ rowTotal N grid row + (Z.of_nat N - Z.of_nat col).
Proof.
  intros Hp [Hconf Hag] Hrow Hcol.
  destruct Hconf as (Hwf & Hbin & Hrows & _).
  rewrite <- (Hrows row Hrow). unfold rowTotal. apply sumTo_bound; [done| |].
  - intros i Hi. apply Hag; [done|lia|]. right. done.
  - intros i Hi. split.
    + apply (p_zero _ _ _ _ _ Hp); [done|lia|]. unfold before. lia.
    + destruct (Hbin row i); [done|lia|lia|lia].
Qed.

Lemma target_row_with_star grid row col g :
  partialGrid N S grid row col → target N S grid row col g →
  (row < N)%nat → (col < N)%nat → cellValue g row col = 1 →
  rowTotal N grid row + 1 ≤ S.
Proof.
  intros Hp Ht Hrow Hcol Hstar. pose proof Ht as [Hconf Hag].
  destruct Hconf as (Hwf & Hbin & Hrows & _).
  rewrite <- (Hrows row Hrow). unfold rowTotal. apply (sumTo_strict _ _ col); [done| |].
  - intros i Hi. by apply (target_above grid row col g).
  - rewrite Hstar. rewrite (p_zero _ _ _ _ _ Hp row col); [lia|done..|].
    unfold before. lia.
Qed.

Lemma target_neighbours grid row col g :
  partialGrid N S grid row col → target N S grid row col g →
  (row < N)%nat → (col < N)%nat → cellValue g row col = 1 →
  ∀ r c, (r < N)%nat → (c < N)%nat → touching row col r c → cellValue grid r c ≠ 1.
Proof.
  intros Hp Ht Hrow Hcol Hstar r c Hr Hc Htouch Hone.
  pose proof (target_above grid row col g r c Hp Ht Hr Hc) as Hle.
  destruct Ht as [(Hwf & Hbin & _ & _ & Hnt) Hag].
  assert (cellValue g r c = 1) as Hg by (destruct (Hbin r c Hr Hc); lia).
  by apply (Hnt row col r c).
Qed.

Lemma partialGrid_star grid row col :
  partialGrid N S grid row col → (row < N)%nat → (col < N)%nat →
  (∀ r c, (r < N)%nat → (c < N)%nat → touching row col r c → cellValue grid r c ≠ 1) →
  partialGrid N S (setCell grid row col 1) row (col + 1).
Proof.
  intros Hp Hrow Hcol Hfree. pose proof (p_wf _ _ _ _ _ Hp) as Hwf. split.
  - by apply wellFormed_setCell.
  - intros r c Hr Hc. rewrite (cellValue_setCell N) by done.
    case_decide; [by right|]. by apply (p_bin _ _ _ _ _ Hp).
  - intros r c Hr Hc Hb. rewrite (cellValue_setCell N) by done.
    rewrite decide_False by (unfold before in Hb; lia).
    apply (p_zero _ _ _ _ _ Hp); [done..|]. unfold before in *. lia.
  - intros r Hr HrN. rewrite <- (p_rows _ _ _ _ _ Hp r Hr HrN). unfold rowTotal.
    apply sumTo_ext. intros c Hc. rewrite (cellValue_setCell N) by done.
    by rewrite decide_False by lia.
  - intros r1 c1 r2 c2 Hr1 Hc1 Hr2 Hc2.
    rewrite !(cellValue_setCell N) by done.
    destruct (decide (r1 = row ∧ c1 = col)) as [[-> ->]|H1];
      destruct (decide (r2 = row ∧ c2 = col)) as [[-> ->]|H2]; intros E1 E2 Ht.
    + by destruct Ht as [Hne _].
    + exact (Hfree r2 c2 Hr2 Hc2 Ht E2).
    + exact (Hfree r1 c1 Hr1 Hc1 (touching_sym _ _ _ _ Ht) E1).
    + by apply (p_touch _ _ _ _ _ Hp r1 c1 r2 c2).
Qed.

Lemma partialGrid_skip grid row col :
  partialGrid N S grid row col → partialGrid N S grid row (col + 1).
Proof.
  intros Hp. split; try apply Hp.
  intros r c Hr Hc Hb. apply (p_zero _ _ _ _ _ Hp); [done..|]. unfold before in *. lia.
Qed.

Lemma partialGrid_next_row grid row :
  partialGrid N S grid row N → (row < N)%nat → rowTotal N grid row = S →
  partialGrid N S grid (row + 1) 0.
Proof.
  intros Hp Hrow Hsum. split; try apply Hp.
  - intros r c Hr Hc Hb. apply (p_zero _ _ _ _ _ Hp); [done..|]. unfold before in *. lia.
  - intros r Hr HrN. destruct (decide (r = row)) as [->|]; [done|].
    apply (p_rows _ _ _ _ _ Hp); [lia|done].
Qed.

Lemma agree_star grid row col g :
  wellFormed N grid → (row < N)%nat → (col < N)%nat →
  agree N (setCell grid row col 1) row (col + 1) g
  ↔ agree N grid row col g ∧ cellValue g row col = 1.
Proof.
  intros Hwf Hrow Hcol. unfold agree. split.
  - intros H. split.
    + intros r c Hr Hc Hb. rewrite H; [|done..|unfold before in *; lia].
      rewrite (cellValue_setCell N) by done.
      by rewrite decide_False by (unfold before in Hb; lia).
    + rewrite H; [|done..|unfold before; lia].
      rewrite (cellValue_setCell N) by done. by rewrite decide_True.
  - intros [H Hstar] r c Hr Hc Hb. rewrite (cellValue_setCell N) by done.
    case_decide as E; [by destruct E as [-> ->]|].
    apply H; [done..|]. unfold before in *. lia.
Qed.

Lemma agree_skip grid row col g :
  agree N grid row (col + 1) g
  ↔ agree N grid row col g ∧ ((row < N)%nat → (col < N)%nat →
                              cellValue g row col = cellValue grid row col).
Proof.
  unfold agree. split.
  - intros H. split.
    + intros r c Hr Hc Hb. apply H; [done..|]. unfold before in *. lia.
    + intros Hr Hc. apply H; [done..|]. unfold before. lia.
  - intros [H Hcell] r c Hr Hc Hb.
    destruct (decide (r = row ∧ c = col)) as [[-> ->]|E]; [by apply Hcell|].
    apply H; [done..|]. unfold before in *. lia.
Qed.

Lemma agree_next_row grid row g :
  agree N grid (row + 1) 0 g ↔ agree N grid row N g.
Proof.
  unfold agree, before. split; intros H r c Hr Hc Hb; apply H; try done; lia.
Qed.

Lemma target_complete grid col g :
  partialGrid N S grid N col →
  target N S grid N col g ↔
  g = grid ∧ ∀ c, (c < N)%nat → colTotal N grid c = S.
Proof.
  intros Hp. split.
  - intros [Hconf Hag].
    assert (g = grid) as ->.
    { apply (grid_ext N); [apply Hconf|apply Hp|].
      intros r c Hr Hc. apply Hag; [done..|]. by left. }
    split; [done|]. apply Hconf.
  - intros [-> Hcols]. split; [|by intros r c _ _ _].
    split_and!; try apply Hp; [|done].
    intros r Hr. by apply (p_rows _ _ _ _ _ Hp).
Qed.


Lemma backtrack_unfold fuel st row col :
  backtrack N S (Datatypes.S fuel) st row col =
    if decide (row = N) then
      if forallb (λ c, bool_decide (countStarsInColumn N (Enumeration.grid st) c = S)) (seq 0 N)
      then Some (mkEnumState (Enumeration.grid st)
                             (solutions st ++ [copyGrid (Enumeration.grid st)]))
      else Some st
    else
      if decide (S - countStarsInRow (Enumeration.grid st) row > Z.of_nat N - Z.of_nat col)
      then Some st
      else if bool_decide (0 < col)%nat
              && bool_decide (countStarsInColumn N (Enumeration.grid st) (col - 1) > S)
      then Some st
      else if decide (col = N) then
        if decide (countStarsInRow (Enumeration.grid st) row = S) then
          if forallb (λ c, negb (bool_decide
                        (countStarsInColumn N (Enumeration.grid st) c > S))) (seq 0 N)
          then backtrack N S fuel st (row + 1) 0 else Some st
        else Some st
      else
        match
          (if bool_decide (countStarsInRow (Enumeration.grid st) row < S)
              && isValidPlacement N (Enumeration.grid st) row col
           then
             match backtrack N S fuel
                     (mkEnumState (setCell (Enumeration.grid st) row col 1) (solutions st))
                     row (col + 1) with
             | Some st1 => Some (mkEnumState (setCell (Enumeration.grid st1) row col 0)
                                             (solutions st1))
             | None => None
             end
           else Some st)
        with
        | Some st2 => backtrack N S fuel st2 row (col + 1)
        | None => None
        end.
Proof. reflexivity. Qed.

Definition found (st : EnumState) (out : list Grid) : EnumState :=
  mkEnumState (Enumeration.grid st) (solutions st ++ out).

Lemma found_nil st : found st [] = st.
Proof. destruct st. unfold found. simpl. by rewrite app_nil_r. Qed.

Lemma nothing_found st row col :
  (∀ g, ¬ target N S (Enumeration.grid st) row col g) →
  ∃ out, Some st = Some (found st out) ∧ NoDup out ∧
         ∀ g, g ∈ out ↔ target N S (Enumeration.grid st) row col g.
Proof.
  intros Hnone. exists []. rewrite found_nil. split_and!; [done|constructor|].
  intros g. split; [by intros ?%elem_of_nil|]. intros H. by destruct (Hnone g).
Qed.

Lemma backtrack_correct fuel : ∀ st row col,
  ((N - row) * (N + 1) + (N - col) + 1 ≤ fuel)%nat →
  (row ≤ N)%nat → (col ≤ N)%nat →
  partialGrid N S (Enumeration.grid st) row col →
  ∃ out, backtrack N S fuel st row col = Some (found st out) ∧ NoDup out ∧
         ∀ g, g ∈ out ↔ target N S (Enumeration.grid st) row col g.
Proof.
  induction fuel as [|fuel IH]; intros st row col Hfuel Hrow Hcol Hp; [lia|].
  rewrite backtrack_unfold. pose proof (p_wf _ _ _ _ _ Hp) as Hwf.
  destruct (decide (row = N)) as [->|HrowN].
  { (* every row is filled: check the columns *)
    destruct (forallb _ _) eqn:Ecols.
    - exists [Enumeration.grid st]. rewrite copyGrid_id.
      split_and!; [done|apply NoDup_singleton|].
      intros g. rewrite list_elem_of_singleton, (target_complete _ col g) by done.
      split; [|by intros [-> _]]. intros ->. split; [done|].
      intros c Hc. rewrite forallb_seq in Ecols. specialize (Ecols c Hc).
      apply bool_decide_eq_true in Ecols. by rewrite <- countStarsInColumn_total.
    - apply nothing_found. intros g [_ Hcols]%(target_complete _ col g); [|done].
      assert (forallb (λ c, bool_decide (countStarsInColumn N (Enumeration.grid st) c = S))
                (seq 0 N) = true) as E; [|congruence].
      apply forallb_seq. intros c Hc. apply bool_decide_eq_true.
      rewrite countStarsInColumn_total. by apply Hcols. }
  assert (row < N)%nat as HrowLt by lia.
  rewrite (countStarsInRow_total N) by done.
  destruct (decide (_ > _)) as [Hprune|Hfits].
  { apply nothing_found. intros g Ht.
    pose proof (target_row _ _ _ _ Hp Ht HrowLt Hcol). lia. }
  destruct (bool_decide (0 < col)%nat && _) eqn:Ecol.
  { apply nothing_found. intros g Ht.
    apply andb_true_iff in Ecol as [Hc0%bool_decide_eq_true Hover%bool_decide_eq_true].
    rewrite countStarsInColumn_total in Hover.
    pose proof (target_column _ _ _ _ (col - 1) Hp Ht). lia. }
  destruct (decide (col = N)) as [->|HcolN].
  { (* end of the row *)
    destruct (decide (_ = S)) as [Hfull|Hnotfull].
    2:{ apply nothing_found. intros g Ht.
        pose proof (target_row _ _ _ _ Hp Ht HrowLt Hcol). lia. }
    destruct (forallb _ _) eqn:Eproceed.
    2:{ apply nothing_found. intros g Ht.
        assert (forallb (λ c, negb (bool_decide
                  (countStarsInColumn N (Enumeration.grid st) c > S))) (seq 0 N) = true)
          as E; [|congruence].
        apply forallb_seq. intros c Hc. apply negb_true_iff, bool_decide_eq_false.
        rewrite countStarsInColumn_total.
        pose proof (target_column _ _ _ _ c Hp Ht Hc). lia. }
    destruct (IH st (row + 1)%nat 0%nat) as (out & Hrun & Hnd & Hout).
    - assert ((N - row) = Datatypes.S (N - (row + 1)))%nat as E by lia.
      rewrite E in Hfuel. simpl in Hfuel. lia.
    - lia.
    - lia.
    - by apply partialGrid_next_row.
    - exists out. split_and!; [done..|]. intros g. rewrite Hout.
      unfold target. by rewrite agree_next_row. }
  assert (col < N)%nat as HcolLt by lia.
  assert (cellValue (Enumeration.grid st) row col = 0) as Hzero.
  { apply (p_zero _ _ _ _ _ Hp); [done..|]. unfold before. lia. }
  assert ((N - row) * (N + 1) + (N - (col + 1)) + 1 ≤ fuel)%nat as Hfuel' by lia.
  destruct (IH st row (col + 1)%nat Hfuel' Hrow ltac:(lia) (partialGrid_skip _ _ _ Hp))
    as (out2 & Hrun2 & Hnd2 & Hout2).
  assert (∀ g, target N S (Enumeration.grid st) row (col + 1) g
               ↔ target N S (Enumeration.grid st) row col g ∧ cellValue g row col = 0)
    as Hskip.
  { intros g. unfold target. rewrite agree_skip, Hzero. split.
    - intros (Hc & Ha & He). split_and!; auto.
    - intros ((Hc & Ha) & He). split_and!; auto. }
  destruct (bool_decide (_ < S) && isValidPlacement _ _ _ _) eqn:Eplace.
  - (* a star fits here: first with the star, then without *)
    apply andb_true_iff in Eplace as [Hroom%bool_decide_eq_true Hvalid].
    pose proof (proj1 (isValidPlacement_spec N _ row col) Hvalid) as Hfree.
    pose proof (partialGrid_star _ _ _ Hp HrowLt HcolLt Hfree) as Hp1.
    destruct (IH (mkEnumState (setCell (Enumeration.grid st) row col 1) (solutions st))
                row (col + 1)%nat Hfuel' Hrow ltac:(lia) Hp1)
      as (out1 & Hrun1 & Hnd1 & Hout1).
    rewrite Hrun1. unfold found at 1. simpl.
    rewrite (setCell_restore N) by done.
    change (mkEnumState (Enumeration.grid st) (solutions st ++ out1)) with (found st out1).
    destruct (IH (found st out1) row (col + 1)%nat Hfuel' Hrow ltac:(lia)
                (partialGrid_skip _ _ _ Hp)) as (out2' & Hrun2' & Hnd2' & Hout2').
    rewrite Hrun2'. exists (out1 ++ out2'). split_and!.
    + unfold found. simpl. by rewrite app_assoc.
    + apply NoDup_app. split_and!; [done| |done].
      intros g Hg1 Hg2. apply Hout1 in Hg1 as [_ Hg1]. simpl in Hg1.
      apply (agree_star _ _ _ _ Hwf HrowLt HcolLt) in Hg1 as [_ Hone].
      apply Hout2', Hskip in Hg2 as [_ Hnone]. lia.
    + intros g. rewrite elem_of_app, Hout1, Hout2'. simpl.
      change (Enumeration.grid (found st out1)) with (Enumeration.grid st).
      rewrite Hskip. unfold target.
      rewrite (agree_star _ _ _ _ Hwf HrowLt HcolLt). split.
      { intros [(Hc & Ha & _)|((Hc & Ha) & _)]; by split. }
      intros [Hconf Hag]. destruct Hconf as (Hwfg & Hbin & Hrest).
      destruct (Hbin row col HrowLt HcolLt) as [E|E].
      * right. by split_and!.
      * left. by split_and!.
  - (* no star here *)
    rewrite Hrun2. exists out2. split_and!; [done..|].
    intros g. rewrite Hout2, Hskip. split; [by intros [? _]|]. intros Ht. split; [done|].
    pose proof Ht as [(_ & Hbin & _) _].
    destruct (Hbin row col HrowLt HcolLt) as [E|E]; [done|].
    apply andb_false_iff in Eplace as [Hroom%bool_decide_eq_false|Hvalid].
    + pose proof (target_row_with_star _ _ _ _ Hp Ht HrowLt HcolLt E). lia.
    + assert (isValidPlacement N (Enumeration.grid st) row col = true) as Hv; [|congruence].
      apply isValidPlacement_spec. by apply (target_neighbours _ _ _ g).
Qed.


Lemma cellValue_emptyGrid r c : cellValue (emptyGrid N) r c = 0.
Proof.
  unfold cellValue, gridAt, emptyGrid.
  destruct (decide (r < N)%nat) as [Hr|Hr].
  - rewrite lookup_replicate_2 by done. simpl.
    destruct (decide (c < N)%nat) as [Hc|Hc].
    + by rewrite lookup_replicate_2.
    + by rewrite (proj1 (lookup_replicate_None N 0 c)) by lia.
  - by rewrite (proj1 (lookup_replicate_None N (replicate N 0) r)) by lia.
Qed.

Lemma partialGrid_emptyGrid : partialGrid N S (emptyGrid N) 0 0.
Proof.
  split.
  - split; [apply length_replicate|]. apply Forall_replicate, length_replicate.
  - intros r c _ _. left. apply cellValue_emptyGrid.
  - intros r c _ _ _. apply cellValue_emptyGrid.
  - intros r Hr. lia.
  - intros r1 c1 r2 c2 _ _ _ _ H. rewrite cellValue_emptyGrid in H. done.
Qed.

Lemma enumerate_spec :
  ∃ l, enumerate N S = Some l ∧ NoDup l ∧ ∀ g, g ∈ l ↔ isConfiguration N S g.
Proof.
  unfold enumerate.
  destruct (backtrack_correct ((N + 1) * (N + 1)) (mkEnumState (emptyGrid N) []) 0 0)
    as (out & Hrun & Hnd & Hout).
  - rewrite !Nat.sub_0_r. lia.
  - lia.
  - lia.
  - apply partialGrid_emptyGrid.
  - rewrite Hrun. exists out. split_and!; [done..|].
    intros g. rewrite Hout. unfold target. simpl. split; [by intros [? _]|].
    intros H. split; [done|]. intros r c _ _ [Hb|[_ Hb]]; lia.
Qed.

End Search.

(** C1 — the enumerator is exhaustive and exact.  For every board size
    [N ≥ 1] and every [S ≥ 1], [enumerate] returns (it never runs out of
    fuel and never fails) a list without repetitions whose members are
    exactly the N×N 0/1 matrices with [S] ones in every row and column and
    no two ones within Chebyshev distance 1; when there is no such matrix
    the list is empty. *)
Theorem enumerate_exhaustive_and_exact (N : nat) (S : Z) :
  (1 ≤ N)%nat → 1 ≤ S →
  ∃ l, enumerate N S = Some l ∧
       NoDup l ∧
       (∀ g, g ∈ l ↔ isConfiguration N S g) ∧
       ((∀ g, ¬ isConfiguration N S g) → l = []).
Proof.
  intros _ _. destruct (enumerate_spec N S) as (l & Hrun & Hnd & Hl).
  exists l. split_and!; [done..|].
  intros Hnone. destruct l as [|g l]; [done|].
  destruct (Hnone g). apply Hl. left.
Qed.

Lemma enumerate_exhaustive_and_exact_witness :
  ∃ l, enumerate 4 1 = Some l ∧
       NoDup l ∧
       (∀ g, g ∈ l ↔ isConfiguration 4 1 g) ∧
       ((∀ g, ¬ isConfiguration 4 1 g) → l = []).
Proof.
  apply (enumerate_exhaustive_and_exact 4 1); lia.
Defined.

(** The two solutions of the 4×4 board with one star per line. *)
Example enumerate_4_1 :
  enumerate 4 1 =
    Some [ [[0; 1; 0; 0]; [0; 0; 0; 1]; [1; 0; 0; 0]; [0; 0; 1; 0]];
           [[0; 0; 1; 0]; [1; 0; 0; 0]; [0; 0; 0; 1]; [0; 1; 0; 0]] ].
Proof. vm_compute. reflexivity. Qed.

End EnumerationFacts.

Module AnalyzerFacts.
Import Enumeration Configuration EnumerationFacts Analyzer AnalyzerSpec.

Section Facts.
Context (N : nat) (solutions : list Grid).
Implicit Types (pattern : list Cell) (r c : nat).

Lemma boardCells_elem r c : (r, c) ∈ boardCells N ↔ (r < N)%nat ∧ (c < N)%nat.
Proof.
  unfold boardCells. rewrite list_elem_of_bind. split.
  - intros (r' & Hc & Hr). apply list_elem_of_fmap in Hc as (c' & [= -> ->] & Hc).
    apply elem_of_seq in Hr, Hc. lia.
  - intros [Hr Hc]. exists r. split.
    + apply list_elem_of_fmap. exists c. split; [done|]. apply elem_of_seq. lia.
    + apply elem_of_seq. lia.
Qed.

Lemma stateAt_computed pattern compat r c :
  (r < N)%nat → (c < N)%nat →
  stateAt (computeCellStates N pattern compat) r c = Some (classify N pattern compat r c).
Proof.
  intros Hr Hc. unfold stateAt, computeCellStates.
  rewrite list_lookup_fmap, lookup_seq_lt by done. simpl.
  rewrite list_lookup_fmap, lookup_seq_lt by done. done.
Qed.

Lemma patternSet_elem pattern (key : Z * Z) :
  key ∈ patternSetOf pattern ↔ ∃ p, p ∈ pattern ∧ keyOf p = key.
Proof.
  unfold patternSetOf. rewrite elem_of_list_to_set, list_elem_of_fmap.
  split; intros (p & H1 & H2); exists p; by split.
Qed.

Lemma isInPattern_false pattern r c :
  keyOf (cellAt r c) ∉ patternSetOf pattern →
  existsb (λ p, bool_decide (row p = Z.of_nat r ∧ col p = Z.of_nat c)) pattern = false.
Proof.
  intros Hnot. destruct (existsb _ _) eqn:E; [|done]. exfalso. apply Hnot.
  apply existsb_exists in E as (p & Hp & Hrc). apply bool_decide_eq_true in Hrc as [Hr Hc].
  apply patternSet_elem. exists p. split; [by apply list_elem_of_In|].
  unfold keyOf, cellAt. simpl. by rewrite Hr, Hc.
Qed.

Lemma neighbourKeys_elem star (key : Z * Z) :
  key ∈ neighbourKeys N star ↔
  key ≠ keyOf star ∧
  Z.abs (key.1 - row star) ≤ 1 ∧ Z.abs (key.2 - col star) ≤ 1 ∧
  0 ≤ key.1 < Z.of_nat N ∧ 0 ≤ key.2 < Z.of_nat N.
Proof.
  unfold neighbourKeys. rewrite list_elem_of_bind. destruct key as [kr kc].
  cbn [fst snd]. split.
  - intros (dr & Hin & Hdr). apply list_elem_of_bind in Hin as (dc & Hin & Hdc).
    unfold offsets in Hdr, Hdc. rewrite !elem_of_cons, elem_of_nil in Hdr, Hdc.
    destruct (decide (dr = 0 ∧ dc = 0)) as [|Hne]; [by apply elem_of_nil in Hin|].
    cbv zeta in Hin. destruct (decide _) as [Hb|]; [|by apply elem_of_nil in Hin].
    apply list_elem_of_singleton in Hin as [= -> ->].
    split; [|lia]. unfold keyOf. intros [= E1 E2]. lia.
  - intros (Hne & Hr & Hc & Hbr & Hbc).
    exists (kr - row star). split.
    + apply list_elem_of_bind. exists (kc - col star). split.
      * rewrite decide_False.
        2:{ intros [E1 E2]. apply Hne. unfold keyOf. f_equal; lia. }
        cbv zeta. rewrite decide_True by lia.
        apply list_elem_of_singleton. f_equal; lia.
      * unfold offsets. rewrite !elem_of_cons. lia.
    + unfold offsets. rewrite !elem_of_cons. lia.
Qed.

Lemma adjacentKeys_elem pattern (key : Z * Z) :
  (key ∈ adjacentKeys N pattern) ↔
  (key ∉ patternSetOf pattern) ∧ (∃ star, star ∈ pattern ∧ key ∈ neighbourKeys N star).
Proof.
  unfold adjacentKeys. rewrite elem_of_list_to_set, list_elem_of_filter, list_elem_of_bind.
  split.
  - intros [H1 (star & H2 & H3)]. split; [done|]. exists star. by split.
  - intros [H1 (star & H2 & H3)]. split; [done|]. exists star. by split.
Qed.

Lemma compatibleWith_elem pattern sol :
  sol ∈ compatibleWith solutions pattern ↔
  sol ∈ solutions ∧ ∀ p, p ∈ pattern → gridAtZ sol (row p) (col p) = Some 1.
Proof.
  unfold compatibleWith. rewrite list_elem_of_filter. unfold isPatternCompatible.
  rewrite forallb_forall. split.
  - intros [Hall Hin]. split; [done|]. intros p Hp%list_elem_of_In.
    specialize (Hall p Hp). by apply bool_decide_eq_true in Hall.
  - intros [Hin Hall]. split; [|done]. intros p Hp%list_elem_of_In.
    apply bool_decide_eq_true. by apply Hall.
Qed.

Lemma gridAt_in_range (g : Grid) r c v :
  wellFormed N g → gridAt g r c = Some v → (r < N)%nat ∧ (c < N)%nat.
Proof.
  intros Hwf H. unfold gridAt in H.
  destruct (g !! r) as [rw|] eqn:Hrw; [|done]. simpl in H.
  pose proof (row_length N g r rw Hwf Hrw).
  apply lookup_lt_Some in Hrw, H. destruct Hwf. lia.
Qed.

(** A cell next to a pattern star is empty in every compatible solution. *)
Lemma adjacent_cell_empty S pattern r c sol :
  isConfiguration N S sol →
  sol ∈ compatibleWith solutions pattern →
  keyOf (cellAt r c) ∈ adjacentKeys N pattern →
  gridAt sol r c ≠ Some 1.
Proof.
  intros (Hwf & _ & _ & _ & Hnt) [_ Hstars]%compatibleWith_elem
         [_ (star & Hstar & Hnb)]%adjacentKeys_elem Hone.
  apply neighbourKeys_elem in Hnb as (Hne & Hr & Hc & Hbr & Hbc).
  unfold keyOf, cellAt in *. simpl in *.
  specialize (Hstars star Hstar). unfold gridAtZ in Hstars.
  destruct (decide _) as [[Hr0 Hc0]|]; [|done].
  destruct (gridAt_in_range _ _ _ _ Hwf Hstars) as [HrN HcN].
  apply (Hnt r c (Z.to_nat (row star)) (Z.to_nat (col star))); try lia.
  - by apply cellValue_one.
  - by apply cellValue_one.
  - split; [|lia]. intros [= E1 E2]. apply Hne. f_equal; lia.
Qed.

Lemma starCount_zero compat r c :
  starCountAt compat r c = 0%nat ↔ Forall (λ sol, gridAt sol r c ≠ Some 1) compat.
Proof.
  unfold starCountAt. induction compat as [|sol compat IH]; simpl.
  - split; [constructor|done].
  - rewrite filter_cons. case_decide as H; simpl.
    + split; [done|]. intros Hall. by inversion_clear Hall.
    + rewrite IH. split; [by constructor|]. intros Hall. by inversion_clear Hall.
Qed.

Lemma starCount_all compat r c :
  starCountAt compat r c = length compat ↔ Forall (λ sol, gridAt sol r c = Some 1) compat.
Proof.
  unfold starCountAt. induction compat as [|sol compat IH]; simpl.
  - split; [constructor|done].
  - rewrite filter_cons. case_decide as H; simpl.
    + split.
      * intros E. constructor; [done|]. apply IH. lia.
      * intros Hall. inversion_clear Hall. f_equal. by apply IH.
    + split.
      * intros E. pose proof (length_filter (λ sol, gridAt sol r c = Some 1) compat). lia.
      * intros Hall. by inversion_clear Hall.
Qed.

Lemma forcedCells_elem pattern cs st cell :
  cell ∈ forcedCells N pattern cs st ↔
  ∃ r c, cell = cellAt r c ∧ (r < N)%nat ∧ (c < N)%nat ∧
         (keyOf (cellAt r c) ∉ patternSetOf pattern) ∧ stateAt cs r c = Some st.
Proof.
  unfold forcedCells. rewrite list_elem_of_fmap. split.
  - intros ([r c] & -> & [[Hnot Hst] [Hr Hc]%boardCells_elem]%list_elem_of_filter).
    exists r, c. split_and!; [done|done|done|exact Hnot|exact Hst].
  - intros (r & c & -> & Hr & Hc & Hnot & Hst). exists (r, c). split; [done|].
    apply list_elem_of_filter. split; [by split|]. by apply boardCells_elem.
Qed.


End Facts.

(** C5 — the adjacency shortcut of [analyzePattern] is the reference
    classification.  When the solutions are Configurations and the pattern
    is realizable, every in-bounds non-pattern cell next to a pattern star
    is empty in every compatible solution, and the state that
    [analyzePattern] writes for any in-bounds non-pattern cell is the
    reference state: forced_empty iff empty in all compatible solutions,
    forced_star iff star in all of them, flexible otherwise. *)
Theorem adjacency_shortcut_is_reference
    (N : nat) (S : Z) (solutions : list Grid) (pattern : list Cell) (r c : nat) :
  (∀ sol, sol ∈ solutions → isConfiguration N S sol) →
  compatibleWith solutions pattern ≠ [] →
  (r < N)%nat → (c < N)%nat →
  keyOf (cellAt r c) ∉ patternSetOf pattern →
  (keyOf (cellAt r c) ∈ adjacentKeys N pattern →
     ∀ sol, sol ∈ compatibleWith solutions pattern → gridAt sol r c ≠ Some 1) ∧
  stateAt (computeCellStates N pattern (compatibleWith solutions pattern)) r c
    = Some (referenceState (compatibleWith solutions pattern) r c).
Proof.
  intros Hconf Hreal Hr Hc Hnot.
  assert (∀ sol, sol ∈ compatibleWith solutions pattern → isConfiguration N S sol) as Hc'.
  { intros sol [Hin _]%compatibleWith_elem. by apply Hconf. }
  assert (keyOf (cellAt r c) ∈ adjacentKeys N pattern →
          ∀ sol, sol ∈ compatibleWith solutions pattern → gridAt sol r c ≠ Some 1) as Hadj.
  { intros Hk sol Hsol. eapply adjacent_cell_empty; eauto. }
  split; [done|].
  rewrite stateAt_computed by done. f_equal.
  unfold classify, referenceState. cbv zeta.
  rewrite isInPattern_false by done.
  destruct (decide (keyOf (cellAt r c) ∈ adjacentKeys N pattern)) as [Hk|Hk].
  - rewrite decide_True; [done|]. apply Forall_forall. by apply Hadj.
  - pose proof (starCount_zero (compatibleWith solutions pattern) r c) as Hzero.
    pose proof (starCount_all (compatibleWith solutions pattern) r c) as Hall.
    repeat case_decide; try done; exfalso; tauto.
Qed.


Lemma adjacency_shortcut_is_reference_witness :
  let solutions := [ [[0; 1; 0; 0]; [0; 0; 0; 1]; [1; 0; 0; 0]; [0; 0; 1; 0]];
                     [[0; 0; 1; 0]; [1; 0; 0; 0]; [0; 0; 0; 1]; [0; 1; 0; 0]] ] in
  let pattern := [mkCell 0 1] in
  ((keyOf (cellAt 0 0) ∈ adjacentKeys 4 pattern) →
     ∀ sol, sol ∈ compatibleWith solutions pattern → gridAt sol 0 0 ≠ Some 1) ∧
  stateAt (computeCellStates 4 pattern (compatibleWith solutions pattern)) 0 0
    = Some (referenceState (compatibleWith solutions pattern) 0 0).
Proof.
  intros solutions pattern.
  apply (adjacency_shortcut_is_reference 4 1 solutions pattern 0 0).
  - intros sol Hsol. destruct (enumerate_spec 4 1) as (l & Hrun & _ & Hl).
    vm_compute in Hrun. injection Hrun as <-. by apply Hl.
  - vm_compute. discriminate.
  - lia.
  - lia.
  - apply (bool_decide_unpack _). vm_compute. exact I.
Defined.


(** *** Patterns that [shouldSkipPattern] filters out *)





End AnalyzerFacts.

Module MinerFacts.
Import Geometry Enumeration Analyzer Miners GeometryFacts CanonicalForm.

(** ** Maps in insertion order *)
Section JSMapFacts.
Context {K V : Type} `{EqDecision K}.
Implicit Types (m : list (K * V)) (k : K) (v : V).

Lemma mapGet_mapSet k v m : mapGet k (mapSet k v m) = Some v.
Proof.
  induction m as [|[k' v'] m IH]; simpl; [by rewrite decide_True|].
  destruct (decide (k' = k)) as [->|Hne]; simpl.
  - by rewrite decide_True.
  - by rewrite decide_False.
Qed.

Lemma mapGet_mapSet_ne k k' v m : k ≠ k' → mapGet k' (mapSet k v m) = mapGet k' m.
Proof.
  intros Hne. induction m as [|[k0 v0] m IH]; simpl.
  - by rewrite decide_False.
  - destruct (decide (k0 = k)) as [->|Hk]; simpl.
    + by rewrite !decide_False.
    + destruct (decide (k0 = k')); [done|apply IH].
Qed.

Lemma mapGet_Some k v m : mapGet k m = Some v → (k, v) ∈ m.
Proof.
  induction m as [|[k' v'] m IH]; simpl; [done|].
  destruct (decide (k' = k)) as [->|Hne].
  - intros [= ->]. left.
  - intros Hg. right. by apply IH.
Qed.

Lemma mapGet_None k m : mapGet k m = None ↔ k ∉ m.*1.
Proof.
  induction m as [|[k' v'] m IH]; simpl.
  - split; [intros _; apply not_elem_of_nil|done].
  - rewrite not_elem_of_cons. destruct (decide (k' = k)) as [->|Hne].
    + split; [done|]. by intros [? _].
    + rewrite IH. split; [|by intros [_ ?]]. intros Hk. split; [congruence|done].
Qed.

Lemma mapGet_elem k v m : NoDup m.*1 → (k, v) ∈ m → mapGet k m = Some v.
Proof.
  induction m as [|[k' v'] m IH]; simpl.
  - intros _ Hin. by apply elem_of_nil in Hin.
  - rewrite NoDup_cons. intros [Hk Hnd] Hin. apply elem_of_cons in Hin as [Heq|Hin].
    + injection Heq as -> ->. by rewrite decide_True.
    + destruct (decide (k' = k)) as [->|Hne]; [|by apply IH].
      exfalso. apply Hk. apply list_elem_of_fmap. by exists (k, v).
Qed.

Lemma mapHas_spec k m : mapHas k m = true ↔ k ∈ m.*1.
Proof.
  unfold mapHas. rewrite bool_decide_eq_true.
  destruct (mapGet k m) as [v|] eqn:E.
  - split; [intros _|by eauto]. apply list_elem_of_fmap. exists (k, v).
    split; [done|]. by apply mapGet_Some.
  - split; [by intros [? [=]]|]. intros Hin. by apply mapGet_None in E.
Qed.

Lemma elem_keys_mapSet k' k v m : k' ∈ (mapSet k v m).*1 ↔ k' = k ∨ k' ∈ m.*1.
Proof.
  induction m as [|[k0 v0] m IH]; simpl.
  - rewrite list_elem_of_singleton, elem_of_nil. tauto.
  - destruct (decide (k0 = k)) as [->|Hne]; simpl.
    + rewrite !elem_of_cons. tauto.
    + rewrite !elem_of_cons, IH. tauto.
Qed.

Lemma NoDup_mapSet k v m : NoDup m.*1 → NoDup (mapSet k v m).*1.
Proof.
  induction m as [|[k0 v0] m IH]; simpl.
  - intros _. apply NoDup_singleton.
  - rewrite NoDup_cons. intros [Hk Hnd].
    destruct (decide (k0 = k)) as [->|Hne]; simpl; apply NoDup_cons.
    + done.
    + split; [|by apply IH]. rewrite elem_keys_mapSet. intros [?|?]; [congruence|done].
Qed.

End JSMapFacts.

(** ** The tally of [extractPureEntanglements] *)

Definition classOf (m : list (list Point * StarClass)) (cs : list Point) : StarClass :=
  default (mkStarClass 0 []) (mapGet cs m).

Lemma recordOccurrence_get m cs ce cs' :
  mapGet cs' (recordOccurrence m cs ce) =
  if decide (cs = cs') then
    Some (mkStarClass (occurrenceCount (classOf m cs) + 1)
            (mapSet ce (default 0 (mapGet ce (emptiesMap (classOf m cs))) + 1)
                    (emptiesMap (classOf m cs))))
  else mapGet cs' m.
Proof.
  unfold recordOccurrence, classOf, mapHas.
  destruct (mapGet cs m) as [sc|] eqn:E.
  - rewrite bool_decide_eq_true_2 by eauto. rewrite E. simpl.
    destruct (decide (cs = cs')) as [->|Hne].
    + apply mapGet_mapSet.
    + by apply mapGet_mapSet_ne.
  - rewrite bool_decide_eq_false_2 by (by intros [? [=]]).
    rewrite mapGet_mapSet. simpl.
    destruct (decide (cs = cs')) as [->|Hne].
    + apply mapGet_mapSet.
    + rewrite !mapGet_mapSet_ne by done. done.
Qed.

Lemma recordOccurrence_NoDup m cs ce :
  NoDup m.*1 → NoDup (recordOccurrence m cs ce).*1.
Proof.
  intros Hnd. unfold recordOccurrence.
  destruct (mapHas cs m).
  - destruct (mapGet cs m); [by apply NoDup_mapSet|done].
  - rewrite mapGet_mapSet. by do 2 apply NoDup_mapSet.
Qed.

Definition tally (keys : list (list Point * list Point)) : list (list Point * StarClass) :=
  foldl (λ m k, recordOccurrence m k.1 k.2) [] keys.

Definition countOf (cs : list Point) (keys : list (list Point * list Point)) : Z :=
  Z.of_nat (length (filter (λ k, k.1 = cs) keys)).

Lemma countOf_zero cs keys : (∀ ce, (cs, ce) ∉ keys) → countOf cs keys = 0.
Proof.
  intros Hno. unfold countOf.
  destruct (filter (λ k, k.1 = cs) keys) as [|[cs' ce] l] eqn:E; [done|].
  assert ((cs', ce) ∈ filter (λ k, k.1 = cs) keys) as Hin by (rewrite E; left).
  apply list_elem_of_filter in Hin as [Hcs Hin]. simpl in Hcs. subst.
  by destruct (Hno ce).
Qed.

Lemma tally_spec keys :
  NoDup (tally keys).*1 ∧
  ∀ cs, match mapGet cs (tally keys) with
        | None => ∀ ce, (cs, ce) ∉ keys
        | Some sc =>
            occurrenceCount sc = countOf cs keys ∧
            NoDup (emptiesMap sc).*1 ∧
            ∀ ce, ce ∈ (emptiesMap sc).*1 ↔ (cs, ce) ∈ keys
        end.
Proof.
  induction keys as [|[cs0 ce0] keys IH] using rev_ind.
  - split; [constructor|]. intros cs ce. apply not_elem_of_nil.
  - unfold tally in *. rewrite foldl_app. simpl. destruct IH as [Hnd IH].
    split; [by apply recordOccurrence_NoDup|].
    intros cs. rewrite recordOccurrence_get. specialize (IH cs).
    unfold countOf in *. rewrite filter_app, length_app.
    destruct (decide (cs0 = cs)) as [->|Hne].
    + rewrite filter_cons_True, filter_nil by done. unfold classOf.
      destruct (mapGet cs _) as [sc|]; simpl.
      * destruct IH as (Hc & Hn & Hm). split; [lia|]. split; [by apply NoDup_mapSet|].
        intros ce. rewrite elem_keys_mapSet, elem_of_app, list_elem_of_singleton, Hm.
        split.
        -- intros [->|?]; [by right|by left].
        -- intros [?|Heq]; [by right|left; congruence].
      * pose proof (countOf_zero cs keys IH) as Hz. unfold countOf in Hz.
        split; [lia|]. split; [apply NoDup_singleton|].
        intros ce. rewrite list_elem_of_singleton, elem_of_app, list_elem_of_singleton.
        split; [intros ->; by right|]. intros [Hin|?]; [by destruct (IH ce)|congruence].
    + rewrite filter_cons_False, filter_nil by (simpl; congruence).
      simpl length. rewrite Nat.add_0_r.
      destruct (mapGet cs _) as [sc|].
      * destruct IH as (Hc & Hn & Hm). split; [done|]. split; [done|].
        intros ce. rewrite Hm, elem_of_app, list_elem_of_singleton.
        split; [by left|]. intros [?|?]; [done|congruence].
      * intros ce. rewrite elem_of_app, list_elem_of_singleton.
        intros [?|?]; [by destruct (IH ce)|congruence].
Qed.

Lemma templatesOf_elem m minOcc cs ce k :
  mkTemplate cs ce k ∈ templatesOf m minOcc ↔
  ∃ sc n, (cs, sc) ∈ m ∧ emptiesMap sc = [(ce, n)] ∧
          minOcc ≤ occurrenceCount sc ∧ k = occurrenceCount sc.
Proof.
  unfold templatesOf. rewrite list_elem_of_bind. split.
  - intros ([cs' sc] & Hin & Hm).
    destruct (emptiesMap sc) as [|[ce' n] [|]] eqn:E; simpl in Hin;
      try (rewrite ?andb_false_l in Hin; by apply elem_of_nil in Hin).
    destruct (bool_decide (occurrenceCount sc >= minOcc)) eqn:Hb;
      [|by apply elem_of_nil in Hin].
    apply bool_decide_eq_true in Hb. apply list_elem_of_singleton in Hin.
    injection Hin as -> -> ->. exists sc, n. repeat split; [done|done|lia].
  - intros (sc & n & Hin & E & Hmin & ->). exists (cs, sc). split; [|done].
    cbv zeta. rewrite E. simpl. rewrite bool_decide_eq_true_2 by lia. by left.
Qed.

(** The keys that the patterns contribute, in order. *)
Definition keysList (keysOf : Pattern → result (option (list Point * list Point)))
    (ps : list Pattern) : list (list Point * list Point) :=
  omap (λ p, match keysOf p with Ok ko => ko | Throw _ => None end) ps.

Lemma pureStep_foldl keysOf ps m :
  Forall (λ p, ∃ ko, keysOf p = Ok ko) ps →
  foldl (pureStep keysOf) (Ok m) ps
  = Ok (foldl (λ m k, recordOccurrence m k.1 k.2) m (keysList keysOf ps)).
Proof.
  intros Hall. revert m. induction Hall as [|p ps [ko Hko] _ IH]; intros m; [done|].
  unfold keysList in *. simpl. rewrite Hko. simpl.
  destruct ko as [[cs ce]|]; simpl; apply IH.
Qed.

(** [hasGeometry keysOf cs p]: pattern [p] canonicalises to the star
    geometry [cs]. *)
Definition hasGeometry (keysOf : Pattern → result (option (list Point * list Point)))
    (cs : list Point) (p : Pattern) : bool :=
  match keysOf p with
  | Ok (Some (cs', _)) => bool_decide (cs' = cs)
  | _ => false
  end.

Lemma countOf_keysList keysOf cs ps :
  countOf cs (keysList keysOf ps)
  = Z.of_nat (length (filter (λ p, hasGeometry keysOf cs p = true) ps)).
Proof.
  unfold countOf, keysList. f_equal.
  induction ps as [|p ps IH]; [done|]. simpl.
  destruct (keysOf p) as [[[cs' ce]|]|msg] eqn:E; simpl.
  - destruct (decide (cs' = cs)) as [->|Hne].
    + rewrite filter_cons_True by done.
      rewrite (filter_cons_True _ p)
        by (unfold hasGeometry; rewrite E; by apply bool_decide_eq_true_2).
      cbn [length]. by f_equal.
    + rewrite filter_cons_False by done.
      rewrite (filter_cons_False _ p); [done|].
      unfold hasGeometry. rewrite E. by rewrite bool_decide_eq_false_2.
  - rewrite (filter_cons_False _ p); [done|]. unfold hasGeometry. by rewrite E.
  - rewrite (filter_cons_False _ p); [done|]. unfold hasGeometry. by rewrite E.
Qed.

Lemma keysList_elem keysOf cs ce ps :
  Forall (λ p, ∃ ko, keysOf p = Ok ko) ps →
  (cs, ce) ∈ keysList keysOf ps ↔ ∃ p, p ∈ ps ∧ keysOf p = Ok (Some (cs, ce)).
Proof.
  intros Hall. unfold keysList. rewrite list_elem_of_omap. split.
  - intros (p & Hin & Hk). exists p. split; [done|].
    destruct (keysOf p) as [ko|msg]; [by subst|done].
  - intros (p & Hin & Hk). exists p. by rewrite Hk.
Qed.

Lemma NoDup_all_equal {A} (l : list A) (a : A) :
  NoDup l → a ∈ l → (∀ x, x ∈ l → x = a) → l = [a].
Proof.
  intros Hnd Hin Hall. destruct l as [|x [|y l]].
  - by apply elem_of_nil in Hin.
  - f_equal. apply Hall. left.
  - apply NoDup_cons in Hnd as [Hx _]. exfalso. apply Hx.
    rewrite (Hall x) by left. rewrite (Hall y) by (right; left). left.
Qed.

Lemma stableSort_perm (A : Type) (cmp : A → A → Z) (l : list A) :
  stableSort A cmp l ≡ₚ l.
Proof. apply merge_sort_Permutation. Qed.

Lemma pairKeys_total (p : Pattern) :
  length (initial_stars p) = 2%nat → ∃ ko, pairKeys p = Ok ko.
Proof.
  intros Hlen. unfold pairKeys.
  destruct (initial_stars p) as [|a [|b [|c l]]]; try discriminate.
  cbn [fmap list_fmap]. rewrite canonicalizeStars_canonicalize.
  destruct (canonicalize_spec [toPoint a; toPoint b] []) as (r & tf & -> & _); [done|].
  simpl. by eexists.
Qed.

Lemma genericKeys_total (p : Pattern) : ∃ ko, genericKeys p = Ok ko.
Proof.
  unfold genericKeys. destruct (decide _) as [?|Hne]; [by eexists|].
  destruct (canonicalize_spec (toPoint <$> initial_stars p)
              (toPoint <$> forced_empty_cells p)) as (r & tf & -> & _).
  { intros E. by rewrite E in Hne. }
  simpl. by eexists.
Qed.

Section PureTemplates.
Context (arraySort : ∀ A : Type, (A → A → Z) → list A → list A).
Context (localeCompare : string → string → Z).
Hypothesis arraySort_perm : ∀ A cmp l, arraySort A cmp l ≡ₚ l.

Lemma extractPureWith_spec keysOf (output : Output) (minOccurrences : Z) :
  Forall (λ p, ∃ ko, keysOf p = Ok ko) (patterns output) →
  ∃ out, extractPureWith arraySort localeCompare keysOf output minOccurrences = Ok out ∧
    ∀ cs ce k,
      mkTemplate cs ce k ∈ pure_entanglement_templates out ↔
        k = Z.of_nat (length (filter (λ p, hasGeometry keysOf cs p = true)
                                     (patterns output))) ∧
        (∃ p, p ∈ patterns output ∧ keysOf p = Ok (Some (cs, ce))) ∧
        (∀ p ce', p ∈ patterns output → keysOf p = Ok (Some (cs, ce')) → ce' = ce) ∧
        minOccurrences ≤ k.
Proof.
  intros Hall. unfold extractPureWith. rewrite (pureStep_foldl _ _ _ Hall). simpl.
  eexists. split; [done|]. intros cs ce k. simpl.
  rewrite arraySort_perm, templatesOf_elem.
  fold (tally (keysList keysOf (patterns output))).
  destruct (tally_spec (keysList keysOf (patterns output))) as [Hnd Hspec].
  specialize (Hspec cs). rewrite <- countOf_keysList. split.
  - intros (sc & n & Hin & E & Hmin & ->).
    rewrite (mapGet_elem _ _ _ Hnd Hin) in Hspec. destruct Hspec as (Hc & _ & Hm).
    rewrite E in Hm. simpl in Hm. split; [done|]. split; [|split; [|lia]].
    + apply (keysList_elem _ _ _ _ Hall), Hm. left.
    + intros p ce' Hp Hk. apply list_elem_of_singleton, Hm.
      apply (keysList_elem _ _ _ _ Hall). eauto.
  - intros (-> & Hex & Huniq & Hmin).
    apply (keysList_elem _ _ _ _ Hall) in Hex.
    destruct (mapGet cs _) as [sc|] eqn:Hget; [|by destruct (Hspec ce)].
    destruct Hspec as (Hc & Hn & Hm).
    assert ((emptiesMap sc).*1 = [ce]) as Hkeys.
    { apply NoDup_all_equal; [done|by apply Hm|].
      intros ce' Hin. apply Hm, (keysList_elem _ _ _ _ Hall) in Hin as (p & Hp & Hk).
      eauto. }
    destruct (emptiesMap sc) as [|[ce0 n] [|]] eqn:E; try discriminate.
    injection Hkeys as ->. exists sc, n.
    split; [by apply mapGet_Some|]. split; [done|]. split; [lia|done].
Qed.

(** The generic [extractPureEntanglements]: the same statement for every
    input, patterns without stars being passed over. *)
Lemma generic_pure_template_iff (output : Output) (minOccurrences : Z) :
  ∃ out, extractPureEntanglements arraySort localeCompare output minOccurrences = Ok out ∧
    ∀ cs ce k,
      mkTemplate cs ce k ∈ pure_entanglement_templates out ↔
        k = Z.of_nat (length (filter (λ p, hasGeometry genericKeys cs p = true)
                                     (patterns output))) ∧
        (∃ p, p ∈ patterns output ∧ genericKeys p = Ok (Some (cs, ce))) ∧
        (∀ p ce', p ∈ patterns output → genericKeys p = Ok (Some (cs, ce')) → ce' = ce) ∧
        minOccurrences ≤ k.
Proof.
  apply extractPureWith_spec, Forall_forall. intros p _. apply genericKeys_total.
Qed.

End PureTemplates.

(** C6.  [extractPureEntanglements] (pureEntanglementExtractor.ts), run on
    patterns of two stars each, returns, and it reports the template
    [(cs, ce)] with [occurrences = k] if and only if [k] is the number of
    input patterns whose stars canonicalise to [cs], some input pattern
    canonicalises to [(cs, ce)], every input pattern with star geometry [cs]
    has the canonical forced-empty value [ce], and [k >= minOccurrences].
    [arraySort] is any sort that permutes its argument. *)
Theorem pure_template_iff
    (arraySort : ∀ A : Type, (A → A → Z) → list A → list A)
    (localeCompare : string → string → Z)
    (output : Output) (minOccurrences : Z) :
  (∀ A cmp l, arraySort A cmp l ≡ₚ l) →
  Forall (λ p, length (initial_stars p) = 2%nat) (patterns output) →
  ∃ out,
    extractPureEntanglements_pair arraySort localeCompare output minOccurrences = Ok out ∧
    ∀ cs ce k,
      mkTemplate cs ce k ∈ pure_entanglement_templates out ↔
        k = Z.of_nat (length (filter (λ p, hasGeometry pairKeys cs p = true)
                                     (patterns output))) ∧
        (∃ p, p ∈ patterns output ∧ pairKeys p = Ok (Some (cs, ce))) ∧
        (∀ p ce', p ∈ patterns output → pairKeys p = Ok (Some (cs, ce')) → ce' = ce) ∧
        minOccurrences ≤ k.
Proof.
  intros Hperm Hpairs. apply extractPureWith_spec; [done|].
  eapply Forall_impl; [exact Hpairs|]. intros p. apply pairKeys_total.
Qed.

(** Two patterns of the 4 x 4 board with one star per row and column: the
    stars (0,1), (1,3) and their mirror image in the main diagonal. *)
Definition cornerPattern : Pattern :=
  mkPattern [mkCell 0 1; mkCell 1 3] 1
            [mkCell 2 1; mkCell 3 0; mkCell 3 1; mkCell 3 3]
            [mkCell 2 0; mkCell 3 2].

Definition mirrorPattern : Pattern :=
  mkPattern [mkCell 1 0; mkCell 3 1] 1
            [mkCell 0 3; mkCell 1 2; mkCell 1 3; mkCell 3 3]
            [mkCell 0 2; mkCell 2 3].

Definition mirroredPatterns : list Pattern := [cornerPattern; mirrorPattern].

Lemma pure_template_iff_witness :
  ∃ out,
    extractPureEntanglements_pair stableSort codeUnitCompare
      (mkOutput 4 1 1 2 2 mirroredPatterns) 2 = Ok out ∧
    ∀ cs ce k,
      mkTemplate cs ce k ∈ pure_entanglement_templates out ↔
        k = Z.of_nat (length (filter (λ p, hasGeometry pairKeys cs p = true)
                                     mirroredPatterns)) ∧
        (∃ p, p ∈ mirroredPatterns ∧ pairKeys p = Ok (Some (cs, ce))) ∧
        (∀ p ce', p ∈ mirroredPatterns → pairKeys p = Ok (Some (cs, ce')) → ce' = ce) ∧
        2 ≤ k.
Proof.
  apply (pure_template_iff stableSort codeUnitCompare (mkOutput 4 1 1 2 2 mirroredPatterns) 2).
  - exact stableSort_perm.
  - repeat constructor.
Defined.

Example extractPure_mirroredPatterns :
  extractPureEntanglements_pair stableSort codeUnitCompare
    (mkOutput 4 1 1 2 2 mirroredPatterns) 2
  = Ok (mkPureOutput 4 2
          [mkTemplate [(0, 0); (1, 2)] [(2, 0); (3, -1); (3, 0); (3, 2)] 2]).
Proof. vm_compute. reflexivity. Qed.

(** ** The search for separating features *)

Lemma forallb_elem {A} (f : A → bool) (l : list A) :
  forallb f l = true ↔ ∀ x, x ∈ l → f x = true.
Proof.
  induction l as [|a l IH]; simpl.
  - split; [|done]. intros _ x Hx. by apply elem_of_nil in Hx.
  - rewrite andb_true_iff, IH. split.
    + intros [Ha Hl] x [->|Hx]%elem_of_cons; auto.
    + intros Hall. split; [apply Hall; left|]. intros x Hx. apply Hall. by right.
Qed.

Lemma existsb_none {A} (f : A → bool) (l : list A) :
  existsb f l = false ↔ ∀ x, x ∈ l → f x = false.
Proof.
  induction l as [|a l IH]; simpl.
  - split; [|done]. intros _ x Hx. by apply elem_of_nil in Hx.
  - rewrite orb_false_iff, IH. split.
    + intros [Ha Hl] x [->|Hx]%elem_of_cons; auto.
    + intros Hall. split; [apply Hall; left|]. intros x Hx. apply Hall. by right.
Qed.

Section RuleSearchFacts.
Context {O : Type} (value : O → string → bool) (featureNames : list string).
Implicit Types (posOccs negOccs : list O).

(** What a list of constraints must do to be reported. *)
Definition separates posOccs negOccs (constraints : list string) : Prop :=
  (∀ occ f, occ ∈ posOccs → f ∈ constraints → value occ f = true) ∧
  (∀ occ, occ ∈ negOccs → ∃ f, f ∈ constraints ∧ value occ f = false).

Lemma separatesAlone_separates posOccs negOccs f :
  separatesAlone value posOccs negOccs f = true → separates posOccs negOccs [f].
Proof.
  unfold separatesAlone. rewrite andb_true_iff, negb_true_iff, forallb_elem, existsb_none.
  intros [Hpos Hneg]. split.
  - intros occ f' Hocc ->%list_elem_of_singleton. by apply Hpos.
  - intros occ Hocc. exists f. split; [left|by apply Hneg].
Qed.

Lemma separatesTogether_separates posOccs negOccs f1 f2 :
  separatesTogether value posOccs negOccs f1 f2 = true →
  separates posOccs negOccs [f1; f2].
Proof.
  unfold separatesTogether.
  rewrite andb_true_iff, negb_true_iff, forallb_elem, existsb_none.
  intros [Hpos Hneg]. split.
  - intros occ f Hocc Hf. specialize (Hpos occ Hocc). apply andb_true_iff in Hpos.
    apply elem_of_cons in Hf as [->|Hf]; [tauto|].
    apply list_elem_of_singleton in Hf as ->. tauto.
  - intros occ Hocc. specialize (Hneg occ Hocc). apply andb_false_iff in Hneg.
    destruct Hneg as [H1|H2].
    + exists f1. split; [left|done].
    + exists f2. split; [right; left|done].
Qed.

Lemma pairSearch_separates posOccs negOccs (pairs : list (string * string)) best :
  best = [] ∨ separates posOccs negOccs best →
  let best' :=
    foldl (λ best '(f1, f2),
             if separatesTogether value posOccs negOccs f1 f2 then
               if bool_decide (length best = 0%nat) || bool_decide (2 < length best)%nat
               then [f1; f2] else best
             else best) best pairs in
  best' = [] ∨ separates posOccs negOccs best'.
Proof.
  revert best. induction pairs as [|[f1 f2] pairs IH]; intros best Hbest; [done|].
  simpl. apply IH.
  destruct (separatesTogether value posOccs negOccs f1 f2) eqn:Hsep; [|done].
  destruct (_ || _); [|done]. right. by apply separatesTogether_separates.
Qed.

Lemma bestConstraints_separates posOccs negOccs :
  bestConstraints value featureNames posOccs negOccs ≠ [] →
  separates posOccs negOccs (bestConstraints value featureNames posOccs negOccs).
Proof.
  unfold bestConstraints.
  destruct (filter _ featureNames) as [|first rest] eqn:E.
  - intros Hne.
    destruct (pairSearch_separates posOccs negOccs (featurePairs featureNames) [])
      as [Hnil|Hsep]; [by left|by destruct Hne|done].
  - intros _. apply separatesAlone_separates.
    assert (first ∈ filter (λ f, separatesAlone value posOccs negOccs f = true)
                           featureNames) as Hin by (rewrite E; left).
    by apply list_elem_of_filter in Hin as [? _].
Qed.

End RuleSearchFacts.

(** ** Grouping *)

(** [if (!m.has(k)) m.set(k, []); m.get(k).push(a)] *)
Definition pushTo {K A} `{EqDecision K} (k : K) (a : A) (m : list (K * list A))
    : list (K * list A) :=
  let m1 := if mapHas k m then m else mapSet k [] m in
  mapSet k (default [] (mapGet k m1) ++ [a]) m1.

Section Grouping.
Context {K A : Type} `{EqDecision K}.

Lemma pushTo_get (k k' : K) (a : A) m :
  mapGet k' (pushTo k a m)
  = if decide (k = k') then Some (default [] (mapGet k m) ++ [a]) else mapGet k' m.
Proof.
  unfold pushTo, mapHas. destruct (mapGet k m) as [l|] eqn:E.
  - rewrite bool_decide_eq_true_2 by eauto. rewrite E. simpl.
    destruct (decide (k = k')) as [->|Hne]; [apply mapGet_mapSet|by apply mapGet_mapSet_ne].
  - rewrite bool_decide_eq_false_2 by (by intros [? [=]]). rewrite mapGet_mapSet. simpl.
    destruct (decide (k = k')) as [->|Hne]; [apply mapGet_mapSet|].
    by rewrite !mapGet_mapSet_ne.
Qed.

Lemma pushTo_NoDup (k : K) (a : A) m : NoDup m.*1 → NoDup (pushTo k a m).*1.
Proof.
  intros Hnd. unfold pushTo. destruct (mapHas k m); by repeat apply NoDup_mapSet.
Qed.

Lemma pushTo_foldl (key : A → K) (l : list A) :
  let g := foldl (λ g a, pushTo (key a) a g) [] l in
  NoDup g.*1 ∧
  ∀ k, match mapGet k g with
       | Some grp => grp = filter (λ a, key a = k) l
       | None => filter (λ a, key a = k) l = []
       end.
Proof.
  induction l as [|a l IH] using rev_ind; [by split; [constructor|]|].
  cbv zeta in *. rewrite foldl_app. simpl. destruct IH as [Hnd IH].
  split; [by apply pushTo_NoDup|]. intros k. rewrite pushTo_get, filter_app.
  destruct (decide (key a = k)) as [Hk|Hk].
  - rewrite filter_cons_True, filter_nil by done. specialize (IH (key a)). rewrite Hk in *.
    destruct (mapGet k _) as [grp|]; simpl; by rewrite IH.
  - rewrite filter_cons_False, filter_nil, app_nil_r by done. apply IH.
Qed.

End Grouping.

Definition groupOf (cs ce : list Point) (occs : list Occurrence) : list Occurrence :=
  filter (λ o, occ_canonical_stars o = cs ∧ occ_canonical_forced_empty o = ce) occs.

Lemma groupOccurrence_get g occ cs' :
  mapGet cs' (groupOccurrence g occ)
  = if decide (occ_canonical_stars occ = cs') then
      Some (pushTo (occ_canonical_forced_empty occ) occ
                   (default [] (mapGet (occ_canonical_stars occ) g)))
    else mapGet cs' g.
Proof.
  unfold groupOccurrence, mapHas.
  destruct (mapGet (occ_canonical_stars occ) g) as [em|] eqn:E.
  - rewrite bool_decide_eq_true_2 by eauto. rewrite E. cbv beta iota zeta.
    destruct (decide (occ_canonical_stars occ = cs')) as [<-|Hne].
    + apply mapGet_mapSet.
    + by apply mapGet_mapSet_ne.
  - rewrite bool_decide_eq_false_2 by (by intros [? [=]]). rewrite mapGet_mapSet.
    cbv beta iota zeta.
    destruct (decide (occ_canonical_stars occ = cs')) as [<-|Hne].
    + apply mapGet_mapSet.
    + by rewrite !mapGet_mapSet_ne.
Qed.

Lemma groupOccurrence_NoDup g occ : NoDup g.*1 → NoDup (groupOccurrence g occ).*1.
Proof.
  intros Hnd. unfold groupOccurrence. destruct (mapHas _ g).
  - destruct (mapGet _ g); [by apply NoDup_mapSet|done].
  - rewrite mapGet_mapSet. by repeat apply NoDup_mapSet.
Qed.

Lemma starGroups_spec (occs : list Occurrence) :
  let g := foldl groupOccurrence [] occs in
  NoDup g.*1 ∧
  ∀ cs, match mapGet cs g with
        | Some em =>
            NoDup em.*1 ∧
            ∀ ce, match mapGet ce em with
                  | Some l => l = groupOf cs ce occs
                  | None => groupOf cs ce occs = []
                  end
        | None => ∀ ce, groupOf cs ce occs = []
        end.
Proof.
  induction occs as [|occ occs IH] using rev_ind; [by split; [constructor|]|].
  cbv zeta in *. rewrite foldl_app. simpl. destruct IH as [Hnd IH].
  split; [by apply groupOccurrence_NoDup|]. intros cs. rewrite groupOccurrence_get.
  unfold groupOf in *.
  destruct (decide (occ_canonical_stars occ = cs)) as [Hcs|Hcs].
  - specialize (IH cs). rewrite Hcs.
    assert (NoDup (default [] (mapGet cs (foldl groupOccurrence [] occs))).*1 ∧
            ∀ ce, match mapGet ce (default [] (mapGet cs (foldl groupOccurrence [] occs))) with
                  | Some l => l = filter (λ o, occ_canonical_stars o = cs
                                               ∧ occ_canonical_forced_empty o = ce) occs
                  | None => filter (λ o, occ_canonical_stars o = cs
                                         ∧ occ_canonical_forced_empty o = ce) occs = []
                  end) as [Hn Hm].
    { destruct (mapGet cs _) as [em|]; [done|]. simpl. split; [constructor|done]. }
    split; [by apply pushTo_NoDup|]. intros ce. rewrite pushTo_get, filter_app.
    destruct (decide (occ_canonical_forced_empty occ = ce)) as [Hce|Hce].
    + rewrite filter_cons_True, filter_nil by done. specialize (Hm ce). rewrite Hce.
      destruct (mapGet ce _) as [l|]; simpl; by rewrite Hm.
    + rewrite filter_cons_False, filter_nil, app_nil_r by tauto. apply Hm.
  - specialize (IH cs).
    destruct (mapGet cs _) as [em|].
    + destruct IH as [Hn Hm]. split; [done|]. intros ce. rewrite filter_app.
      rewrite filter_cons_False, filter_nil, app_nil_r by tauto. apply Hm.
    + intros ce. rewrite filter_app.
      rewrite filter_cons_False, filter_nil, app_nil_r by tauto. apply IH.
Qed.

(** ** Constrained rules separate their occurrences *)

Lemma rulesOfGroup_constrained featureNames minOccurrences cs
    (em : list (list Point * list Occurrence)) rule :
  rule ∈ (rulesOfGroup featureNames minOccurrences cs em).2 →
  ∃ ce, ce ∈ em.*1 ∧
    rule_canonical_stars rule = cs ∧
    rule_canonical_forced_empty rule = ce ∧
    constraint_features rule ≠ [] ∧
    constraint_features rule
    = bestConstraints (λ occ f, featureValue (extra_features occ) f) featureNames
        (default [] (mapGet ce em))
        ('(ce', l) ← em; if decide (ce' ≠ ce) then l else []).
Proof.
  intros Hin.
  assert (rule ∈
    (emptiesKey ← em.*1;
     let posOccs := default [] (mapGet emptiesKey em) in
     if bool_decide (Z.of_nat (length posOccs) < minOccurrences) then []
     else
       let negOccs :=
         '(otherEmptiesKey, otherOccs) ← em;
         if decide (otherEmptiesKey ≠ emptiesKey) then otherOccs else [] in
       if bool_decide (length negOccs = 0%nat) then []
       else
         let best :=
           bestConstraints (λ occ f, featureValue (extra_features occ) f)
                           featureNames posOccs negOccs in
         if bool_decide (0 < length best)%nat
         then [mkConstrainedRule cs emptiesKey best (Z.of_nat (length posOccs))]
         else [])) as Hin'.
  { unfold rulesOfGroup in Hin. destruct em as [|[k l] [|e2 em']]; cbn [snd] in Hin.
    - done.
    - by apply elem_of_nil in Hin.
    - done. }
  clear Hin. apply list_elem_of_bind in Hin' as (ce & Hin & Hce).
  exists ce. split; [done|]. cbv zeta in Hin.
  destruct (bool_decide (_ < minOccurrences)); [by apply elem_of_nil in Hin|].
  destruct (bool_decide (length _ = 0%nat)); [by apply elem_of_nil in Hin|].
  destruct (bool_decide (0 < length _)%nat) eqn:Hlen; [|by apply elem_of_nil in Hin].
  apply list_elem_of_singleton in Hin as ->. simpl.
  repeat split. intros E. apply bool_decide_eq_true in Hlen. rewrite E in Hlen.
  simpl in Hlen. lia.
Qed.

(** [separatesConstrained occs out]: each constrained rule of [out] holds
    of the occurrences of its canonical group with its forced-empty value
    and fails on the other occurrences of the group. *)
Definition separatesConstrained (occs : list Occurrence)
    (out : ConstrainedEntanglementOutput) : Prop :=
  ∀ rule o,
    rule ∈ constrained_rules out → o ∈ occs →
    occ_canonical_stars o = rule_canonical_stars rule →
    (occ_canonical_forced_empty o = rule_canonical_forced_empty rule →
     ∀ f, f ∈ constraint_features rule → featureValue (extra_features o) f = true) ∧
    (occ_canonical_forced_empty o ≠ rule_canonical_forced_empty rule →
     ∃ f, f ∈ constraint_features rule ∧ featureValue (extra_features o) f = false).

Section ConstrainedRules.
Context (arraySort : ∀ A : Type, (A → A → Z) → list A → list A).
Context (localeCompare : string → string → Z).
Hypothesis arraySort_perm : ∀ A cmp l, arraySort A cmp l ≡ₚ l.

Lemma mineConstrainedWith_separates occurrenceOfPattern featureNames
    (output : Output) (minOccurrences : Z) (occs : list Occurrence) :
  collect (occurrenceOfPattern (board_size output)) (patterns output) = Ok occs →
  ∃ out,
    mineConstrainedWith arraySort localeCompare occurrenceOfPattern featureNames
                        output minOccurrences = Ok out ∧
    separatesConstrained occs out.
Proof.
  intros Hocc. unfold mineConstrainedWith. rewrite Hocc. simpl.
  eexists. split; [done|]. intros rule o Hr Ho Hcs. simpl in Hr.
  rewrite arraySort_perm in Hr.
  apply list_elem_of_bind in Hr as (pr & Hr & Hpr).
  apply list_elem_of_fmap in Hpr as ([cs em] & -> & Hg).
  apply rulesOfGroup_constrained in Hr as (ce & Hce & Hrcs & Hrce & Hne & Hbest).
  destruct (starGroups_spec occs) as [Hnd Hspec]. cbv zeta in Hnd, Hspec.
  specialize (Hspec cs). rewrite (mapGet_elem _ _ _ Hnd Hg) in Hspec.
  destruct Hspec as [Hn Hm].
  rewrite Hbest in Hne. apply bestConstraints_separates in Hne as [Hpos Hneg].
  rewrite <- Hbest in Hpos, Hneg. rewrite Hrcs in Hcs. rewrite Hrce. split.
  - intros Hoce f Hf. apply (Hpos o f); [|done].
    apply mapHas_spec in Hce. unfold mapHas in Hce. apply bool_decide_eq_true in Hce.
    destruct Hce as [l Hl]. rewrite Hl. simpl. pose proof (Hm ce) as Hmce.
    rewrite Hl in Hmce. subst l. apply list_elem_of_filter. by repeat split.
  - intros Hoce. apply Hneg. apply list_elem_of_bind.
    pose proof (Hm (occ_canonical_forced_empty o)) as Hmo.
    assert (o ∈ groupOf cs (occ_canonical_forced_empty o) occs) as Hog
      by (apply list_elem_of_filter; by repeat split).
    destruct (mapGet (occ_canonical_forced_empty o) em) as [l|] eqn:Hl.
    + exists (occ_canonical_forced_empty o, l). split; [|by apply mapGet_Some].
      rewrite decide_True by done. by subst l.
    + rewrite Hmo in Hog. by apply elem_of_nil in Hog.
Qed.

End ConstrainedRules.

Lemma collect_snoc {A B} (f : A → result (list B)) (l : list A) (a : A) :
  collect f (l ++ [a]) = rbind (collect f l) (λ done, rbind (f a) (λ new, Ok (done ++ new))).
Proof. unfold collect. by rewrite foldl_app. Qed.

Lemma collect_total {A B} (f : A → result (list B)) (l : list A) :
  (∀ a, a ∈ l → ∃ bs, f a = Ok bs) → ∃ bs, collect f l = Ok bs.
Proof.
  induction l as [|a l IH] using rev_ind; intros Hall; [by eexists|].
  rewrite collect_snoc. destruct IH as [bs ->].
  { intros x Hx. apply Hall, elem_of_app. by left. }
  destruct (Hall a) as [new ->]; [apply elem_of_app; right; left|]. by eexists.
Qed.

Lemma occurrenceOf_pair_total boardSize (p : Pattern) :
  ∃ occs, occurrenceOf_pair boardSize p = Ok occs.
Proof.
  unfold occurrenceOf_pair.
  destruct (toPoint <$> initial_stars p) as [|a [|b [|c l]]]; try by eexists.
  rewrite canonicalizeStars_canonicalize.
  destruct (canonicalize_spec [a; b] []) as (r & tf & -> & _); [done|].
  simpl. by eexists.
Qed.

(** ** Triple rules separate forced from flexible occurrences *)

Lemma tripleRulesOfGroup_constrained variant minOccurrences key
    (occurrences : list TripleOccurrence) rule :
  rule ∈ (tripleRulesOfGroup variant minOccurrences key occurrences).2 →
  tr_canonical_stars rule = key.1 ∧
  tr_canonical_candidate rule = key.2 ∧
  tr_constraint_features rule ≠ [] ∧
  tr_constraint_features rule
  = bestConstraints (λ occ f, featureValue (t_extra_features occ) f)
      (featureNamesOf variant)
      (filter (λ occ, is_forced occ = true) occurrences)
      (filter (λ occ, is_forced occ = false) occurrences).
Proof.
  unfold tripleRulesOfGroup. cbv zeta.
  destruct (bool_decide (_ < minOccurrences)); [by intros ?%elem_of_nil|].
  destruct (bool_decide (length _ = 0%nat)); [by intros ?%elem_of_nil|].
  destruct (bool_decide (0 < length _)%nat) eqn:Hlen; [|by intros ?%elem_of_nil].
  cbn [snd]. intros ->%list_elem_of_singleton. simpl.
  repeat split. intros E. apply bool_decide_eq_true in Hlen. rewrite E in Hlen.
  simpl in Hlen. lia.
Qed.

(** [separatesTriples sample out]: each constrained rule of [out] holds of
    the forced occurrences of its canonical triple and fails on the flexible
    ones. *)
Definition separatesTriples (sample : list TripleOccurrence)
    (out : TripleEntanglementOutput) : Prop :=
  ∀ rule o,
    rule ∈ te_constrained_rules out → o ∈ sample →
    tripleKeyOf o = (tr_canonical_stars rule, tr_canonical_candidate rule) →
    (is_forced o = true →
     ∀ f, f ∈ tr_constraint_features rule → featureValue (t_extra_features o) f = true) ∧
    (is_forced o = false →
     ∃ f, f ∈ tr_constraint_features rule ∧ featureValue (t_extra_features o) f = false).

Section TripleRules.
Context (arraySort : ∀ A : Type, (A → A → Z) → list A → list A).
Context (localeCompare : string → string → Z).
Hypothesis arraySort_perm : ∀ A cmp l, arraySort A cmp l ≡ₚ l.

Lemma mineTripleWith_separates variant solutions (output : Output) (minOccurrences : Z) :
  match tripleOccurrencesOf variant solutions output with
  | Ok sample =>
      ∃ out, mineTripleWith arraySort localeCompare variant solutions output minOccurrences
             = Ok out ∧ separatesTriples sample out
  | Throw msg =>
      mineTripleWith arraySort localeCompare variant solutions output minOccurrences
      = Throw msg
  end.
Proof.
  unfold mineTripleWith.
  destruct (tripleOccurrencesOf variant solutions output) as [sample|msg]; [|done].
  simpl. eexists. split; [done|]. intros rule o Hr Ho Hkey. simpl in Hr.
  rewrite arraySort_perm in Hr.
  apply list_elem_of_bind in Hr as (pr & Hr & Hpr).
  apply list_elem_of_fmap in Hpr as ([key grp] & -> & Hg).
  apply tripleRulesOfGroup_constrained in Hr as (Hs & Hc & Hne & Hbest).
  destruct (pushTo_foldl tripleKeyOf sample) as [Hnd Hspec]. cbv zeta in Hnd, Hspec.
  change (foldl groupTriple [] sample)
    with (foldl (λ g a, pushTo (tripleKeyOf a) a g) [] sample) in Hg.
  specialize (Hspec key). rewrite (mapGet_elem _ _ _ Hnd Hg) in Hspec.
  rewrite Hbest in Hne. apply bestConstraints_separates in Hne as [Hpos Hneg].
  rewrite <- Hbest in Hpos, Hneg.
  assert (o ∈ grp) as Hin.
  { rewrite Hspec. apply list_elem_of_filter. split; [|done].
    rewrite Hkey, Hs, Hc. by destruct key. }
  split.
  - intros Hf f Hfin. apply (Hpos o f); [|done]. by apply list_elem_of_filter.
  - intros Hf. apply Hneg. by apply list_elem_of_filter.
Qed.

End TripleRules.

(** C7.  Every constrained rule that the two-star miners emit holds of all
    positive occurrences of its canonical group (all listed features are
    true) and fails on every negative occurrence of that group (one listed
    feature is false).  For [mineConstrainedEntanglements] the group is
    the set of occurrences with the rule's canonical stars, positive when
    they have the rule's canonical forced-empty value; for
    [mineTripleEntanglements] the group is the set of occurrences of the
    rule's canonical triple, positive when the candidate is forced.
    [arraySort] is any sort that permutes its argument. *)
Theorem constrained_rules_separate
    (arraySort : ∀ A : Type, (A → A → Z) → list A → list A)
    (localeCompare : string → string → Z)
    (solutions : list Grid) (output : Output) (minOccurrences : Z) :
  (∀ A cmp l, arraySort A cmp l ≡ₚ l) →
  (∃ occs out,
     collect (occurrenceOf_pair (board_size output)) (patterns output) = Ok occs ∧
     mineConstrainedEntanglements_pair arraySort localeCompare output minOccurrences
     = Ok out ∧
     separatesConstrained occs out) ∧
  match tripleOccurrencesOf pairVariant solutions output with
  | Ok sample =>
      ∃ out,
        mineTripleEntanglements_pair arraySort localeCompare solutions output minOccurrences
        = Ok out ∧
        separatesTriples sample out
  | Throw msg =>
      mineTripleEntanglements_pair arraySort localeCompare solutions output minOccurrences
      = Throw msg
  end.
Proof.
  intros Hperm. split.
  - destruct (collect_total (occurrenceOf_pair (board_size output)) (patterns output))
      as [occs Hocc].
    { intros p _. apply occurrenceOf_pair_total. }
    destruct (mineConstrainedWith_separates arraySort localeCompare Hperm
                occurrenceOf_pair getFeatureNames_pair output minOccurrences occs Hocc)
      as (out & Hout & Hsep).
    by exists occs, out.
  - by apply mineTripleWith_separates.
Qed.

(** Two patterns of the 5 x 5 board with one star per row and column that
    share the star geometry (0,0), (1,3) and differ in their forced-empty
    cells, and one pattern whose stars leave two solutions. *)
Definition shiftedPatterns : list Pattern :=
  [ mkPattern [mkCell 0 0; mkCell 1 3] 1
      [mkCell 2 0; mkCell 3 0; mkCell 3 1; mkCell 3 2; mkCell 3 3; mkCell 4 0;
       mkCell 4 1; mkCell 4 3; mkCell 4 4]
      [mkCell 2 1; mkCell 3 4; mkCell 4 2];
    mkPattern [mkCell 0 1; mkCell 1 4] 1
      [mkCell 2 0; mkCell 2 1; mkCell 3 1; mkCell 3 2; mkCell 3 3; mkCell 3 4;
       mkCell 4 0; mkCell 4 1; mkCell 4 2; mkCell 4 4]
      [mkCell 2 2; mkCell 3 0; mkCell 4 3] ].

Definition openPattern : Pattern :=
  mkPattern [mkCell 0 3; mkCell 1 1] 2
    [mkCell 2 3; mkCell 3 1; mkCell 3 3; mkCell 3 4; mkCell 4 1; mkCell 4 3; mkCell 4 4]
    [mkCell 2 4].

Definition solutions_5_1 : list Grid := default [] (enumerate 5 1).

Lemma constrained_rules_separate_witness :
  (∃ occs out,
     collect (occurrenceOf_pair 5) (shiftedPatterns ++ [openPattern]) = Ok occs ∧
     mineConstrainedEntanglements_pair stableSort codeUnitCompare
       (mkOutput 5 1 1 2 14 (shiftedPatterns ++ [openPattern])) 1 = Ok out ∧
     separatesConstrained occs out) ∧
  match tripleOccurrencesOf pairVariant solutions_5_1
          (mkOutput 5 1 1 2 14 (shiftedPatterns ++ [openPattern])) with
  | Ok sample =>
      ∃ out,
        mineTripleEntanglements_pair stableSort codeUnitCompare solutions_5_1
          (mkOutput 5 1 1 2 14 (shiftedPatterns ++ [openPattern])) 1 = Ok out ∧
        separatesTriples sample out
  | Throw msg =>
      mineTripleEntanglements_pair stableSort codeUnitCompare solutions_5_1
        (mkOutput 5 1 1 2 14 (shiftedPatterns ++ [openPattern])) 1 = Throw msg
  end.
Proof.
  apply (constrained_rules_separate stableSort codeUnitCompare solutions_5_1
           (mkOutput 5 1 1 2 14 (shiftedPatterns ++ [openPattern])) 1).
  exact stableSort_perm.
Defined.

Example analyzePattern_openPattern :
  analyzePattern 5 solutions_5_1 false [mkCell 0 3; mkCell 1 1] = Some openPattern.
Proof. vm_compute. reflexivity. Qed.

Example mineConstrained_shiftedPatterns :
  constrained_rules <$>
    mineConstrainedEntanglements_pair stableSort codeUnitCompare
      (mkOutput 5 1 1 2 14 shiftedPatterns) 1
  = Ok [ mkConstrainedRule [(0, 0); (1, 3)]
           [(2, 0); (3, 0); (3, 1); (3, 2); (3, 3); (4, 0); (4, 1); (4, 3); (4, 4)]
           ["star0_on_left_edge"] 1;
         mkConstrainedRule [(0, 0); (1, 3)]
           [(2, -1); (2, 0); (3, 0); (3, 1); (3, 2); (3, 3); (4, -1); (4, 0); (4, 1); (4, 3)]
           ["star1_on_right_edge"] 1 ].
Proof. vm_compute. reflexivity. Qed.

Example mineTriple_openPattern :
  te_constrained_rules <$>
    mineTripleEntanglements_pair stableSort codeUnitCompare solutions_5_1
      (mkOutput 5 1 1 2 14 [openPattern]) 1
  = Ok [ mkTripleRule [(0, 0); (1, 2)] (-3, 3) ["candidate_on_right_edge"] true 2 ].
Proof. vm_compute. reflexivity. Qed.

(** The selection loop of the later triple miner keeps a feature that one
    negative occurrence lacks; another negative occurrence may have it. *)
Example chosenFeatures_do_not_separate :
  let value := λ (o : list (string * JSValue)) f, featureValue o f in
  let pos := [[("candidate_on_top_edge", JBool true)]] in
  let neg := [[("candidate_on_top_edge", JBool false)];
              [("candidate_on_top_edge", JBool true)]] in
  chosenFeatures value ["candidate_on_top_edge"] pos neg = ["candidate_on_top_edge"] ∧
  ¬ separates value pos neg ["candidate_on_top_edge"].
Proof.
  cbv zeta. split; [done|]. intros [_ Hneg].
  destruct (Hneg [("candidate_on_top_edge", JBool true)]) as (f & Hf & Hv).
  - right. left.
  - apply list_elem_of_singleton in Hf as ->. done.
Qed.

(** ** Patterns that a miner does not take *)

Lemma foldl_skip {A S} (step : S → A → S) (keep : A → bool) (l : list A) (s : S) :
  (∀ s a, keep a = false → step s a = s) →
  foldl step s l = foldl step s (filter (λ a, keep a = true) l).
Proof.
  intros Hskip. revert s. induction l as [|a l IH]; intros s; [done|].
  simpl. destruct (keep a) eqn:Hk.
  - rewrite filter_cons_True by done. simpl. apply IH.
  - rewrite filter_cons_False by (rewrite Hk; done). rewrite Hskip by done. apply IH.
Qed.

Lemma collect_skip {A B} (f : A → result (list B)) (keep : A → bool) (l : list A) :
  (∀ a, keep a = false → f a = Ok []) →
  collect f l = collect f (filter (λ a, keep a = true) l).
Proof.
  intros Hskip. unfold collect. apply foldl_skip. intros acc a Hk.
  rewrite (Hskip a Hk). destruct acc as [items|msg]; simpl; [|done].
  by rewrite app_nil_r.
Qed.

Lemma pureStep_skip keysOf (keep : Pattern → bool) (ps : list Pattern) :
  (∀ p, keep p = false → keysOf p = Ok None) →
  foldl (pureStep keysOf) (Ok []) ps
  = foldl (pureStep keysOf) (Ok []) (filter (λ p, keep p = true) ps).
Proof.
  intros Hskip. apply foldl_skip. intros acc p Hk. unfold pureStep.
  rewrite (Hskip p Hk). by destruct acc.
Qed.

(** The star counts that the miners take. *)
Definition hasStars (p : Pattern) : bool :=
  negb (bool_decide (length (initial_stars p) = 0%nat)).

Definition hasTwoStars (p : Pattern) : bool :=
  bool_decide (length (initial_stars p) = 2%nat).

Lemma genericKeys_skip p : hasStars p = false → genericKeys p = Ok None.
Proof.
  unfold hasStars, genericKeys. rewrite negb_false_iff, bool_decide_eq_true.
  intros Hlen. rewrite length_fmap. by rewrite decide_True.
Qed.

Lemma occurrenceOf_skip boardSize p : hasStars p = false → occurrenceOf boardSize p = Ok [].
Proof.
  unfold hasStars, occurrenceOf. rewrite negb_false_iff, bool_decide_eq_true.
  intros Hlen. rewrite length_fmap. by rewrite decide_True.
Qed.

Lemma occurrenceOf_pair_skip boardSize p :
  hasTwoStars p = false → occurrenceOf_pair boardSize p = Ok [].
Proof.
  unfold hasTwoStars, occurrenceOf_pair. rewrite bool_decide_eq_false.
  by destruct (initial_stars p) as [|a [|b [|c l]]].
Qed.

Lemma triplesOfPattern_skip variant solutions boardSize p :
  supported variant p = false → triplesOfPattern variant solutions boardSize p = Ok [].
Proof. unfold triplesOfPattern. by intros ->. Qed.

Lemma occurrenceOf_total boardSize (p : Pattern) :
  ∃ occs, occurrenceOf boardSize p = Ok occs.
Proof.
  unfold occurrenceOf, extractFeatures.
  destruct (decide _) as [?|Hne]; [by eexists|].
  destruct (canonicalize_spec (toPoint <$> initial_stars p)
              (toPoint <$> forced_empty_cells p)) as (r & tf & -> & _).
  { intros E. by rewrite E in Hne. }
  simpl. by eexists.
Qed.

Lemma mineConstrainedWith_total arraySort localeCompare occurrenceOfPattern featureNames
    (output : Output) (minOccurrences : Z) :
  (∀ p, ∃ occs, occurrenceOfPattern (board_size output) p = Ok occs) →
  ∃ out, mineConstrainedWith arraySort localeCompare occurrenceOfPattern featureNames
           output minOccurrences = Ok out.
Proof.
  intros Htotal. unfold mineConstrainedWith.
  destruct (collect_total (occurrenceOfPattern (board_size output)) (patterns output))
    as [occs ->]; [by intros p _|].
  simpl. by eexists.
Qed.

Lemma mineTripleWith_skip arraySort localeCompare variant solutions
    (output : Output) (minOccurrences : Z) :
  mineTripleWith arraySort localeCompare variant solutions output minOccurrences
  = mineTripleWith arraySort localeCompare variant solutions
      (withPatterns output (filter (λ p, supported variant p = true) (patterns output)))
      minOccurrences.
Proof.
  unfold mineTripleWith, tripleOccurrencesOf. simpl.
  by rewrite (collect_skip _ (supported variant) (patterns output))
    by (intros p; apply triplesOfPattern_skip).
Qed.

(** C10.  The miners pass over the patterns whose star count they do not
    take: the generic [extractPureEntanglements],
    [mineConstrainedEntanglements] and [mineTripleEntanglements] give the
    result they give on the input without its star-less patterns, the
    two-star [mineConstrainedEntanglements] and [mineTripleEntanglements]
    the result they give on the input without the patterns that do not have
    two stars.  Such a pattern raises nothing: the pure extractor and the two
    constrained miners return on every input. *)
Theorem unsupported_patterns_are_skipped
    (arraySort : ∀ A : Type, (A → A → Z) → list A → list A)
    (localeCompare : string → string → Z)
    (solutions : list Grid) (output : Output) (minOccurrences : Z) :
  let withStars := withPatterns output (filter (λ p, hasStars p = true) (patterns output)) in
  let withPairs := withPatterns output (filter (λ p, hasTwoStars p = true) (patterns output)) in
  (extractPureEntanglements arraySort localeCompare output minOccurrences
   = extractPureEntanglements arraySort localeCompare withStars minOccurrences ∧
   ∃ out, extractPureEntanglements arraySort localeCompare output minOccurrences = Ok out) ∧
  (mineConstrainedEntanglements arraySort localeCompare output minOccurrences
   = mineConstrainedEntanglements arraySort localeCompare withStars minOccurrences ∧
   ∃ out, mineConstrainedEntanglements arraySort localeCompare output minOccurrences
          = Ok out) ∧
  mineTripleEntanglements arraySort localeCompare solutions output minOccurrences
  = mineTripleEntanglements arraySort localeCompare solutions withStars minOccurrences ∧
  (mineConstrainedEntanglements_pair arraySort localeCompare output minOccurrences
   = mineConstrainedEntanglements_pair arraySort localeCompare withPairs minOccurrences ∧
   ∃ out, mineConstrainedEntanglements_pair arraySort localeCompare output minOccurrences
          = Ok out) ∧
  mineTripleEntanglements_pair arraySort localeCompare solutions output minOccurrences
  = mineTripleEntanglements_pair arraySort localeCompare solutions withPairs minOccurrences.
Proof.
  cbv zeta. repeat split.
  - unfold extractPureEntanglements, extractPureWith. simpl.
    by rewrite (pureStep_skip genericKeys hasStars) by apply genericKeys_skip.
  - unfold extractPureEntanglements, extractPureWith.
    rewrite (pureStep_foldl genericKeys (patterns output) []).
    + simpl. by eexists.
    + apply Forall_forall. intros p _. apply genericKeys_total.
  - unfold mineConstrainedEntanglements, mineConstrainedWith. simpl.
    by rewrite (collect_skip _ hasStars (patterns output))
      by (intros p; apply occurrenceOf_skip).
  - apply mineConstrainedWith_total. intros p. apply occurrenceOf_total.
  - apply (mineTripleWith_skip arraySort localeCompare genericVariant).
  - unfold mineConstrainedEntanglements_pair, mineConstrainedWith. simpl.
    by rewrite (collect_skip _ hasTwoStars (patterns output))
      by (intros p; apply occurrenceOf_pair_skip).
  - apply mineConstrainedWith_total. intros p. apply occurrenceOf_pair_total.
  - apply (mineTripleWith_skip arraySort localeCompare pairVariant).
Qed.

Example mineConstrained_skips :
  mineConstrainedEntanglements_pair stableSort codeUnitCompare
    (mkOutput 5 1 1 2 14
       (mkPattern [] 14 [] [] :: mkPattern [mkCell 0 0] 2 [mkCell 1 1] [] :: shiftedPatterns))
    1
  = mineConstrainedEntanglements_pair stableSort codeUnitCompare
      (mkOutput 5 1 1 2 14 shiftedPatterns) 1.
Proof. vm_compute. reflexivity. Qed.

(** ** The occurrence sample of the triple miners *)

Definition solutions_4_1 : list Grid :=
  [ [[0; 1; 0; 0]; [0; 0; 0; 1]; [1; 0; 0; 0]; [0; 0; 1; 0]];
    [[0; 0; 1; 0]; [1; 0; 0; 0]; [0; 0; 0; 1]; [0; 1; 0; 0]] ].

Global Instance TripleRule_eq_dec : EqDecision TripleRule.
Proof. solve_decision. Defined.



(** The two-star [canonicalizeTriple] compares the stars together with the
    candidate; the generic one compares the stars alone.  A star pair that
    is its own mirror image shows the difference. *)
Example canonicalizeTriple_keys :
  ct_canonicalCandidate <$> canonicalizeTriple_pair [(0, 0); (2, 2)] (0, 1) = Ok (0, 1) ∧
  ct_canonicalCandidate <$> canonicalizeTriple_pair [(0, 0); (2, 2)] (1, 0) = Ok (0, 1) ∧
  ct_canonicalCandidate <$> canonicalizeTriple [(0, 0); (2, 2)] (0, 1) = Ok (0, 1) ∧
  ct_canonicalCandidate <$> canonicalizeTriple [(0, 0); (2, 2)] (1, 0) = Ok (1, 0).
Proof. repeat split; vm_compute; reflexivity. Qed.

End MinerFacts.

Module AnalyzerProperties.
Import Enumeration Configuration Analyzer AnalyzerSpec EnumerationFacts AnalyzerFacts.

(** ** What [analyzePattern] returns *)

Lemma cell_off_pattern (pattern : list Cell) r c :
  keyOf (cellAt r c) ∉ patternSetOf pattern ↔ cellAt r c ∉ pattern.
Proof.
  rewrite patternSet_elem. split.
  - intros Hno Hin. apply Hno. by exists (cellAt r c).
  - intros Hno (p & Hp & Hk). apply Hno. destruct p as [pr pc].
    unfold keyOf, cellAt in *. simpl in Hk. injection Hk as -> ->. done.
Qed.

Lemma cellAt_inj r c r' c' : cellAt r c = cellAt r' c' → r = r' ∧ c = c'.
Proof. unfold cellAt. intros [= ?%Nat2Z.inj ?%Nat2Z.inj]. done. Qed.

Lemma configuration_cell N S (g : Grid) r c :
  isConfiguration N S g → (r < N)%nat → (c < N)%nat →
  gridAt g r c = Some 0 ∨ gridAt g r c = Some 1.
Proof.
  intros (Hwf & Hbin & _) Hr Hc.
  destruct (gridAt_wellFormed N g r c Hwf Hr Hc) as [v Hv].
  specialize (Hbin r c Hr Hc). unfold cellValue in Hbin. rewrite Hv in *.
  simpl in Hbin. destruct Hbin as [->| ->]; auto.
Qed.

Section Classification.
Context (N : nat) (S : Z) (solutions : list Grid) (pattern : list Cell).
Hypothesis solutions_valid : ∀ sol, sol ∈ solutions → isConfiguration N S sol.
Hypothesis realizable : compatibleWith solutions pattern ≠ [].

Lemma compatible_valid sol :
  sol ∈ compatibleWith solutions pattern → isConfiguration N S sol.
Proof. intros [Hin _]%compatibleWith_elem. by apply solutions_valid. Qed.

Lemma classify_forced_empty r c :
  (r < N)%nat → (c < N)%nat → keyOf (cellAt r c) ∉ patternSetOf pattern →
  classify N pattern (compatibleWith solutions pattern) r c = forced_empty ↔
  ∀ sol, sol ∈ compatibleWith solutions pattern → gridAt sol r c = Some 0.
Proof.
  intros Hr Hc Hoff. unfold classify. rewrite (isInPattern_false pattern r c Hoff).
  assert ((∀ sol, sol ∈ compatibleWith solutions pattern → gridAt sol r c = Some 0) ↔
          Forall (λ sol, gridAt sol r c ≠ Some 1) (compatibleWith solutions pattern))
    as ->.
  { rewrite Forall_forall. split; intros H sol Hsol.
    - rewrite (H sol Hsol). discriminate.
    - destruct (configuration_cell N S sol r c (compatible_valid sol Hsol) Hr Hc)
        as [?|?]; [done|]. by destruct (H sol Hsol). }
  rewrite <- starCount_zero.
  destruct (decide (keyOf (cellAt r c) ∈ adjacentKeys N pattern)) as [Hadj|Hadj].
  - split; [intros _|done]. apply starCount_zero, Forall_forall. intros sol Hsol.
    by apply (adjacent_cell_empty N solutions S pattern r c sol);
      [apply compatible_valid| |].
  - destruct (decide (starCountAt _ r c = 0%nat)); [done|].
    destruct (decide (starCountAt _ r c = length _)); split; done.
Qed.

Lemma classify_forced_star r c :
  (r < N)%nat → (c < N)%nat → keyOf (cellAt r c) ∉ patternSetOf pattern →
  classify N pattern (compatibleWith solutions pattern) r c = forced_star ↔
  ∀ sol, sol ∈ compatibleWith solutions pattern → gridAt sol r c = Some 1.
Proof.
  intros Hr Hc Hoff. unfold classify. rewrite (isInPattern_false pattern r c Hoff).
  rewrite <- Forall_forall, <- starCount_all.
  destruct (compatibleWith solutions pattern) as [|sol0 rest] eqn:Hcompat; [done|].
  rewrite <- Hcompat in *.
  destruct (decide (keyOf (cellAt r c) ∈ adjacentKeys N pattern)) as [Hadj|Hadj].
  - split; [done|]. intros Hall. apply starCount_all in Hall.
    rewrite Forall_forall in Hall.
    assert (sol0 ∈ compatibleWith solutions pattern) as H0 by (rewrite Hcompat; left).
    destruct (adjacent_cell_empty N solutions S pattern r c sol0); auto.
    by apply compatible_valid.
  - destruct (decide (starCountAt _ r c = 0%nat)) as [Hz|Hz].
    + split; [done|]. intros Hall. rewrite Hz in Hall. rewrite Hcompat in Hall.
      discriminate.
    + destruct (decide (starCountAt _ r c = length _)); split; done.
Qed.

End Classification.

Lemma explained_iff N (pattern : list Cell) r c :
  let firstRow := match pattern with p :: _ => row p | [] => -1 end in
  let firstCol := match pattern with p :: _ => col p | [] => -1 end in
  let allSameRow := bool_decide (0 < length pattern)%nat && allSameRowAs pattern firstRow in
  let allSameCol := bool_decide (0 < length pattern)%nat && allSameColAs pattern firstCol in
  negb (bool_decide (keyOf (cellAt r c) ∈ adjacentKeys N pattern))
  && negb ((allSameRow && bool_decide (row (cellAt r c) = firstRow))
           || (allSameCol && bool_decide (col (cellAt r c) = firstCol))) = true
  ↔ ¬ explained N pattern r c.
Proof.
  cbv zeta. unfold explained, onCommonRow, onCommonCol, allSameRowAs, allSameColAs.
  rewrite andb_true_iff, !negb_true_iff, orb_false_iff, !andb_false_iff.
  rewrite !bool_decide_eq_false. simpl.
  destruct pattern as [|p0 rest].
  - simpl. split; [|intros H; split; [tauto|split; left; left; lia]].
    intros [Hadj _] [?|[[? _]|[? _]]]; done.
  - assert (∀ (f : Cell → Z) (v : Z),
        forallb (λ q, bool_decide (f q = f p0)) (p0 :: rest) = true ∧ v = f p0
        ↔ ∀ q, q ∈ p0 :: rest → f q = v) as Hline.
    { intros f v. rewrite forallb_forall. setoid_rewrite <- list_elem_of_In. split.
      - intros [Hall ->] q Hq. exact (proj1 (bool_decide_eq_true _) (Hall q Hq)).
      - intros Hall. assert (v = f p0) as -> by (symmetry; apply Hall; left).
        split; [|done]. intros q Hq. by apply bool_decide_eq_true_2, Hall. }
    split.
    + intros [Hadj [Hrow Hcol]] [?|[[_ Hr]|[_ Hc]]]; [done| |].
      * apply (Hline row) in Hr as [Hr1 Hr2].
        destruct Hrow as [[?|Hf]|Hf]; [simpl in *; lia|congruence|congruence].
      * apply (Hline col) in Hc as [Hc1 Hc2].
        destruct Hcol as [[?|Hf]|Hf]; [simpl in *; lia|congruence|congruence].
    + intros Hno. split; [tauto|]. split.
      * destruct (forallb (λ q, bool_decide (row q = row p0)) (p0 :: rest)) eqn:Hf;
          [|left; right; done].
        right. intros Heq. apply Hno. right. left. split; [done|].
        apply (Hline row). done.
      * destruct (forallb (λ q, bool_decide (col q = col p0)) (p0 :: rest)) eqn:Hf;
          [|left; right; done].
        right. intros Heq. apply Hno. right. right. split; [done|].
        apply (Hline col). done.
Qed.

Lemma analyzePattern_forced_cells
    (N : nat) (S : Z) (solutions : list Grid) (includeInherent : bool)
    (pattern : list Cell) (res : Pattern) :
  (∀ sol, sol ∈ solutions → isConfiguration N S sol) →
  analyzePattern N solutions includeInherent pattern = Some res →
  initial_stars res = pattern ∧
  (∀ r c, cellAt r c ∈ forced_empty_cells res ↔
     (r < N)%nat ∧ (c < N)%nat ∧ (cellAt r c ∉ pattern) ∧
     (∀ sol, sol ∈ compatibleWith solutions pattern → gridAt sol r c = Some 0) ∧
     (includeInherent = true ∨ ¬ explained N pattern r c)) ∧
  (∀ r c, cellAt r c ∈ forced_star_cells res ↔
     (r < N)%nat ∧ (c < N)%nat ∧ (cellAt r c ∉ pattern) ∧
     (∀ sol, sol ∈ compatibleWith solutions pattern → gridAt sol r c = Some 1)) ∧
  (∀ cell, cell ∈ forced_empty_cells res ++ forced_star_cells res →
     ∃ r c, cell = cellAt r c).
Proof.
  intros Hvalid Hres. unfold analyzePattern in Hres.
  destruct (decide (length (compatibleWith solutions pattern) = 0%nat)) as [?|Hne];
    [done|].
  assert (compatibleWith solutions pattern ≠ []) as Hreal.
  { intros E. by rewrite E in Hne. }
  destruct (negb (isNonTrivial _ _ _)); [done|].
  destruct (shouldSkipPattern _ _ _); [done|].
  injection Hres as <-. simpl. split; [done|].
  assert (∀ st r c,
    cellAt r c ∈ forcedCells N pattern
                   (computeCellStates N pattern (compatibleWith solutions pattern)) st ↔
    (r < N)%nat ∧ (c < N)%nat ∧ (cellAt r c ∉ pattern) ∧
    classify N pattern (compatibleWith solutions pattern) r c = st) as Hforced.
  { intros st r c. rewrite forcedCells_elem. split.
    - intros (r' & c' & Heq & Hr & Hc & Hoff & Hst).
      apply cellAt_inj in Heq as [-> ->].
      rewrite stateAt_computed in Hst by done. injection Hst as Hst.
      by rewrite <- cell_off_pattern.
    - intros (Hr & Hc & Hoff & Hst). exists r, c.
      rewrite stateAt_computed by done. rewrite cell_off_pattern. by rewrite Hst. }
  split; [|split].
  - intros r c. rewrite list_elem_of_filter, Hforced.
    rewrite orb_true_iff, (explained_iff N pattern r c). split.
    + intros (Hinh & Hr & Hc & Hoff & Hst). repeat split; try done.
      by apply (classify_forced_empty N S solutions pattern Hvalid r c Hr Hc);
        [apply cell_off_pattern|].
    + intros (Hr & Hc & Hoff & Hall & Hinh). repeat split; try done.
      by apply (classify_forced_empty N S solutions pattern Hvalid r c Hr Hc);
        [apply cell_off_pattern|].
  - intros r c. rewrite Hforced. split.
    + intros (Hr & Hc & Hoff & Hst). repeat split; try done.
      by apply (classify_forced_star N S solutions pattern Hvalid Hreal r c Hr Hc);
        [apply cell_off_pattern|].
    + intros (Hr & Hc & Hoff & Hall). repeat split; try done.
      by apply (classify_forced_star N S solutions pattern Hvalid Hreal r c Hr Hc);
        [apply cell_off_pattern|].
  - intros cell [[_ Hin]%list_elem_of_filter|Hin]%elem_of_app;
      apply forcedCells_elem in Hin as (r & c & -> & _); eauto.
Qed.

(** X1.  When every solution is a configuration, a pattern that
    [analyzePattern] reports comes with exactly its forced cells: the
    forced-empty list holds the board cells off the pattern that are empty in
    every compatible solution (without the cells explained by adjacency or a
    common line unless [includeInherent] is set), and the forced-star list
    holds the board cells off the pattern that carry a star in every
    compatible solution. *)
Theorem analyzePattern_reports_forced_cells
    (N : nat) (S : Z) (solutions : list Grid) (includeInherent : bool)
    (pattern : list Cell) (res : Pattern) :
  (∀ sol, sol ∈ solutions → isConfiguration N S sol) →
  analyzePattern N solutions includeInherent pattern = Some res →
  initial_stars res = pattern ∧
  (∀ r c, cellAt r c ∈ forced_empty_cells res ↔
     (r < N)%nat ∧ (c < N)%nat ∧ (cellAt r c ∉ pattern) ∧
     (∀ sol, sol ∈ compatibleWith solutions pattern → gridAt sol r c = Some 0) ∧
     (includeInherent = true ∨ ¬ explained N pattern r c)) ∧
  (∀ r c, cellAt r c ∈ forced_star_cells res ↔
     (r < N)%nat ∧ (c < N)%nat ∧ (cellAt r c ∉ pattern) ∧
     (∀ sol, sol ∈ compatibleWith solutions pattern → gridAt sol r c = Some 1)) ∧
  (∀ cell, cell ∈ forced_empty_cells res ++ forced_star_cells res →
     ∃ r c, cell = cellAt r c).
Proof. apply analyzePattern_forced_cells. Qed.

Lemma solutions_4_1_valid (sol : Grid) :
  sol ∈ MinerFacts.solutions_4_1 → isConfiguration 4 1 sol.
Proof.
  intros Hsol. destruct (enumerate_spec 4 1) as (l & Hrun & _ & Hl).
  vm_compute in Hrun. injection Hrun as <-. by apply Hl.
Qed.

Lemma analyzePattern_reports_forced_cells_witness :
  let pattern := [mkCell 0 1; mkCell 1 3] in
  let res := MinerFacts.cornerPattern in
  initial_stars res = pattern ∧
  (∀ r c, cellAt r c ∈ forced_empty_cells res ↔
     (r < 4)%nat ∧ (c < 4)%nat ∧ (cellAt r c ∉ pattern) ∧
     (∀ sol, sol ∈ compatibleWith MinerFacts.solutions_4_1 pattern →
             gridAt sol r c = Some 0) ∧
     (false = true ∨ ¬ explained 4 pattern r c)) ∧
  (∀ r c, cellAt r c ∈ forced_star_cells res ↔
     (r < 4)%nat ∧ (c < 4)%nat ∧ (cellAt r c ∉ pattern) ∧
     (∀ sol, sol ∈ compatibleWith MinerFacts.solutions_4_1 pattern →
             gridAt sol r c = Some 1)) ∧
  (∀ cell, cell ∈ forced_empty_cells res ++ forced_star_cells res →
     ∃ r c, cell = cellAt r c).
Proof.
  apply (analyzePattern_reports_forced_cells 4 1 MinerFacts.solutions_4_1 false
           [mkCell 0 1; mkCell 1 3] MinerFacts.cornerPattern).
  - exact solutions_4_1_valid.
  - vm_compute. reflexivity.
Defined.

Lemma filter_all {A} (P : A → Prop) `{∀ x, Decision (P x)} (l : list A) :
  (∀ x, P x) → filter P l = l.
Proof.
  intros HP. induction l as [|a l IH]; [done|].
  rewrite filter_cons_True by done. by rewrite IH.
Qed.

(** X2.  [includeInherent] changes nothing but the forced-empty list: the
    same patterns are reported with and without it, with the same stars, the
    same number of compatible solutions and the same forced stars; the
    forced-empty list without the flag is the list with the flag, in the same
    order, without the cells explained by adjacency or a common line. *)
Theorem includeInherent_only_filters
    (N : nat) (solutions : list Grid) (pattern : list Cell) :
  match analyzePattern N solutions true pattern,
        analyzePattern N solutions false pattern with
  | Some full, Some part =>
      initial_stars part = initial_stars full ∧
      compatible_solutions part = compatible_solutions full ∧
      forced_star_cells part = forced_star_cells full ∧
      forced_empty_cells part `sublist_of` forced_empty_cells full ∧
      ∀ r c, cellAt r c ∈ forced_empty_cells part ↔
             cellAt r c ∈ forced_empty_cells full ∧ ¬ explained N pattern r c
  | None, None => True
  | _, _ => False
  end.
Proof.
  unfold analyzePattern.
  destruct (decide (length (compatibleWith solutions pattern) = 0%nat)); [done|].
  destruct (negb (isNonTrivial _ _ _)); [done|].
  destruct (shouldSkipPattern _ _ _); [done|].
  cbn [initial_stars compatible_solutions forced_star_cells forced_empty_cells].
  split; [done|]. split; [done|]. split; [done|].
  match goal with
  | |- context [filter ?P ?X] =>
      lazymatch P with context [true || _] => rewrite (filter_all P X) by done end
  end.
  split; [apply sublist_filter|].
  intros r c. rewrite list_elem_of_filter. cbv beta zeta. rewrite orb_false_l.
  pose proof (explained_iff N pattern r c) as He. cbv zeta in He. rewrite He. tauto.
Qed.

Lemma forcedCells_NoDup N pattern cs st : NoDup (forcedCells N pattern cs st).
Proof.
  unfold forcedCells. apply NoDup_fmap_2_strong.
  - intros [r c] [r' c'] _ _ Heq. simpl in Heq.
    apply cellAt_inj in Heq as [-> ->]. done.
  - apply NoDup_filter. unfold boardCells. apply NoDup_bind.
    + intros r r' rc _ _ (c & -> & _)%list_elem_of_fmap (c' & [= -> _] & _)%list_elem_of_fmap.
      done.
    + intros r _. apply NoDup_fmap_2; [|apply NoDup_seq]. by intros c c' [= ->].
    + apply NoDup_seq.
Qed.

(** X3.  The two lists of a reported pattern name each cell at most once,
    have no cell in common, and hold no cell of the pattern. *)
Theorem analyzePattern_lists_disjoint
    (N : nat) (solutions : list Grid) (includeInherent : bool)
    (pattern : list Cell) (res : Pattern) :
  analyzePattern N solutions includeInherent pattern = Some res →
  NoDup (forced_empty_cells res ++ forced_star_cells res) ∧
  ∀ cell, cell ∈ forced_empty_cells res ++ forced_star_cells res → cell ∉ pattern.
Proof.
  intros Hres. unfold analyzePattern in Hres.
  destruct (decide (length (compatibleWith solutions pattern) = 0%nat)); [done|].
  destruct (negb (isNonTrivial _ _ _)); [done|].
  destruct (shouldSkipPattern _ _ _); [done|].
  injection Hres as <-. simpl. split.
  - apply NoDup_app. split; [apply NoDup_filter, forcedCells_NoDup|].
    split; [|apply forcedCells_NoDup].
    intros cell [_ He]%list_elem_of_filter Hs.
    apply forcedCells_elem in He as (r & c & -> & _ & _ & _ & He).
    apply forcedCells_elem in Hs as (r' & c' & Heq & _ & _ & _ & Hs).
    apply cellAt_inj in Heq as [<- <-]. congruence.
  - intros cell [[_ Hin]%list_elem_of_filter|Hin]%elem_of_app;
      apply forcedCells_elem in Hin as (r & c & -> & _ & _ & Hoff & _);
      by apply cell_off_pattern.
Qed.

Lemma analyzePattern_lists_disjoint_witness :
  NoDup (forced_empty_cells MinerFacts.cornerPattern
         ++ forced_star_cells MinerFacts.cornerPattern) ∧
  ∀ cell, cell ∈ forced_empty_cells MinerFacts.cornerPattern
                 ++ forced_star_cells MinerFacts.cornerPattern →
          cell ∉ [mkCell 0 1; mkCell 1 3].
Proof.
  apply (analyzePattern_lists_disjoint 4 MinerFacts.solutions_4_1 false
           [mkCell 0 1; mkCell 1 3] MinerFacts.cornerPattern).
  vm_compute. reflexivity.
Defined.

End AnalyzerProperties.

Module PipelineProperties.
Import Geometry Enumeration Configuration Analyzer Miners Pipeline.
Import EnumerationFacts AnalyzerFacts AnalyzerProperties.

(** ** Local validity and compatibility *)

Definition near (a b : Cell) : Prop :=
  Z.abs (row a - row b) ≤ 1 ∧ Z.abs (col a - col b) ≤ 1.

Lemma near_sym a b : near a b → near b a.
Proof. unfold near. lia. Qed.

Lemma isLocallyValid_cons a l :
  isLocallyValid (a :: l) = true ↔ (∀ b, b ∈ l → ¬ near a b) ∧ isLocallyValid l = true.
Proof.
  simpl. rewrite andb_true_iff, MinerFacts.forallb_elem.
  split; intros [Ha Hl]; (split; [|done]); intros b Hb.
  - specialize (Ha b Hb). apply negb_true_iff, bool_decide_eq_false in Ha. done.
  - apply negb_true_iff, bool_decide_eq_false. by apply Ha.
Qed.

Lemma isLocallyValid_perm_true l l' :
  l ≡ₚ l' → isLocallyValid l = true → isLocallyValid l' = true.
Proof.
  induction 1 as [|x l l' Hp IH|x y l|l l' l'' _ IH1 _ IH2]; [done|..].
  - rewrite !isLocallyValid_cons. intros [Hx Hl]. split; [|by apply IH].
    intros b Hb. apply Hx. by rewrite Hp.
  - rewrite !isLocallyValid_cons. intros [Hy [Hx Hl]]. split; [|split; [|done]].
    + intros b [->|Hb]%elem_of_cons; [|by apply Hx].
      intros Hn. apply (Hy x); [left|by apply near_sym].
    + intros b Hb. apply Hy. by right.
  - auto.
Qed.

(** X4.  [isLocallyValid] does not depend on the order of the cells. *)
Theorem isLocallyValid_order_independent (cells cells' : list Cell) :
  cells ≡ₚ cells' → isLocallyValid cells = isLocallyValid cells'.
Proof.
  intros Hp.
  destruct (isLocallyValid cells) eqn:H1, (isLocallyValid cells') eqn:H2; try done.
  - by rewrite (isLocallyValid_perm_true cells cells' Hp H1) in H2.
  - symmetry in Hp. by rewrite (isLocallyValid_perm_true cells' cells Hp H2) in H1.
Qed.

Lemma isLocallyValid_order_independent_witness :
  isLocallyValid [mkCell 0 1; mkCell 1 3; mkCell 3 0]
  = isLocallyValid [mkCell 3 0; mkCell 0 1; mkCell 1 3].
Proof.
  apply (isLocallyValid_order_independent
           [mkCell 0 1; mkCell 1 3; mkCell 3 0] [mkCell 3 0; mkCell 0 1; mkCell 1 3]).
  symmetry. apply (Permutation_cons_append [mkCell 0 1; mkCell 1 3] (mkCell 3 0)).
Defined.

Lemma star_in_board N S (sol : Grid) (p : Cell) :
  isConfiguration N S sol → gridAtZ sol (row p) (col p) = Some 1 →
  ∃ r c, p = cellAt r c ∧ (r < N)%nat ∧ (c < N)%nat ∧ cellValue sol r c = 1.
Proof.
  intros (Hwf & _) Hstar. unfold gridAtZ in Hstar.
  destruct (decide (0 ≤ row p ∧ 0 ≤ col p)) as [[Hr Hc]|]; [|done].
  exists (Z.to_nat (row p)), (Z.to_nat (col p)).
  destruct (gridAt_in_range N sol _ _ _ Hwf Hstar) as [Hr' Hc'].
  split; [|split; [done|split; [done|by apply cellValue_one]]].
  destruct p as [pr pc]. unfold cellAt. simpl in *. f_equal; lia.
Qed.

(** X5.  A pattern of distinct cells that a configuration is compatible
    with is locally valid: the stars of a configuration do not touch. *)
Theorem compatible_pattern_locally_valid
    (N : nat) (S : Z) (solution : Grid) (pattern : list Cell) :
  isConfiguration N S solution → NoDup pattern →
  isPatternCompatible pattern solution = true →
  isLocallyValid pattern = true.
Proof.
  intros Hconf Hnd Hcompat. unfold isPatternCompatible in Hcompat.
  rewrite MinerFacts.forallb_elem in Hcompat.
  induction pattern as [|a l IH]; [done|].
  apply NoDup_cons in Hnd as [Ha Hnd]. apply isLocallyValid_cons. split.
  - intros b Hb [Hnr Hnc].
    destruct (star_in_board N S solution a Hconf) as (r1 & c1 & -> & Hr1 & Hc1 & H1).
    { apply (bool_decide_eq_true_1 _), Hcompat. left. }
    destruct (star_in_board N S solution b Hconf) as (r2 & c2 & -> & Hr2 & Hc2 & H2).
    { apply (bool_decide_eq_true_1 _), Hcompat. by right. }
    destruct Hconf as (_ & _ & _ & _ & Htouch).
    apply (Htouch r1 c1 r2 c2); try done. split; [|done].
    intros [= -> ->]. done.
  - apply IH; [done|]. intros b Hb. apply Hcompat. by right.
Qed.

Lemma compatible_pattern_locally_valid_witness :
  isLocallyValid [mkCell 0 1; mkCell 1 3; mkCell 2 0] = true.
Proof.
  apply (compatible_pattern_locally_valid 4 1
           [[0; 1; 0; 0]; [0; 0; 0; 1]; [1; 0; 0; 0]; [0; 0; 1; 0]]
           [mkCell 0 1; mkCell 1 3; mkCell 2 0]).
  - apply solutions_4_1_valid. left.
  - apply (bool_decide_unpack _). vm_compute. exact I.
  - vm_compute. reflexivity.
Defined.

(** ** Pattern generation *)

(** The sub-lists of [l] with [n] elements, those that hold the head of [l]
    first. *)
Fixpoint combos {A} (l : list A) (n : nat) : list (list A) :=
  match n, l with
  | O, _ => [[]]
  | S _, [] => []
  | S n', x :: l' => (cons x <$> combos l' n') ++ combos l' n
  end.

Lemma combos_elem {A} (l : list A) (n : nat) (p : list A) :
  p ∈ combos l n ↔ p `sublist_of` l ∧ length p = n.
Proof.
  revert n p. induction l as [|x l IH]; intros [|n] p; simpl.
  - rewrite list_elem_of_singleton, sublist_nil_r. split; [by intros ->|].
    by intros [-> _].
  - rewrite elem_of_nil, sublist_nil_r. split; [done|]. by intros [-> ?].
  - rewrite list_elem_of_singleton. split; [intros ->; split; [apply sublist_nil_l|done]|].
    intros [_ Hl]. by destruct p.
  - rewrite elem_of_app, list_elem_of_fmap, sublist_cons_r. setoid_rewrite IH. split.
    + intros [(q & -> & Hq & Hlen)|[Hsub Hlen]].
      * split; [right; by exists q|simpl; lia].
      * split; [by left|done].
    + intros [[Hsub|(q & -> & Hq)] Hlen].
      * right. done.
      * left. exists q. simpl in Hlen. split; [done|]. split; [done|lia].
Qed.

Lemma combos_NoDup {A} (l : list A) (n : nat) : NoDup l → NoDup (combos l n).
Proof.
  revert n. induction l as [|x l IH]; intros [|n] Hnd; simpl;
    try apply NoDup_singleton; [constructor|].
  apply NoDup_cons in Hnd as [Hx Hnd]. apply NoDup_app. split; [|split].
  - apply NoDup_fmap_2; [|by apply IH]. by intros q q' [= ->].
  - intros p (q & -> & _)%list_elem_of_fmap [Hsub _]%combos_elem.
    apply Hx. eapply elem_of_sublist; [|exact Hsub]. left.
  - by apply IH.
Qed.

Section Combinations.
Context {A : Type} (array : list A) (k : Z).

Lemma generateCombinations_past fuel start (current : list A) result :
  (length array - start < fuel)%nat → k < Z.of_nat (length current) →
  generateCombinations fuel array k start current result = Some result.
Proof.
  revert start current result.
  induction fuel as [|fuel IH]; intros start current result Hfuel Hk; [lia|].
  simpl. rewrite decide_False by lia.
  remember (length array - start)%nat as m eqn:Hm.
  revert start result Hfuel Hm. induction m as [|m IHm]; intros start result Hfuel Hm;
    [done|].
  simpl. destruct (array !! start) as [x|] eqn:Hx.
  - rewrite IH by (rewrite ?length_app; simpl; lia). apply IHm; lia.
  - apply IHm; lia.
Qed.

Lemma generateCombinations_spec fuel start (current : list A) result :
  (length array - start < fuel)%nat → Z.of_nat (length current) ≤ k →
  generateCombinations fuel array k start current result
  = Some (result ++ (app current <$>
            combos (drop start array) (Z.to_nat (k - Z.of_nat (length current))))).
Proof.
  revert start current result.
  induction fuel as [|fuel IH]; intros start current result Hfuel Hk; [lia|].
  simpl. destruct (decide (Z.of_nat (length current) = k)) as [Heq|Hne].
  - replace (Z.to_nat (k - Z.of_nat (length current))) with 0%nat by lia.
    assert (∀ l : list A, combos l 0 = [[]]) as -> by (by intros []).
    simpl. by rewrite app_nil_r.
  - destruct (Z.to_nat (k - Z.of_nat (length current))) as [|n] eqn:Hn; [lia|].
    remember (length array - start)%nat as m eqn:Hm.
    revert start result Hfuel Hm.
    induction m as [|m IHm]; intros start result Hfuel Hm.
    + simpl. rewrite drop_ge by lia. simpl. by rewrite app_nil_r.
    + simpl. destruct (array !! start) as [x|] eqn:Hx.
      2:{ apply lookup_ge_None in Hx. lia. }
      rewrite (drop_S _ _ _ Hx). simpl.
      rewrite IH by (rewrite ?length_app; simpl; lia).
      rewrite IHm by lia. f_equal. rewrite <- app_assoc. f_equal.
      rewrite fmap_app. f_equal. rewrite length_app. simpl.
      replace (Z.to_nat (k - Z.of_nat (length current + 1))) with n by lia.
      rewrite <- list_fmap_compose. apply list_fmap_ext. intros _ q _. simpl.
      by rewrite <- app_assoc.
Qed.

End Combinations.

Lemma allCells_NoDup N : NoDup (allCells N).
Proof.
  unfold allCells. apply NoDup_fmap_2_strong.
  - intros [r c] [r' c'] _ _ Heq. simpl in Heq.
    apply cellAt_inj in Heq as [-> ->]. done.
  - unfold boardCells. apply NoDup_bind.
    + intros r r' rc _ _ (c & -> & _)%list_elem_of_fmap (c' & [= -> _] & _)%list_elem_of_fmap.
      done.
    + intros r _. apply NoDup_fmap_2; [|apply NoDup_seq]. by intros c c' [= ->].
    + apply NoDup_seq.
Qed.

(** X6.  [generatePatterns(patternSize)] returns, each once, the patterns
    that are sub-lists of the board cells in row-major order with
    [patternSize] cells, are locally valid and are compatible with a
    solution. *)
Theorem generatePatterns_exhaustive_and_exact
    (N : nat) (solutions : list Grid) (patternSize : Z) :
  ∃ patterns,
    generatePatterns N solutions patternSize = Some patterns ∧
    NoDup patterns ∧
    ∀ p, p ∈ patterns ↔
      p `sublist_of` allCells N ∧ Z.of_nat (length p) = patternSize ∧
      isLocallyValid p = true ∧
      ∃ solution, solution ∈ solutions ∧ isPatternCompatible p solution = true.
Proof.
  unfold generatePatterns.
  destruct (decide (patternSize < 0)) as [Hk|Hk].
  - rewrite generateCombinations_past by (simpl; lia). simpl.
    eexists. split; [done|]. split; [constructor|].
    intros p. rewrite elem_of_nil. split; [done|]. lia.
  - rewrite generateCombinations_spec by (simpl; lia). simpl.
    eexists. split; [done|]. split.
    + do 2 apply NoDup_filter. apply NoDup_fmap_2; [by intros ???|].
      apply combos_NoDup, allCells_NoDup.
    + intros p. rewrite !list_elem_of_filter, list_elem_of_fmap.
      rewrite Z.sub_0_r. split.
      * intros (Hreal & Hvalid & q & -> & Hq). apply combos_elem in Hq as [Hsub Hlen].
        simpl. split; [done|]. split; [lia|]. split; [done|].
        apply existsb_exists in Hreal as (sol & Hin & Hc). exists sol.
        by rewrite list_elem_of_In.
      * intros (Hsub & Hlen & Hvalid & sol & Hin & Hc). split; [|split; [done|]].
        -- apply existsb_exists. exists sol. by rewrite <- list_elem_of_In.
        -- exists p. split; [done|]. apply combos_elem. split; [done|lia].
Qed.

(** ** The split of the patterns among the workers *)

Lemma omap_lookup_seq {A B} (f : A → option B) (l : list A) (s m : nat) :
  omap (λ i, l !! i ≫= f) (seq s m) = omap f (take m (drop s l)).
Proof.
  revert s. induction m as [|m IH]; intros s; [done|].
  simpl. destruct (l !! s) as [x|] eqn:Hx.
  - rewrite (drop_S _ _ _ Hx). simpl. rewrite IH. done.
  - rewrite IH. apply lookup_ge_None in Hx.
    rewrite !drop_ge by lia. by destruct m.
Qed.

Lemma workerResults_slice {A B} (analyze : A → option B) patterns w numWorkers :
  numWorkers ≠ 0%nat →
  workerResults analyze patterns w numWorkers
  = omap analyze (take (ceilDiv (length patterns) numWorkers)
                       (drop (w * ceilDiv (length patterns) numWorkers) patterns)).
Proof.
  intros Hw. unfold workerResults. rewrite decide_False by done. cbv zeta.
  rewrite omap_lookup_seq.
  set (q := ceilDiv (length patterns) numWorkers). f_equal.
  destruct (decide (w * q + q ≤ length patterns)%nat).
  - f_equal. lia.
  - rewrite !take_ge; [done|rewrite length_drop; lia|rewrite length_drop; lia].
Qed.

Lemma ceilDiv_covers (total numWorkers : nat) :
  numWorkers ≠ 0%nat → (total ≤ numWorkers * ceilDiv total numWorkers)%nat.
Proof.
  intros Hw. unfold ceilDiv.
  pose proof (Nat.div_mod_eq (total + numWorkers - 1) numWorkers).
  pose proof (Nat.mod_upper_bound (total + numWorkers - 1) numWorkers Hw). lia.
Qed.

(** X7.  With at least one worker, the results of the workers, put together
    in the order of the worker ids, are the results of analysing every
    pattern once, in the order of the patterns: the split loses no pattern
    and hands none to two workers. *)
Theorem workers_cover_all_patterns {A B}
    (analyze : A → option B) (patterns : list A) (numWorkers : nat) :
  numWorkers ≠ 0%nat →
  allResults analyze patterns numWorkers = omap analyze patterns.
Proof.
  intros Hw. unfold allResults.
  set (q := ceilDiv (length patterns) numWorkers).
  assert (∀ n, (w ← seq 0 n; workerResults analyze patterns w numWorkers)
               = omap analyze (take (n * q) patterns)) as Hn.
  { induction n as [|n IH]; [done|].
    rewrite seq_S, bind_app, IH. simpl. rewrite app_nil_r.
    rewrite workerResults_slice by done. fold q.
    rewrite <- omap_app, take_take_drop. f_equal. f_equal. lia. }
  rewrite Hn. rewrite take_ge; [done|]. apply ceilDiv_covers. done.
Qed.

Lemma workers_cover_all_patterns_witness :
  allResults (λ n : nat, if Nat.even n then Some (2 * n)%nat else None)
             [1; 2; 3; 4; 5; 6; 7]%nat 3
  = omap (λ n : nat, if Nat.even n then Some (2 * n)%nat else None) [1; 2; 3; 4; 5; 6; 7]%nat.
Proof.
  apply (workers_cover_all_patterns
           (λ n : nat, if Nat.even n then Some (2 * n)%nat else None)
           [1; 2; 3; 4; 5; 6; 7]%nat 3).
  lia.
Defined.

(** ** Writing the patterns and reading them back *)

Lemma toCell_toPoint (cells : list Cell) : toCell <$> (toPoint <$> cells) = cells.
Proof.
  rewrite <- list_fmap_compose. rewrite <- (list_fmap_id cells) at 2.
  apply list_fmap_ext. by intros _ [r c] _.
Qed.

Lemma expand_optional (cells : list Cell) :
  toCell <$> default [] (if bool_decide (0 < length cells)%nat
                         then Some (toPoint <$> cells) else None) = cells.
Proof.
  destruct cells as [|c l]; [done|].
  rewrite bool_decide_eq_true_2 by (simpl; lia). exact (toCell_toPoint (c :: l)).
Qed.

(** X8.  A pattern that [writeOutput] writes and [extractFromFile] reads
    back has its stars, forced-empty cells and forced-star cells unchanged,
    the keys of empty lists being left out and read back as empty lists; its
    number of compatible solutions is kept when
    [includeCompatibleSolutions] is set and is 0 otherwise. *)
Theorem written_pattern_reads_back (includeCompatibleSolutions : bool) (pattern : Pattern) :
  expandPattern (compressPattern includeCompatibleSolutions pattern)
  = mkPattern (initial_stars pattern)
              (if includeCompatibleSolutions then compatible_solutions pattern else 0)
              (forced_empty_cells pattern) (forced_star_cells pattern).
Proof.
  unfold expandPattern, compressPattern. simpl.
  rewrite toCell_toPoint, !expand_optional. f_equal.
  destruct includeCompatibleSolutions; [|done]. by destruct (decide _) as [->|].
Qed.

Lemma reloaded_patterns flag (ps : list Pattern) :
  expandPattern <$> (compressPattern flag <$> ps)
  = (λ p, mkPattern (initial_stars p) (if flag then compatible_solutions p else 0)
                    (forced_empty_cells p) (forced_star_cells p)) <$> ps.
Proof.
  rewrite <- list_fmap_compose. apply list_fmap_ext. intros _ p _. simpl.
  unfold expandPattern, compressPattern. simpl.
  rewrite toCell_toPoint, !expand_optional. f_equal.
  destruct flag; [|done]. by destruct (decide _) as [->|].
Qed.

Lemma foldl_fmap_ext {A A' S} (step : S → A → S) (g : A' → A) (step' : S → A' → S)
    (l : list A') (s : S) :
  (∀ s a, step s (g a) = step' s a) → foldl step s (g <$> l) = foldl step' s l.
Proof.
  intros Hstep. revert s. induction l as [|a l IH]; intros s; [done|].
  simpl. rewrite Hstep. apply IH.
Qed.

Lemma collect_fmap_ext {A A' B} (f : A → result (list B)) (g : A' → A)
    (l : list A') :
  collect f (g <$> l) = collect (λ a, f (g a)) l.
Proof. unfold collect. by apply foldl_fmap_ext. Qed.

(** X9.  The miners read of a pattern its stars and forced-empty cells
    only: run on the output read back from the file, with or without the
    numbers of compatible solutions in it, the pure extractors and the triple
    miners return what they return on the output in memory. *)
Theorem mining_from_file_is_mining_in_memory
    (arraySort : ∀ A : Type, (A → A → Z) → list A → list A)
    (localeCompare : string → string → Z)
    (includeCompatibleSolutions : bool)
    (solutions : list Grid) (output : Output) (minOccurrences : Z) :
  let reloaded := reloadOutput includeCompatibleSolutions output in
  extractPureEntanglements_pair arraySort localeCompare reloaded minOccurrences
  = extractPureEntanglements_pair arraySort localeCompare output minOccurrences ∧
  extractPureEntanglements arraySort localeCompare reloaded minOccurrences
  = extractPureEntanglements arraySort localeCompare output minOccurrences ∧
  mineTripleEntanglements_pair arraySort localeCompare solutions reloaded minOccurrences
  = mineTripleEntanglements_pair arraySort localeCompare solutions output minOccurrences ∧
  mineTripleEntanglements arraySort localeCompare solutions reloaded minOccurrences
  = mineTripleEntanglements arraySort localeCompare solutions output minOccurrences.
Proof.
  cbv zeta. unfold reloadOutput. rewrite reloaded_patterns.
  repeat split.
  - unfold extractPureEntanglements_pair, extractPureWith. simpl.
    by rewrite (foldl_fmap_ext _ _ (pureStep pairKeys)).
  - unfold extractPureEntanglements, extractPureWith. simpl.
    by rewrite (foldl_fmap_ext _ _ (pureStep genericKeys)).
  - unfold mineTripleEntanglements_pair, mineTripleWith, tripleOccurrencesOf. simpl.
    by rewrite collect_fmap_ext.
  - unfold mineTripleEntanglements, mineTripleWith, tripleOccurrencesOf. simpl.
    by rewrite collect_fmap_ext.
Qed.

(** ** All star pairs *)

Definition onBoard (boardSize : Z) (cell : Cell) : Prop :=
  0 ≤ row cell < boardSize ∧ 0 ≤ col cell < boardSize.

(** X10.  [enumerateAllStarPairs] lists exactly the ordered pairs of board
    cells that are locally valid, so each unordered pair in both orders and no
    pair of a cell with itself. *)
Theorem enumerateAllStarPairs_exact (boardSize : Z) (p : list Cell) :
  p ∈ enumerateAllStarPairs boardSize ↔
  ∃ a b, p = [a; b] ∧ onBoard boardSize a ∧ onBoard boardSize b ∧
         isLocallyValid [a; b] = true.
Proof.
  unfold enumerateAllStarPairs, onBoard. split.
  - intros (r1 & Hp & Hr1%elem_of_seqZ)%list_elem_of_bind.
    apply list_elem_of_bind in Hp as (c1 & Hp & Hc1%elem_of_seqZ).
    apply list_elem_of_bind in Hp as (r2 & Hp & Hr2%elem_of_seqZ).
    apply list_elem_of_bind in Hp as (c2 & Hp & Hc2%elem_of_seqZ).
    destruct (decide (r1 = r2 ∧ c1 = c2)); [by apply elem_of_nil in Hp|].
    destruct (decide (Z.abs (r1 - r2) ≤ 1 ∧ Z.abs (c1 - c2) ≤ 1)) as [|Hfar];
      [by apply elem_of_nil in Hp|].
    apply list_elem_of_singleton in Hp as ->.
    exists (mkCell r1 c1), (mkCell r2 c2). simpl.
    split; [done|]. split; [lia|]. split; [lia|].
    by rewrite bool_decide_eq_false_2.
  - intros ([r1 c1] & [r2 c2] & -> & Ha & Hb & Hvalid). simpl in *.
    rewrite !andb_true_r in Hvalid. apply negb_true_iff, bool_decide_eq_false in Hvalid.
    apply list_elem_of_bind. exists r1. split; [|apply elem_of_seqZ; lia].
    apply list_elem_of_bind. exists c1. split; [|apply elem_of_seqZ; lia].
    apply list_elem_of_bind. exists r2. split; [|apply elem_of_seqZ; lia].
    apply list_elem_of_bind. exists c2. split; [|apply elem_of_seqZ; lia].
    rewrite decide_False by (intros [-> ->]; apply Hvalid; lia).
    rewrite decide_False by done. left.
Qed.

End PipelineProperties.

Module GeometryProperties.
Import Geometry Enumeration Analyzer Miners Pipeline.
Import GeometryFacts CanonicalForm PipelineProperties.

(** ** [canonicalize] and the two-step canonicalisation *)

(** The result of [canonicalize] on the stars alone, with the auxiliary
    cells put through [canonicalizeEmpties]. *)
Definition withEmpties (C : list Point) (r : CanonicalPattern) : CanonicalPattern :=
  mkCanonicalPattern (canonicalStars r)
    (canonicalizeEmpties C (transformIndex r) (translation r))
    (transformIndex r) (translation r).

Lemma candidate_withEmpties P C t tf :
  transforms !! t = Some tf →
  candidate P C t tf = prod_map (withEmpties C) id (candidate P [] t tf).
Proof.
  intros Ht. unfold candidate, withEmpties, prod_map, canonicalizeEmpties. simpl.
  f_equal. f_equal. unfold transformAt. rewrite Ht. simpl. f_equal.
  rewrite <- list_fmap_compose. by apply list_fmap_ext.
Qed.

Lemma canonicalize_cells_follow P C :
  canonicalize P C = rbind (canonicalize P []) (λ r, Ok (withEmpties C r)).
Proof.
  unfold canonicalize, candidates. destruct (decide _) as [?|_]; [done|].
  assert (imap (candidate P C) transforms
          = map (prod_map (withEmpties C) id) (imap (candidate P []) transforms)) as ->.
  { rewrite fmap_imap. apply imap_ext. intros i tf Hi. by apply candidate_withEmpties. }
  rewrite (keepSmallest_fmap (withEmpties C) _ None).
  destruct (foldl keepSmallest None _) as [[r k]|]; done.
Qed.

(** X11.  The auxiliary cells have no say in [canonicalize]: its result
    is the result on the stars alone, with the cells put through
    [canonicalizeEmpties] under the transform and translation chosen for the
    stars.  The generic one-step canonicalisation and the two-step one
    ([canonicalizeStars], then [canonicalizeEmpties]) agree. *)
Theorem canonicalize_is_two_step (P C : list Point) :
  canonicalize P C
  = rbind (canonicalize P [])
      (λ r, Ok (mkCanonicalPattern (canonicalStars r)
                  (canonicalizeEmpties C (transformIndex r) (translation r))
                  (transformIndex r) (translation r))).
Proof. apply canonicalize_cells_follow. Qed.

Lemma canonicalStars_length P C r :
  canonicalize P C = Ok r →
  length (canonicalStars r) = length P ∧ length (canonicalCells r) = length C.
Proof.
  intros Hr. assert (P ≠ []) as HP.
  { intros ->. unfold canonicalize in Hr. simpl in Hr. done. }
  destruct (canonicalize_spec P C HP) as (r' & tf & Hr' & _ & Hs & Hc & _).
  rewrite Hr in Hr'. injection Hr' as <-. rewrite Hs, Hc.
  unfold starImage, cellImage, normalize. cbv zeta.
  rewrite !sortPoints_perm, !length_map. done.
Qed.

(** X12.  The [canonicalizeStars] that wraps [canonicalize] (generic
    extractor) and the original two-star [canonicalizeStars] return the same
    result on every input, the error for a list that is not a pair
    included. *)
Theorem canonicalizeStars_wrapper_agrees (initialStars : list Point) :
  canonicalizeStars_wrapper initialStars = canonicalizeStars initialStars.
Proof.
  unfold canonicalizeStars_wrapper.
  destruct initialStars as [|s1 [|s2 [|s3 l]]]; try done.
  rewrite decide_False by (simpl; lia).
  rewrite canonicalizeStars_canonicalize.
  destruct (canonicalize [s1; s2] []) as [r|msg] eqn:Hr; [|done].
  simpl. unfold toCanonicalizationResult. f_equal. f_equal.
  apply take_ge. destruct (canonicalStars_length _ _ _ Hr) as [-> _]. done.
Qed.

(** ** The shape of the canonical stars *)

(** X13.  The canonical stars are as many as the stars given, are sorted
    by row and then column, and sit against the origin: one of them is in row
    0 and one of them is in column 0.  The canonical cells are as many as the
    cells given, and the transform index is one of the eight. *)
Theorem canonical_stars_shape (P C : list Point) (r : CanonicalPattern) :
  canonicalize P C = Ok r →
  length (canonicalStars r) = length P ∧
  length (canonicalCells r) = length C ∧
  Sorted point_le (canonicalStars r) ∧
  Sorted point_le (canonicalCells r) ∧
  (∃ p, p ∈ canonicalStars r ∧ p.1 = 0) ∧
  (∃ p, p ∈ canonicalStars r ∧ p.2 = 0) ∧
  (transformIndex r < 8)%nat.
Proof.
  intros Hr. destruct (canonicalStars_length P C r Hr) as [Hl1 Hl2].
  assert (P ≠ []) as HP.
  { intros ->. unfold canonicalize in Hr. simpl in Hr. done. }
  destruct (canonicalize_spec P C HP) as (r' & tf & Hr' & Ht & Hs & Hc & _).
  rewrite Hr in Hr'. injection Hr' as <-.
  split; [done|]. split; [done|].
  split; [rewrite Hs; apply Sorted_merge_sort, _|].
  split; [rewrite Hc; apply Sorted_merge_sort, _|].
  assert (map (applyTransform tf) P ≠ []) as HQ by (by destruct P).
  set (Q := map (applyTransform tf) P) in *.
  split; [|split].
  - assert (Math_min (map fst Q) ∈ map fst Q) as Hmin
      by (apply Math_min_in; by destruct Q).
    apply list_elem_of_fmap in Hmin as (q & Hq1 & Hq).
    exists (shiftBy (minCorner Q).1 (minCorner Q).2 q). split.
    + rewrite Hs. unfold starImage. rewrite sortPoints_perm. unfold normalize.
      fold Q. by apply list_elem_of_fmap_2.
    + unfold shiftBy, minCorner. simpl. lia.
  - assert (Math_min (map snd Q) ∈ map snd Q) as Hmin
      by (apply Math_min_in; by destruct Q).
    apply list_elem_of_fmap in Hmin as (q & Hq1 & Hq).
    exists (shiftBy (minCorner Q).1 (minCorner Q).2 q). split.
    + rewrite Hs. unfold starImage. rewrite sortPoints_perm. unfold normalize.
      fold Q. by apply list_elem_of_fmap_2.
    + unfold shiftBy, minCorner. simpl. lia.
  - apply lookup_lt_Some in Ht. exact Ht.
Qed.

Lemma canonical_stars_shape_witness :
  let r := mkCanonicalPattern [(0, 0); (1, 2)] [(3, 3)] 0 (1, 2) in
  length (canonicalStars r) = length [(1, 2); (2, 4)] ∧
  length (canonicalCells r) = length [(4, 5)] ∧
  Sorted point_le (canonicalStars r) ∧
  Sorted point_le (canonicalCells r) ∧
  (∃ p, p ∈ canonicalStars r ∧ p.1 = 0) ∧
  (∃ p, p ∈ canonicalStars r ∧ p.2 = 0) ∧
  (transformIndex r < 8)%nat.
Proof.
  apply (canonical_stars_shape [(1, 2); (2, 4)] [(4, 5)]
           (mkCanonicalPattern [(0, 0); (1, 2)] [(3, 3)] 0 (1, 2))).
  vm_compute. reflexivity.
Defined.

(** ** The eight transforms *)

(** X14.  The table of transforms is closed under composition and holds
    the identity and, for each of its entries, the inverse. *)
Theorem transforms_form_a_group :
  (∀ g h, g ∈ transforms → h ∈ transforms →
     ∃ k, k ∈ transforms ∧
          ∀ p, applyTransform k p = applyTransform h (applyTransform g p)) ∧
  (∃ e, e ∈ transforms ∧ ∀ p, applyTransform e p = p) ∧
  (∀ g, g ∈ transforms →
     ∃ k, k ∈ transforms ∧ ∀ p, applyTransform k (applyTransform g p) = p).
Proof.
  split; [|split].
  - intros g h Hg Hh. destruct (transforms_compose g h Hg Hh) as (k & Hk & Hcomp).
    exists k. split; [done|]. intros p. by rewrite Hcomp.
  - exists (λ r c, (r, c)). split; [left|]. by intros [r c].
  - intros g Hg.
    destruct (transforms_factor g (λ r c, (r, c)) Hg) as (k & Hk & Hcomp); [left|].
    exists k. split; [done|]. intros p. rewrite Hcomp. by destruct p.
Qed.

Lemma transforms_keep_distance tf (d a b : Point) :
  tf ∈ transforms →
  let a' := d4_image tf d a in
  let b' := d4_image tf d b in
  (Z.abs (a'.1 - b'.1) ≤ 1 ∧ Z.abs (a'.2 - b'.2) ≤ 1) ↔
  (Z.abs (a.1 - b.1) ≤ 1 ∧ Z.abs (a.2 - b.2) ≤ 1).
Proof.
  intros H. destruct a, b, d. break_transform H;
    unfold d4_image, translate, applyTransform; simpl; lia.
Qed.

Lemma isLocallyValid_image_true tf d (cells : list Cell) :
  tf ∈ transforms →
  isLocallyValid ((λ cell, toCell (d4_image tf d (toPoint cell))) <$> cells) = true
  ↔ isLocallyValid cells = true.
Proof.
  intros Htf. induction cells as [|a l IH]; [done|].
  rewrite fmap_cons, !isLocallyValid_cons, IH.
  split; intros [Ha Hl]; (split; [|done]).
  - intros b Hb Hn. apply (Ha (toCell (d4_image tf d (toPoint b)))).
    + exact (list_elem_of_fmap_2 (λ cell, toCell (d4_image tf d (toPoint cell))) l b Hb).
    + exact (proj2 (transforms_keep_distance tf d (toPoint a) (toPoint b) Htf) Hn).
  - intros b' (b & -> & Hb)%list_elem_of_fmap Hn. apply (Ha b Hb).
    exact (proj1 (transforms_keep_distance tf d (toPoint a) (toPoint b) Htf) Hn).
Qed.

(** X15.  A transform of the table followed by a translation keeps local
    validity: the image of a list of cells is locally valid exactly when the
    list is. *)
Theorem isLocallyValid_symmetric (tf : Transform) (d : Point) (cells : list Cell) :
  tf ∈ transforms →
  isLocallyValid ((λ cell, toCell (d4_image tf d (toPoint cell))) <$> cells)
  = isLocallyValid cells.
Proof.
  intros Htf. pose proof (isLocallyValid_image_true tf d cells Htf) as [H1 H2].
  destruct (isLocallyValid cells); [by apply H2|].
  destruct (isLocallyValid _); [|done]. by specialize (H1 eq_refl).
Qed.

Lemma isLocallyValid_symmetric_witness :
  isLocallyValid ((λ cell, toCell (d4_image (λ r c, (- c, r)) (3, 0) (toPoint cell)))
                  <$> [mkCell 0 1; mkCell 1 3; mkCell 2 0])
  = isLocallyValid [mkCell 0 1; mkCell 1 3; mkCell 2 0].
Proof.
  apply (isLocallyValid_symmetric (λ r c, (- c, r)) (3, 0)
           [mkCell 0 1; mkCell 1 3; mkCell 2 0]).
  unfold transforms. repeat constructor.
Defined.

End GeometryProperties.

Module MinerProperties.
Import Geometry Enumeration Configuration Analyzer AnalyzerSpec Miners Pipeline.
Import GeometryFacts CanonicalForm EnumerationFacts AnalyzerFacts MinerFacts.
Import AnalyzerProperties PipelineProperties GeometryProperties.

(** ** The two pure extractors *)

Lemma pairKeys_genericKeys (p : Pattern) :
  length (initial_stars p) = 2%nat → pairKeys p = genericKeys p.
Proof.
  intros Hlen. unfold pairKeys, genericKeys.
  destruct (initial_stars p) as [|a [|b [|c l]]]; try discriminate.
  cbn [fmap list_fmap]. rewrite decide_False by (simpl; lia).
  rewrite canonicalizeStars_canonicalize.
  rewrite (canonicalize_cells_follow _ (toPoint <$> forced_empty_cells p)).
  by destruct (canonicalize [toPoint a; toPoint b] []).
Qed.

Lemma foldl_ext_Forall {A S} (step step' : S → A → S) (P : A → Prop) (l : list A) (s : S) :
  Forall P l → (∀ s a, P a → step s a = step' s a) → foldl step s l = foldl step' s l.
Proof.
  intros Hall Hstep. revert s. induction Hall as [|a l Ha _ IH]; intros s; [done|].
  simpl. rewrite Hstep by done. apply IH.
Qed.

(** X16.  On patterns of two stars each, the two-star
    [extractPureEntanglements] and the generic one return the same
    result. *)
Theorem pure_extractors_agree_on_pairs
    (arraySort : ∀ A : Type, (A → A → Z) → list A → list A)
    (localeCompare : string → string → Z)
    (output : Output) (minOccurrences : Z) :
  Forall (λ p, length (initial_stars p) = 2%nat) (patterns output) →
  extractPureEntanglements_pair arraySort localeCompare output minOccurrences
  = extractPureEntanglements arraySort localeCompare output minOccurrences.
Proof.
  intros Hpairs. unfold extractPureEntanglements_pair, extractPureEntanglements,
    extractPureWith.
  rewrite (foldl_ext_Forall (pureStep pairKeys) (pureStep genericKeys) _ _ _ Hpairs);
    [done|].
  intros acc p Hp. unfold pureStep. by rewrite (pairKeys_genericKeys p Hp).
Qed.

Lemma pure_extractors_agree_on_pairs_witness :
  extractPureEntanglements_pair stableSort codeUnitCompare
    (mkOutput 4 1 1 2 2 mirroredPatterns) 2
  = extractPureEntanglements stableSort codeUnitCompare
      (mkOutput 4 1 1 2 2 mirroredPatterns) 2.
Proof.
  apply (pure_extractors_agree_on_pairs stableSort codeUnitCompare
           (mkOutput 4 1 1 2 2 mirroredPatterns) 2).
  repeat constructor.
Defined.

Lemma templatesOf_geometries m minOccurrences :
  canonical_stars <$> templatesOf m minOccurrences `sublist_of` m.*1.
Proof.
  induction m as [|[cs sc] m IH]; [done|].
  unfold templatesOf in *. cbn [mbind list_bind]. rewrite fmap_app. simpl.
  destruct (bool_decide _ && bool_decide _).
  - destruct (emptiesMap sc) as [|[ce n] rest]; simpl.
    + by apply sublist_cons.
    + by apply sublist_skip.
  - simpl. by apply sublist_cons.
Qed.

(** X17.  The pure extractors report a star geometry at most once: no two
    templates have the same canonical stars.  [arraySort] is any sort that
    permutes its argument. *)
Theorem pure_templates_have_distinct_geometries
    (arraySort : ∀ A : Type, (A → A → Z) → list A → list A)
    (localeCompare : string → string → Z)
    (output : Output) (minOccurrences : Z) (out : PureEntanglementOutput) :
  (∀ A cmp l, arraySort A cmp l ≡ₚ l) →
  extractPureEntanglements arraySort localeCompare output minOccurrences = Ok out
  ∨ extractPureEntanglements_pair arraySort localeCompare output minOccurrences = Ok out →
  NoDup (canonical_stars <$> pure_entanglement_templates out).
Proof.
  intros Hperm Hout.
  assert (∃ keys, extractPureWith arraySort localeCompare keys output minOccurrences
                  = Ok out) as [keys Hkeys] by (destruct Hout; eauto).
  clear Hout. unfold extractPureWith in Hkeys.
  destruct (foldl (pureStep keys) (Ok []) (patterns output)) as [m|msg] eqn:Hfold; [|done].
  simpl in Hkeys. injection Hkeys as <-. simpl. rewrite Hperm.
  eapply sublist_NoDup; [|apply templatesOf_geometries].
  clear -Hfold. revert m Hfold.
  induction (patterns output) as [|p ps IH] using rev_ind; intros m Hfold.
  - simpl in Hfold. injection Hfold as <-. constructor.
  - rewrite foldl_app in Hfold. simpl in Hfold. unfold pureStep in Hfold at 1.
    destruct (foldl (pureStep keys) (Ok []) ps) as [m0|] eqn:H0; [|done].
    simpl in Hfold. destruct (keys p) as [[[cs ce]|]|]; simpl in Hfold; try done.
    + injection Hfold as <-. apply recordOccurrence_NoDup. by apply IH.
    + injection Hfold as <-. by apply IH.
Qed.

Lemma pure_templates_have_distinct_geometries_witness :
  NoDup (canonical_stars <$>
           [mkTemplate [(0, 0); (1, 2)] [(2, 0); (3, -1); (3, 0); (3, 2)] 2]).
Proof.
  apply (pure_templates_have_distinct_geometries stableSort codeUnitCompare
           (mkOutput 4 1 1 2 2 mirroredPatterns) 2
           (mkPureOutput 4 2
              [mkTemplate [(0, 0); (1, 2)] [(2, 0); (3, -1); (3, 0); (3, 2)] 2])).
  - exact stableSort_perm.
  - right. vm_compute. reflexivity.
Defined.

(** ** Feature names and feature objects *)

Ltac feature_present := eexists; vm_compute; reflexivity.

(** X18.  Every name that a miner tries as a constraint is a key of the
    feature object it reads, with a boolean value: the fall-back
    [|| false] of [getFeatureValue] for a missing key is never taken.  The
    generic extractors raise for an empty star list and the two-star triple
    extractor for fewer than two stars, and for nothing else. *)
Theorem feature_names_are_feature_keys :
  (∀ star0 star1 empties boardSize,
     Forall (λ name, ∃ b, mapGet name (extractFeatures_pair star0 star1 empties boardSize)
                          = Some (JBool b)) getFeatureNames_pair) ∧
  (∀ stars empties boardSize,
     match extractFeatures stars empties boardSize with
     | Ok features =>
         Forall (λ name, ∃ b, mapGet name features = Some (JBool b)) getFeatureNames
     | Throw _ => stars = []
     end) ∧
  (∀ absStars candidate boardSize,
     match extractTripleFeatures_pair absStars candidate boardSize with
     | Ok features =>
         Forall (λ name, ∃ b, mapGet name features = Some (JBool b))
                getTripleFeatureNames_pair
     | Throw _ => (length absStars < 2)%nat
     end) ∧
  (∀ stars candidate boardSize,
     match extractTripleFeatures stars candidate boardSize with
     | Ok features =>
         Forall (λ name, ∃ b, mapGet name features = Some (JBool b))
                getTripleFeatureNames
     | Throw _ => stars = []
     end).
Proof.
  split; [|split; [|split]].
  - intros star0 star1 empties boardSize. repeat (constructor; [feature_present|]).
    constructor.
  - intros stars empties boardSize. unfold extractFeatures.
    destruct (decide _) as [Hlen|_]; [by destruct stars|].
    repeat (constructor; [feature_present|]). constructor.
  - intros [|star0 [|star1 rest]] candidate boardSize; simpl; try lia.
    repeat (constructor; [feature_present|]). constructor.
  - intros stars candidate boardSize. unfold extractTripleFeatures.
    destruct (decide _) as [Hlen|_]; [by destruct stars|].
    repeat (constructor; [feature_present|]). constructor.
Qed.

(** ** The shape of the rules *)

Lemma featurePairs_elem (names : list string) f1 f2 :
  (f1, f2) ∈ featurePairs names → f1 ∈ names ∧ f2 ∈ names.
Proof.
  induction names as [|x rest IH]; simpl; [by intros ?%elem_of_nil|].
  rewrite elem_of_app, list_elem_of_fmap. intros [(y & [= -> ->] & Hy)|Hin].
  - split; [left|by right].
  - destruct (IH Hin). split; by right.
Qed.

Section BestConstraints.
Context {O : Type} (value : O → string → bool) (featureNames : list string).

Lemma pairSearch_shape posOccs negOccs (pairs : list (string * string)) best :
  (length best ≤ 2)%nat → (∀ f, f ∈ best → f ∈ featureNames) →
  (∀ f1 f2, (f1, f2) ∈ pairs → f1 ∈ featureNames ∧ f2 ∈ featureNames) →
  let best' :=
    foldl (λ best '(f1, f2),
             if separatesTogether value posOccs negOccs f1 f2 then
               if bool_decide (length best = 0%nat) || bool_decide (2 < length best)%nat
               then [f1; f2] else best
             else best) best pairs in
  (length best' ≤ 2)%nat ∧ ∀ f, f ∈ best' → f ∈ featureNames.
Proof.
  revert best. induction pairs as [|[f1 f2] pairs IH]; intros best Hlen Hin Hpairs;
    [done|].
  simpl. destruct (Hpairs f1 f2) as [H1 H2]; [left|].
  apply IH; [| |intros; apply Hpairs; by right].
  - destruct (separatesTogether _ _ _ _ _); [|done]. by destruct (_ || _).
  - destruct (separatesTogether _ _ _ _ _); [|done]. destruct (_ || _); [|done].
    intros f [->|[->|?%elem_of_nil]%elem_of_cons]%elem_of_cons; done.
Qed.

Lemma bestConstraints_shape posOccs negOccs :
  (length (bestConstraints value featureNames posOccs negOccs) ≤ 2)%nat ∧
  ∀ f, f ∈ bestConstraints value featureNames posOccs negOccs → f ∈ featureNames.
Proof.
  unfold bestConstraints.
  destruct (filter _ featureNames) as [|first rest] eqn:E.
  - apply pairSearch_shape; [simpl; lia|by intros ? ?%elem_of_nil|].
    apply featurePairs_elem.
  - split; [simpl; lia|]. intros f ->%list_elem_of_singleton.
    assert (first ∈ filter (λ f, separatesAlone value posOccs negOccs f = true)
                           featureNames) as Hin by (rewrite E; left).
    by apply list_elem_of_filter in Hin as [_ ?].
Qed.

End BestConstraints.

Lemma rulesOfGroup_unconstrained featureNames minOccurrences cs
    (em : list (list Point * list Occurrence)) rule :
  rule ∈ (rulesOfGroup featureNames minOccurrences cs em).1 ↔
  ∃ ce occs, em = [(ce, occs)] ∧ minOccurrences ≤ Z.of_nat (length occs) ∧
             rule = mkConstrainedRule cs ce [] (Z.of_nat (length occs)).
Proof.
  unfold rulesOfGroup. destruct em as [|[ce occs] [|e2 em']]; cbn [fst].
  - rewrite elem_of_nil. split; [done|]. by intros (? & ? & ? & _).
  - destruct (bool_decide (Z.of_nat (length occs) >= minOccurrences)) eqn:Hb.
    + apply bool_decide_eq_true in Hb. rewrite list_elem_of_singleton. split.
      * intros ->. exists ce, occs. split; [done|]. split; [lia|done].
      * by intros (? & ? & [= <- <-] & _ & ->).
    + apply bool_decide_eq_false in Hb. rewrite elem_of_nil. split; [done|].
      intros (? & ? & [= <- <-] & ? & _). lia.
  - rewrite elem_of_nil. split; [done|]. by intros (? & ? & ? & _).
Qed.

Lemma rulesOfGroup_constrained_shape featureNames minOccurrences cs
    (em : list (list Point * list Occurrence)) rule :
  rule ∈ (rulesOfGroup featureNames minOccurrences cs em).2 →
  length em ≠ 1%nat ∧
  rule_canonical_stars rule = cs ∧
  (1 ≤ length (constraint_features rule) ≤ 2)%nat ∧
  (∀ f, f ∈ constraint_features rule → f ∈ featureNames) ∧
  minOccurrences ≤ rule_occurrences rule.
Proof.
  intros Hin. split.
  { destruct em as [|e1 [|e2 em']]; [done| |done].
    unfold rulesOfGroup in Hin. destruct e1. by apply elem_of_nil in Hin. }
  pose proof (rulesOfGroup_constrained _ _ _ _ _ Hin) as (ce & Hce & Hcs & _ & Hne & Hbest).
  split; [done|].
  pose proof (bestConstraints_shape (λ (occ : Occurrence) f, featureValue (extra_features occ) f)
                featureNames (default [] (mapGet ce em))
                ('(ce', l) ← em; if decide (ce' ≠ ce) then l else [])) as [Hlen Hnames].
  rewrite <- Hbest in Hlen, Hnames. split; [|split; [done|]].
  { destruct (constraint_features rule); [done|simpl in *; lia]. }
  assert (rule ∈
    (emptiesKey ← em.*1;
     let posOccs := default [] (mapGet emptiesKey em) in
     if bool_decide (Z.of_nat (length posOccs) < minOccurrences) then []
     else
       let negOccs :=
         '(otherEmptiesKey, otherOccs) ← em;
         if decide (otherEmptiesKey ≠ emptiesKey) then otherOccs else [] in
       if bool_decide (length negOccs = 0%nat) then []
       else
         let best :=
           bestConstraints (λ occ f, featureValue (extra_features occ) f)
                           featureNames posOccs negOccs in
         if bool_decide (0 < length best)%nat
         then [mkConstrainedRule cs emptiesKey best (Z.of_nat (length posOccs))]
         else [])) as Hin'.
  { unfold rulesOfGroup in Hin. destruct em as [|[k l] [|e2 em']]; cbn [snd] in Hin.
    - done.
    - by apply elem_of_nil in Hin.
    - done. }
  apply list_elem_of_bind in Hin' as (ce0 & Hr & _). cbv zeta in Hr.
  destruct (bool_decide (_ < minOccurrences)) eqn:Hmin; [by apply elem_of_nil in Hr|].
  apply bool_decide_eq_false in Hmin.
  destruct (bool_decide (length _ = 0%nat)); [by apply elem_of_nil in Hr|].
  destruct (bool_decide (0 < length _)%nat); [|by apply elem_of_nil in Hr].
  apply list_elem_of_singleton in Hr as ->. simpl. lia.
Qed.


(** ** One rule per key *)

Lemma fmap_bind_sublist {A B K} (h : B → K) (p : A → K) (f : A → list B) (l : list A) :
  (∀ a, a ∈ l → h <$> f a = [] ∨ h <$> f a = [p a]) →
  h <$> (l ≫= f) `sublist_of` p <$> l.
Proof.
  induction l as [|a l IH]; intros Hf; [done|].
  rewrite bind_cons, fmap_app, fmap_cons.
  destruct (Hf a) as [-> | ->]; [left| |].
  - simpl. apply sublist_cons_r. left. apply IH. intros; apply Hf; by right.
  - simpl. apply sublist_skip, IH. intros; apply Hf; by right.
Qed.

Lemma NoDup_keyed_bind {A B K1 K2} (f : A → list B) (k1 : B → K1) (k2 : B → K2)
    (p : A → K1) (l : list A) :
  NoDup (p <$> l) →
  (∀ a b, a ∈ l → b ∈ f a → k1 b = p a) →
  (∀ a, a ∈ l → NoDup (k2 <$> f a)) →
  NoDup ((λ b, (k1 b, k2 b)) <$> (l ≫= f)).
Proof.
  induction l as [|a l IH]; intros Hnd Hk1 Hk2; [constructor|].
  rewrite fmap_cons in Hnd. apply NoDup_cons in Hnd as [Ha Hnd].
  rewrite bind_cons, fmap_app. apply NoDup_app. split; [|split].
  - apply (NoDup_fmap_1 snd). rewrite <- list_fmap_compose. apply Hk2. left.
  - intros [x1 x2] (b & [= -> ->] & Hb)%list_elem_of_fmap
                   (b' & [= E1 E2] & (a' & Hb' & Ha')%list_elem_of_bind)%list_elem_of_fmap.
    apply Ha. rewrite <- (Hk1 a b), E1, (Hk1 a' b'); [|by right|done|left|done].
    by apply list_elem_of_fmap_2.
  - apply IH; [done| |]; intros; [apply Hk1|apply Hk2]; try done; by right.
Qed.

Lemma rulesOfGroup_unconstrained_keys featureNames minOccurrences cs
    (em : list (list Point * list Occurrence)) :
  rule_canonical_stars <$> (rulesOfGroup featureNames minOccurrences cs em).1 = [] ∨
  rule_canonical_stars <$> (rulesOfGroup featureNames minOccurrences cs em).1 = [cs].
Proof.
  unfold rulesOfGroup. destruct em as [|[ce occs] [|e2 em']]; cbn [fst]; [by left| |by left].
  destruct (bool_decide _); [by right|by left].
Qed.

Lemma rulesOfGroup_constrained_keys featureNames minOccurrences cs
    (em : list (list Point * list Occurrence)) :
  rule_canonical_forced_empty <$> (rulesOfGroup featureNames minOccurrences cs em).2
  `sublist_of` em.*1.
Proof.
  assert (∀ f : list Point → list ConstrainedRule,
            (∀ ce, rule_canonical_forced_empty <$> f ce = [] ∨
                   rule_canonical_forced_empty <$> f ce = [ce]) →
            rule_canonical_forced_empty <$> (em.*1 ≫= f) `sublist_of` em.*1) as Hsub.
  { intros f Hf. rewrite <- (list_fmap_id (em.*1)) at 2.
    apply fmap_bind_sublist. intros; apply Hf. }
  unfold rulesOfGroup. destruct em as [|[ce occs] [|e2 em']]; cbn [snd].
  - done.
  - apply sublist_nil_l.
  - apply Hsub. intros ce0. cbv zeta.
    destruct (bool_decide (_ < minOccurrences)); [by left|].
    destruct (bool_decide (length _ = 0%nat)); [by left|].
    destruct (bool_decide (0 < length _)%nat); [by right|by left].
Qed.

(** [constrainedShape names minOccurrences out]: what the constrained rules
    of an output of [mineConstrainedEntanglements] look like. *)
Definition constrainedShape (featureNames : list string) (minOccurrences : Z)
    (out : ConstrainedEntanglementOutput) : Prop :=
  (∀ rule, rule ∈ constrained_rules out →
     (1 ≤ length (constraint_features rule) ≤ 2)%nat ∧
     (∀ f, f ∈ constraint_features rule → f ∈ featureNames) ∧
     minOccurrences ≤ rule_occurrences rule ∧
     ∀ u, u ∈ unconstrained_rules out →
          rule_canonical_stars u ≠ rule_canonical_stars rule) ∧
  NoDup ((λ rule, (rule_canonical_stars rule, rule_canonical_forced_empty rule))
           <$> constrained_rules out) ∧
  NoDup (rule_canonical_stars <$> unconstrained_rules out).

(** Every group of the two-level map holds an occurrence: a key is only
    created by the [push] that follows it. *)
Lemma pushTo_inhabited {K A} `{EqDecision K} (k : K) (a : A) (m : list (K * list A)) :
  (∀ k', mapGet k' m ≠ Some []) →
  pushTo k a m ≠ [] ∧ ∀ k', mapGet k' (pushTo k a m) ≠ Some [].
Proof.
  intros Hm. split.
  - intros Hnil. pose proof (pushTo_get k k a m) as Hget. rewrite Hnil in Hget.
    rewrite decide_True in Hget by done. done.
  - intros k'. rewrite pushTo_get. destruct (decide (k = k')); [|apply Hm].
    intros [= Heq]. by destruct (default [] (mapGet k m)).
Qed.

Lemma starGroups_inhabited (occs : list Occurrence) cs em :
  mapGet cs (foldl groupOccurrence [] occs) = Some em →
  em ≠ [] ∧ ∀ ce, mapGet ce em ≠ Some [].
Proof.
  revert cs em. induction occs as [|occ occs IH] using rev_ind; intros cs em; [done|].
  rewrite foldl_app. simpl. rewrite groupOccurrence_get.
  destruct (decide (occ_canonical_stars occ = cs)) as [Hcs|Hcs]; [|apply IH].
  intros [= <-]. apply pushTo_inhabited.
  destruct (mapGet _ (foldl groupOccurrence [] occs)) as [em0|] eqn:E; simpl; [|done].
  by apply (IH _ _ E).
Qed.

Lemma filter_ext_elem {A} (P Q : A → Prop) `{∀ x, Decision (P x)} `{∀ x, Decision (Q x)}
    (l : list A) :
  (∀ x, x ∈ l → P x ↔ Q x) → filter P l = filter Q l.
Proof.
  induction l as [|a l IH]; intros Hext; [done|].
  rewrite !filter_cons. rewrite IH by (intros; apply Hext; by right).
  destruct (decide (P a)) as [Hp|Hp], (decide (Q a)) as [Hq|Hq]; try done.
  - exfalso. apply Hq, Hext; [left|done].
  - exfalso. apply Hp, Hext; [left|done].
Qed.

Lemma filter_all_elem {A} (P : A → Prop) `{∀ x, Decision (P x)} (l : list A) :
  (∀ x, x ∈ l → P x) → filter P l = l.
Proof.
  induction l as [|a l IH]; intros HP; [done|].
  rewrite filter_cons_True by (apply HP; left). rewrite IH; [done|].
  intros; apply HP; by right.
Qed.

(** [unconstrainedExactly minOccurrences occs out]: the unconstrained rules
    of [out] are the star geometries of [occs] whose occurrences all have the
    same canonical forced-empty cells, taken when they occur at least
    [minOccurrences] times, with that number of occurrences. *)
Definition unconstrainedExactly (minOccurrences : Z) (occs : list Occurrence)
    (out : ConstrainedEntanglementOutput) : Prop :=
  ∀ rule,
    rule ∈ unconstrained_rules out ↔
    ∃ o, o ∈ occs ∧
         (∀ o', o' ∈ occs → occ_canonical_stars o' = occ_canonical_stars o →
                occ_canonical_forced_empty o' = occ_canonical_forced_empty o) ∧
         let n := Z.of_nat (length (filter (λ o', occ_canonical_stars o'
                                                  = occ_canonical_stars o) occs)) in
         minOccurrences ≤ n ∧
         rule = mkConstrainedRule (occ_canonical_stars o) (occ_canonical_forced_empty o)
                                  [] n.

Section ConstrainedShape.
Context (arraySort : ∀ A : Type, (A → A → Z) → list A → list A).
Context (localeCompare : string → string → Z).
Hypothesis arraySort_perm : ∀ A cmp l, arraySort A cmp l ≡ₚ l.

Lemma mineConstrainedWith_unconstrained occurrenceOfPattern featureNames
    (output : Output) (minOccurrences : Z) (occs : list Occurrence) :
  collect (occurrenceOfPattern (board_size output)) (patterns output) = Ok occs →
  ∃ out,
    mineConstrainedWith arraySort localeCompare occurrenceOfPattern featureNames
                        output minOccurrences = Ok out ∧
    unconstrainedExactly minOccurrences occs out.
Proof.
  intros Hocc. unfold mineConstrainedWith. rewrite Hocc. simpl.
  eexists. split; [done|]. intros rule. simpl. rewrite arraySort_perm.
  destruct (starGroups_spec occs) as [Hnd Hspec]. cbv zeta in Hnd, Hspec.
  rewrite list_elem_of_bind. split.
  - intros (pr & Hr & Hpr).
    apply list_elem_of_fmap in Hpr as ([cs em] & -> & Hg).
    apply rulesOfGroup_unconstrained in Hr as (ce & l & -> & Hmin & ->).
    pose proof (mapGet_elem _ _ _ Hnd Hg) as Hget.
    specialize (Hspec cs). rewrite Hget in Hspec. destruct Hspec as [_ Hm].
    destruct (starGroups_inhabited _ _ _ Hget) as [_ Hinh].
    pose proof (Hm ce) as Hl. pose proof (Hinh ce) as Hne. simpl in Hl, Hne.
    rewrite decide_True in Hl, Hne by done.
    destruct l as [|o l'] eqn:El; [done|]. rewrite <- El in *.
    assert (o ∈ groupOf cs ce occs) as Ho by (rewrite <- Hl, El; left).
    apply list_elem_of_filter in Ho as [[Hocs Hoce] Ho].
    assert (∀ o', o' ∈ occs → occ_canonical_stars o' = cs →
                  occ_canonical_forced_empty o' = ce) as Hsame.
    { intros o' Ho' Hcs'. destruct (decide (occ_canonical_forced_empty o' = ce)); [done|].
      pose proof (Hm (occ_canonical_forced_empty o')) as Hm'. simpl in Hm'.
      rewrite decide_False in Hm' by done.
      assert (o' ∈ groupOf cs (occ_canonical_forced_empty o') occs) as Hin
        by (apply list_elem_of_filter; by repeat split).
      rewrite Hm' in Hin. by apply elem_of_nil in Hin. }
    exists o. rewrite Hocs, Hoce. split; [done|]. split; [done|]. cbv zeta.
    assert (filter (λ o', occ_canonical_stars o' = cs) occs = l) as ->; [|done].
    rewrite Hl. unfold groupOf. apply filter_ext_elem. intros x Hx.
    split; [by intros Hc; split; [|apply Hsame]|by intros [? _]].
  - intros (o & Ho & Hsame & Hrule). cbv zeta in Hrule. destruct Hrule as [Hmin ->].
    set (cs := occ_canonical_stars o) in *. set (ce := occ_canonical_forced_empty o) in *.
    assert (o ∈ groupOf cs ce occs) as Hog by (apply list_elem_of_filter; by repeat split).
    pose proof (Hspec cs) as Hcs.
    destruct (mapGet cs (foldl groupOccurrence [] occs)) as [em|] eqn:Hget;
      [|rewrite Hcs in Hog; by apply elem_of_nil in Hog].
    destruct Hcs as [Hn Hm]. destruct (starGroups_inhabited _ _ _ Hget) as [_ Hinh].
    assert (∃ l, mapGet ce em = Some l ∧ l = groupOf cs ce occs) as (l & Hl & El).
    { pose proof (Hm ce) as Hce. destruct (mapGet ce em) as [l|]; [by exists l|].
      rewrite Hce in Hog. by apply elem_of_nil in Hog. }
    assert (em.*1 = [ce]) as Hkeys.
    { apply NoDup_all_equal; [done| |].
      - apply list_elem_of_fmap. exists (ce, l). split; [done|by apply mapGet_Some].
      - intros ce' Hce'. apply mapHas_spec in Hce'. unfold mapHas in Hce'.
        apply bool_decide_eq_true in Hce' as [l' Hl'].
        pose proof (Hm ce') as Hm'. rewrite Hl' in Hm'.
        destruct l' as [|o' rest]; [by destruct (Hinh ce')|].
        assert (o' ∈ groupOf cs ce' occs) as Ho' by (rewrite <- Hm'; left).
        apply list_elem_of_filter in Ho' as [[Hcs' <-] Ho']. by apply Hsame. }
    assert (em = [(ce, l)]) as ->.
    { destruct em as [|[k v] [|e2 em']]; try done. simpl in Hkeys. injection Hkeys as ->.
      simpl in Hl. rewrite decide_True in Hl by done. by injection Hl as ->. }
    exists (rulesOfGroup featureNames minOccurrences cs [(ce, l)]). split.
    + apply rulesOfGroup_unconstrained. exists ce, l.
      assert (filter (λ o', occ_canonical_stars o' = cs) occs = l) as Hf.
      { rewrite El. unfold groupOf. apply filter_ext_elem. intros x Hx.
        split; [by intros Hc; split; [|apply Hsame]|by intros [? _]]. }
      rewrite Hf in *. done.
    + apply list_elem_of_fmap. exists (cs, [(ce, l)]). split; [done|by apply mapGet_Some].
Qed.

Lemma mineConstrainedWith_shape occurrenceOfPattern featureNames
    (output : Output) (minOccurrences : Z) (occs : list Occurrence) :
  collect (occurrenceOfPattern (board_size output)) (patterns output) = Ok occs →
  ∃ out,
    mineConstrainedWith arraySort localeCompare occurrenceOfPattern featureNames
                        output minOccurrences = Ok out ∧
    constrainedShape featureNames minOccurrences out.
Proof.
  intros Hocc. unfold mineConstrainedWith. rewrite Hocc. simpl.
  eexists. split; [done|].
  destruct (starGroups_spec occs) as [Hnd Hspec]. cbv zeta in Hnd, Hspec.
  unfold constrainedShape. simpl. split; [|split].
  - intros rule Hr. rewrite arraySort_perm, list_fmap_bind in Hr.
    apply list_elem_of_bind in Hr as ([cs em] & Hr & Hg). simpl in Hr.
    apply rulesOfGroup_constrained_shape in Hr as (Hlen & Hcs & Hfs & Hnames & Hmin).
    repeat (split; [done|]).
    intros u Hu. rewrite arraySort_perm, list_fmap_bind in Hu.
    apply list_elem_of_bind in Hu as ([cs' em'] & Hu & Hg'). simpl in Hu.
    apply rulesOfGroup_unconstrained in Hu as (ce & l & -> & _ & ->). simpl.
    rewrite Hcs. intros <-.
    pose proof (mapGet_elem _ _ _ Hnd Hg) as H1.
    pose proof (mapGet_elem _ _ _ Hnd Hg') as H2. rewrite H1 in H2.
    injection H2 as ->. done.
  - rewrite arraySort_perm, list_fmap_bind.
    apply (NoDup_keyed_bind _ rule_canonical_stars rule_canonical_forced_empty fst);
      [done| |].
    + intros [cs em] rule _ Hr. simpl in Hr.
      by apply rulesOfGroup_constrained_shape in Hr as (_ & Hcs & _).
    + intros [cs em] Hg. simpl.
      specialize (Hspec cs). rewrite (mapGet_elem _ _ _ Hnd Hg) in Hspec.
      destruct Hspec as [Hn _].
      exact (sublist_NoDup _ _ Hn (rulesOfGroup_constrained_keys _ _ _ _)).
  - rewrite arraySort_perm, list_fmap_bind.
    apply (sublist_NoDup _ _ Hnd), fmap_bind_sublist.
    intros [cs em] _. apply rulesOfGroup_unconstrained_keys.
Qed.

End ConstrainedShape.

(** X19. [mineConstrainedEntanglements], in both versions, reports an
    unconstrained rule for exactly the star geometries whose occurrences all
    have the same canonical forced-empty cells and that occur at least
    [minOccurrences] times; the rule carries those cells, no features, and
    the number of occurrences of the geometry. *)
Theorem unconstrained_rules_exact
    (arraySort : ∀ A : Type, (A → A → Z) → list A → list A)
    (localeCompare : string → string → Z)
    (output : Output) (minOccurrences : Z) :
  (∀ A cmp l, arraySort A cmp l ≡ₚ l) →
  (∃ occs out,
     collect (occurrenceOf_pair (board_size output)) (patterns output) = Ok occs ∧
     mineConstrainedEntanglements_pair arraySort localeCompare output minOccurrences
     = Ok out ∧
     unconstrainedExactly minOccurrences occs out) ∧
  (∃ occs out,
     collect (occurrenceOf (board_size output)) (patterns output) = Ok occs ∧
     mineConstrainedEntanglements arraySort localeCompare output minOccurrences
     = Ok out ∧
     unconstrainedExactly minOccurrences occs out).
Proof.
  intros Hperm. split.
  - destruct (collect_total (occurrenceOf_pair (board_size output)) (patterns output))
      as [occs Hocc]; [intros p _; apply occurrenceOf_pair_total|].
    destruct (mineConstrainedWith_unconstrained arraySort localeCompare Hperm
                occurrenceOf_pair getFeatureNames_pair output minOccurrences occs Hocc)
      as (out & Hout & Hex).
    by exists occs, out.
  - destruct (collect_total (occurrenceOf (board_size output)) (patterns output))
      as [occs Hocc]; [intros p _; apply occurrenceOf_total|].
    destruct (mineConstrainedWith_unconstrained arraySort localeCompare Hperm
                occurrenceOf getFeatureNames output minOccurrences occs Hocc)
      as (out & Hout & Hex).
    by exists occs, out.
Qed.

Lemma unconstrained_rules_exact_witness :
  (∃ occs out,
     collect (occurrenceOf_pair 4) mirroredPatterns = Ok occs ∧
     mineConstrainedEntanglements_pair stableSort codeUnitCompare
       (mkOutput 4 1 1 2 2 mirroredPatterns) 2 = Ok out ∧
     unconstrainedExactly 2 occs out) ∧
  (∃ occs out,
     collect (occurrenceOf 4) mirroredPatterns = Ok occs ∧
     mineConstrainedEntanglements stableSort codeUnitCompare
       (mkOutput 4 1 1 2 2 mirroredPatterns) 2 = Ok out ∧
     unconstrainedExactly 2 occs out).
Proof.
  apply (unconstrained_rules_exact stableSort codeUnitCompare
           (mkOutput 4 1 1 2 2 mirroredPatterns) 2).
  exact stableSort_perm.
Defined.

(** X20. The constrained rules of [mineConstrainedEntanglements], in both
    versions: each has one or two constraint features, taken from the
    feature names of its version, and at least [minOccurrences] occurrences;
    its star geometry has no unconstrained rule; no two constrained rules
    share both the star geometry and the forced-empty cells, and no two
    unconstrained rules share the star geometry. *)
Theorem constrained_rules_shape
    (arraySort : ∀ A : Type, (A → A → Z) → list A → list A)
    (localeCompare : string → string → Z)
    (output : Output) (minOccurrences : Z) :
  (∀ A cmp l, arraySort A cmp l ≡ₚ l) →
  (∃ out,
     mineConstrainedEntanglements_pair arraySort localeCompare output minOccurrences
     = Ok out ∧
     constrainedShape getFeatureNames_pair minOccurrences out) ∧
  (∃ out,
     mineConstrainedEntanglements arraySort localeCompare output minOccurrences
     = Ok out ∧
     constrainedShape getFeatureNames minOccurrences out).
Proof.
  intros Hperm. split.
  - destruct (collect_total (occurrenceOf_pair (board_size output)) (patterns output))
      as [occs Hocc]; [intros p _; apply occurrenceOf_pair_total|].
    exact (mineConstrainedWith_shape arraySort localeCompare Hperm
             occurrenceOf_pair getFeatureNames_pair output minOccurrences occs Hocc).
  - destruct (collect_total (occurrenceOf (board_size output)) (patterns output))
      as [occs Hocc]; [intros p _; apply occurrenceOf_total|].
    exact (mineConstrainedWith_shape arraySort localeCompare Hperm
             occurrenceOf getFeatureNames output minOccurrences occs Hocc).
Qed.

Lemma constrained_rules_shape_witness :
  (∃ out,
     mineConstrainedEntanglements_pair stableSort codeUnitCompare
       (mkOutput 5 1 1 2 14 (shiftedPatterns ++ [openPattern])) 1 = Ok out ∧
     constrainedShape getFeatureNames_pair 1 out) ∧
  (∃ out,
     mineConstrainedEntanglements stableSort codeUnitCompare
       (mkOutput 5 1 1 2 14 (shiftedPatterns ++ [openPattern])) 1 = Ok out ∧
     constrainedShape getFeatureNames 1 out).
Proof.
  apply (constrained_rules_shape stableSort codeUnitCompare
           (mkOutput 5 1 1 2 14 (shiftedPatterns ++ [openPattern])) 1).
  exact stableSort_perm.
Defined.

(** ** The rules of the triple miners *)

Definition ruleKeyOf (rule : TripleRule) : list Point * Point :=
  (tr_canonical_stars rule, tr_canonical_candidate rule).

Lemma pushTo_foldl_inhabited {K A} `{EqDecision K} (key : A → K) (l : list A) k grp :
  mapGet k (foldl (λ g a, pushTo (key a) a g) [] l) = Some grp → grp ≠ [].
Proof.
  revert k grp. induction l as [|a l IH] using rev_ind; intros k grp; [done|].
  rewrite foldl_app. simpl. intros Hget Hnil. subst grp. revert Hget.
  apply pushTo_inhabited. intros k' Hk'. by apply (IH _ _ Hk').
Qed.

Lemma tripleRulesOfGroup_cases variant minOccurrences key
    (grp : list TripleOccurrence) :
  let posOccs := filter (λ occ, is_forced occ = true) grp in
  let negOccs := filter (λ occ, is_forced occ = false) grp in
  let rules := tripleRulesOfGroup variant minOccurrences key grp in
  (rules = ([], [])) ∨
  (minOccurrences ≤ Z.of_nat (length posOccs) ∧ negOccs = [] ∧
   rules = ([mkTripleRule key.1 key.2 [] true (Z.of_nat (length posOccs))], [])) ∨
  (minOccurrences ≤ Z.of_nat (length posOccs) ∧ negOccs ≠ [] ∧
   ∃ best, (1 ≤ length best ≤ 2)%nat ∧ (∀ f, f ∈ best → f ∈ featureNamesOf variant) ∧
     rules = ([], [mkTripleRule key.1 key.2 best true (Z.of_nat (length posOccs))])).
Proof.
  cbv zeta. unfold tripleRulesOfGroup.
  destruct (bool_decide (_ < minOccurrences)) eqn:Hmin; [by left|].
  apply bool_decide_eq_false in Hmin.
  destruct (bool_decide (length _ = 0%nat)) eqn:Hneg.
  - right. left. apply bool_decide_eq_true in Hneg.
    split; [lia|]. split; [by apply nil_length_inv|done].
  - apply bool_decide_eq_false in Hneg.
    destruct (bool_decide (0 < length _)%nat) eqn:Hbest; [|by left].
    apply bool_decide_eq_true in Hbest. right. right.
    split; [lia|]. split; [by intros E; rewrite E in Hneg|].
    eexists. split; [|split; [|done]].
    + split; [lia|]. apply bestConstraints_shape.
    + apply bestConstraints_shape.
Qed.

Lemma forced_or_flexible (grp : list TripleOccurrence) :
  filter (λ occ, is_forced occ = false) grp = [] ↔ ∀ o, o ∈ grp → is_forced o = true.
Proof.
  split.
  - intros Hnil o Ho. destruct (is_forced o) eqn:E; [done|].
    assert (o ∈ filter (λ occ, is_forced occ = false) grp) as Hin
      by by apply list_elem_of_filter.
    rewrite Hnil in Hin. by apply elem_of_nil in Hin.
  - intros Hall. induction grp as [|a grp IH]; [done|].
    rewrite filter_cons_False; [apply IH; intros; apply Hall; by right|].
    rewrite (Hall a) by left. done.
Qed.

(** [tripleRulesExact names minOccurrences sample out]: the rules of [out]
    read against the occurrence sample they were learned from. *)
Definition tripleRulesExact (featureNames : list string) (minOccurrences : Z)
    (sample : list TripleOccurrence) (out : TripleEntanglementOutput) : Prop :=
  (∀ rule,
     rule ∈ te_unconstrained_rules out ↔
     ∃ o, o ∈ sample ∧
          let grp := filter (λ o', tripleKeyOf o' = tripleKeyOf o) sample in
          (∀ o', o' ∈ grp → is_forced o' = true) ∧
          minOccurrences ≤ Z.of_nat (length grp) ∧
          rule = mkTripleRule (t_canonical_stars o) (canonical_candidate o) [] true
                              (Z.of_nat (length grp))) ∧
  (∀ rule,
     rule ∈ te_constrained_rules out →
     let grp := filter (λ o, tripleKeyOf o = ruleKeyOf rule) sample in
     forced rule = true ∧
     tr_occurrences rule = Z.of_nat (length (filter (λ o, is_forced o = true) grp)) ∧
     minOccurrences ≤ tr_occurrences rule ∧
     (∃ o, o ∈ grp ∧ is_forced o = false) ∧
     (1 ≤ length (tr_constraint_features rule) ≤ 2)%nat ∧
     ∀ f, f ∈ tr_constraint_features rule → f ∈ featureNames) ∧
  NoDup (ruleKeyOf <$> (te_unconstrained_rules out ++ te_constrained_rules out)).

Section TripleShape.
Context (arraySort : ∀ A : Type, (A → A → Z) → list A → list A).
Context (localeCompare : string → string → Z).
Hypothesis arraySort_perm : ∀ A cmp l, arraySort A cmp l ≡ₚ l.

Lemma mineTripleWith_exact variant solutions (output : Output) (minOccurrences : Z) :
  match tripleOccurrencesOf variant solutions output with
  | Ok sample =>
      ∃ out, mineTripleWith arraySort localeCompare variant solutions output minOccurrences
             = Ok out ∧
             tripleRulesExact (featureNamesOf variant) minOccurrences sample out
  | Throw msg =>
      mineTripleWith arraySort localeCompare variant solutions output minOccurrences
      = Throw msg
  end.
Proof.
  unfold mineTripleWith.
  destruct (tripleOccurrencesOf variant solutions output) as [sample|msg]; [|done].
  simpl. eexists. split; [done|]. unfold tripleRulesExact. simpl.
  destruct (pushTo_foldl tripleKeyOf sample) as [Hnd Hspec]. cbv zeta in Hnd, Hspec.
  pose proof (pushTo_foldl_inhabited tripleKeyOf sample) as Hinh.
  change (foldl (λ g a, pushTo (tripleKeyOf a) a g) [] sample)
    with (foldl groupTriple [] sample) in Hnd, Hspec, Hinh.
  set (g := foldl groupTriple [] sample) in *.
  assert (∀ key grp, (key, grp) ∈ g →
            grp = filter (λ o, tripleKeyOf o = key) sample ∧ grp ≠ []) as Hgrp.
  { intros key grp Hg. pose proof (mapGet_elem _ _ _ Hnd Hg) as Hget.
    specialize (Hspec key). rewrite Hget in Hspec. split; [done|by apply (Hinh key)]. }
  split; [|split].
  - intros rule. rewrite arraySort_perm, list_fmap_bind, list_elem_of_bind. split.
    + intros ([key grp] & Hr & Hg). simpl in Hr.
      destruct (Hgrp _ _ Hg) as [Egrp Hne].
      destruct (tripleRulesOfGroup_cases variant minOccurrences key grp)
        as [E|[(Hmin & Hneg & E)|(_ & _ & best & _ & _ & E)]]; cbv zeta in E;
        rewrite E in Hr; simpl in Hr; try by apply elem_of_nil in Hr.
      apply list_elem_of_singleton in Hr as ->.
      pose proof (proj1 (forced_or_flexible grp) Hneg) as Hforced. clear Hneg.
      rename Hforced into Hneg.
      assert (filter (λ occ, is_forced occ = true) grp = grp) as Hall.
      { apply filter_all_elem. intros o Ho. by apply Hneg. }
      rewrite Hall in *.
      destruct grp as [|o rest] eqn:El; [done|]. rewrite <- El in *.
      assert (o ∈ grp) as Ho by (rewrite El; left).
      pose proof Ho as Ho'. rewrite Egrp in Ho'.
      apply list_elem_of_filter in Ho' as [Hkey Hos].
      exists o. split; [done|]. cbv zeta. rewrite Hkey, <- Egrp.
      split; [done|]. split; [done|]. by subst key.
    + intros (o & Ho & Hrule). cbv zeta in Hrule. destruct Hrule as (Hall & Hmin & ->).
      set (key := tripleKeyOf o) in *.
      set (grp := filter (λ o', tripleKeyOf o' = key) sample) in *.
      assert (o ∈ grp) as Hog by by apply list_elem_of_filter.
      pose proof (Hspec key) as Hk. fold grp in Hk.
      destruct (mapGet key g) as [grp'|] eqn:Hget;
        [subst grp'|rewrite Hk in Hog; by apply elem_of_nil in Hog].
      exists (key, grp). split; [|by apply mapGet_Some]. simpl.
      assert (filter (λ occ, is_forced occ = true) grp = grp) as Hpos.
      { apply filter_all_elem. intros o' Ho'. by apply Hall. }
      pose proof (proj2 (forced_or_flexible grp) Hall) as Hflex. clear Hall.
      rename Hflex into Hall.
      unfold tripleRulesOfGroup. rewrite Hall, Hpos.
      rewrite bool_decide_eq_false_2 by lia. rewrite bool_decide_eq_true_2 by done.
      left.
  - intros rule Hr. rewrite arraySort_perm, list_fmap_bind in Hr.
    apply list_elem_of_bind in Hr as ([key grp] & Hr & Hg). simpl in Hr.
    destruct (Hgrp _ _ Hg) as [Egrp Hne].
    destruct (tripleRulesOfGroup_cases variant minOccurrences key grp)
      as [E|[(_ & _ & E)|(Hmin & Hneg & best & Hlen & Hnames & E)]]; cbv zeta in E;
      rewrite E in Hr; simpl in Hr; try by apply elem_of_nil in Hr.
    apply list_elem_of_singleton in Hr as ->. cbv zeta. unfold ruleKeyOf. simpl.
    replace (key.1, key.2) with key by by destruct key. rewrite <- Egrp.
    repeat (split; [done|]). split; [|done].
    destruct (filter (λ occ, is_forced occ = false) grp) as [|o rest] eqn:Ef; [done|].
    assert (o ∈ filter (λ occ, is_forced occ = false) grp) as Ho by (rewrite Ef; left).
    apply list_elem_of_filter in Ho as [? ?]. by exists o.
  - rewrite !arraySort_perm, !list_fmap_bind, fmap_app. apply NoDup_app. split; [|split].
    + apply (sublist_NoDup _ _ Hnd), fmap_bind_sublist. intros [key grp] _. simpl.
      destruct (tripleRulesOfGroup_cases variant minOccurrences key grp)
        as [E|[(_ & _ & E)|(_ & _ & best & _ & _ & E)]]; cbv zeta in E; rewrite E; simpl;
        [by left| |by left].
      right. unfold ruleKeyOf. simpl. by destruct key.
    + intros k (r1 & -> & ([key grp] & Hr1 & Hg)%list_elem_of_bind)%list_elem_of_fmap
               (r2 & Hk & ([key' grp'] & Hr2 & Hg')%list_elem_of_bind)%list_elem_of_fmap.
      simpl in Hr1, Hr2.
      destruct (tripleRulesOfGroup_cases variant minOccurrences key grp)
        as [E|[(_ & Hneg & E)|(_ & _ & best & _ & _ & E)]]; cbv zeta in E;
        rewrite E in Hr1; simpl in Hr1; try by apply elem_of_nil in Hr1.
      destruct (tripleRulesOfGroup_cases variant minOccurrences key' grp')
        as [E'|[(_ & _ & E')|(_ & Hneg' & best' & _ & _ & E')]]; cbv zeta in E';
        rewrite E' in Hr2; simpl in Hr2; try by apply elem_of_nil in Hr2.
      apply list_elem_of_singleton in Hr1 as ->. apply list_elem_of_singleton in Hr2 as ->.
      unfold ruleKeyOf in Hk. simpl in Hk.
      assert (key = key') as <- by (destruct key, key'; simpl in *; congruence).
      pose proof (mapGet_elem _ _ _ Hnd Hg) as H1.
      pose proof (mapGet_elem _ _ _ Hnd Hg') as H2. rewrite H1 in H2.
      injection H2 as <-. done.
    + apply (sublist_NoDup _ _ Hnd), fmap_bind_sublist. intros [key grp] _. simpl.
      destruct (tripleRulesOfGroup_cases variant minOccurrences key grp)
        as [E|[(_ & _ & E)|(_ & _ & best & _ & _ & E)]]; cbv zeta in E; rewrite E; simpl;
        [by left|by left|].
      right. unfold ruleKeyOf. simpl. by destruct key.
Qed.

End TripleShape.

(** X21. The rules of [mineTripleEntanglements], in both versions, read
    against the occurrence sample of Steps 1 and 2. A canonical triple has an
    unconstrained rule exactly when all its sample occurrences are forced and
    there are at least [minOccurrences] of them, and the rule carries their
    number. A constrained rule counts the forced occurrences of its triple,
    at least [minOccurrences], the triple has a flexible occurrence too, and
    the rule has one or two features from the feature names. No canonical
    triple has two rules. *)
Theorem triple_rules_exact
    (arraySort : ∀ A : Type, (A → A → Z) → list A → list A)
    (localeCompare : string → string → Z)
    (solutions : list Grid) (output : Output) (minOccurrences : Z) :
  (∀ A cmp l, arraySort A cmp l ≡ₚ l) →
  match tripleOccurrencesOf pairVariant solutions output with
  | Ok sample =>
      ∃ out,
        mineTripleEntanglements_pair arraySort localeCompare solutions output minOccurrences
        = Ok out ∧
        tripleRulesExact getTripleFeatureNames_pair minOccurrences sample out
  | Throw msg =>
      mineTripleEntanglements_pair arraySort localeCompare solutions output minOccurrences
      = Throw msg
  end ∧
  match tripleOccurrencesOf genericVariant solutions output with
  | Ok sample =>
      ∃ out,
        mineTripleEntanglements arraySort localeCompare solutions output minOccurrences
        = Ok out ∧
        tripleRulesExact getTripleFeatureNames minOccurrences sample out
  | Throw msg =>
      mineTripleEntanglements arraySort localeCompare solutions output minOccurrences
      = Throw msg
  end.
Proof.
  intros Hperm. split.
  - exact (mineTripleWith_exact arraySort localeCompare Hperm pairVariant solutions
             output minOccurrences).
  - exact (mineTripleWith_exact arraySort localeCompare Hperm genericVariant solutions
             output minOccurrences).
Qed.

Lemma triple_rules_exact_witness :
  match tripleOccurrencesOf pairVariant solutions_4_1
          (mkOutput 4 1 1 2 2 [cornerPattern]) with
  | Ok sample =>
      ∃ out,
        mineTripleEntanglements_pair stableSort codeUnitCompare solutions_4_1
          (mkOutput 4 1 1 2 2 [cornerPattern]) 1 = Ok out ∧
        tripleRulesExact getTripleFeatureNames_pair 1 sample out
  | Throw msg =>
      mineTripleEntanglements_pair stableSort codeUnitCompare solutions_4_1
        (mkOutput 4 1 1 2 2 [cornerPattern]) 1 = Throw msg
  end ∧
  match tripleOccurrencesOf genericVariant solutions_4_1
          (mkOutput 4 1 1 2 2 [cornerPattern]) with
  | Ok sample =>
      ∃ out,
        mineTripleEntanglements stableSort codeUnitCompare solutions_4_1
          (mkOutput 4 1 1 2 2 [cornerPattern]) 1 = Ok out ∧
        tripleRulesExact getTripleFeatureNames 1 sample out
  | Throw msg =>
      mineTripleEntanglements stableSort codeUnitCompare solutions_4_1
        (mkOutput 4 1 1 2 2 [cornerPattern]) 1 = Throw msg
  end.
Proof.
  apply (triple_rules_exact stableSort codeUnitCompare solutions_4_1
           (mkOutput 4 1 1 2 2 [cornerPattern]) 1).
  exact stableSort_perm.
Defined.

(** ** Pure templates and unconstrained rules *)

Definition occKey (o : Occurrence) : list Point * list Point :=
  (occ_canonical_stars o, occ_canonical_forced_empty o).

(** The extractor and the miner read a pattern alike: both pass it over, or
    both take it with the same canonical keys. *)
Definition readAlike (keysOf : Pattern → result (option (list Point * list Point)))
    (occurrenceOfPattern : Pattern → result (list Occurrence)) (p : Pattern) : Prop :=
  (keysOf p = Ok None ∧ occurrenceOfPattern p = Ok []) ∨
  (∃ o, keysOf p = Ok (Some (occKey o)) ∧ occurrenceOfPattern p = Ok [o]).

Lemma genericKeys_occurrenceOf boardSize (p : Pattern) :
  readAlike genericKeys (occurrenceOf boardSize) p.
Proof.
  unfold readAlike, genericKeys, occurrenceOf.
  destruct (decide _) as [?|Hne]; [by left|]. right.
  destruct (occurrenceOf_total boardSize p) as [occs Hocc].
  unfold occurrenceOf in Hocc. rewrite decide_False in Hocc by done.
  destruct (canonicalize _ _) as [r|]; [|done]. simpl in *.
  destruct (extractFeatures _ _ _) as [features|]; [|done]. simpl in *.
  eexists. split; last reflexivity. reflexivity.
Qed.

Lemma pairKeys_occurrenceOf_pair boardSize (p : Pattern) :
  length (initial_stars p) = 2%nat → readAlike pairKeys (occurrenceOf_pair boardSize) p.
Proof.
  intros Hlen. right. destruct (pairKeys_total p Hlen) as [ko Hko].
  unfold pairKeys, occurrenceOf_pair in *.
  destruct (initial_stars p) as [|a [|b [|c l]]]; try discriminate.
  cbn [fmap list_fmap] in *.
  destruct (canonicalizeStars _) as [r|]; [|done]. simpl.
  eexists. split; last reflexivity. reflexivity.
Qed.

Lemma collect_keys keysOf occurrenceOfPattern (ps : list Pattern) :
  Forall (readAlike keysOf occurrenceOfPattern) ps →
  ∃ occs, collect occurrenceOfPattern ps = Ok occs ∧
          occKey <$> occs = keysList keysOf ps.
Proof.
  induction ps as [|p ps IH] using rev_ind; intros Hall; [by exists []|].
  apply Forall_app in Hall as [Hps [Hp _]%Forall_cons].
  destruct (IH Hps) as (occs & Hocc & Hkeys).
  rewrite collect_snoc, Hocc. unfold keysList in *. rewrite omap_app. simpl.
  destruct Hp as [[-> ->]|(o & -> & ->)]; simpl.
  - exists occs. by rewrite !app_nil_r.
  - exists (occs ++ [o]). by rewrite fmap_app, Hkeys.
Qed.

Lemma countOf_occKey cs (occs : list Occurrence) :
  countOf cs (occKey <$> occs)
  = Z.of_nat (length (filter (λ o, occ_canonical_stars o = cs) occs)).
Proof.
  unfold countOf. do 2 f_equal. induction occs as [|o occs IH]; [done|].
  rewrite fmap_cons, !filter_cons. simpl.
  destruct (decide (occ_canonical_stars o = cs)); simpl; by rewrite IH.
Qed.

Section PureAndUnconstrained.
Context (arraySort : ∀ A : Type, (A → A → Z) → list A → list A).
Context (localeCompare : string → string → Z).
Hypothesis arraySort_perm : ∀ A cmp l, arraySort A cmp l ≡ₚ l.

Lemma pure_is_unconstrained keysOf occurrenceOfPattern featureNames
    (output : Output) (minOccurrences : Z) :
  Forall (readAlike keysOf (occurrenceOfPattern (board_size output))) (patterns output) →
  ∃ pure out,
    extractPureWith arraySort localeCompare keysOf output minOccurrences = Ok pure ∧
    mineConstrainedWith arraySort localeCompare occurrenceOfPattern featureNames
                        output minOccurrences = Ok out ∧
    ∀ cs ce k,
      mkTemplate cs ce k ∈ pure_entanglement_templates pure ↔
      mkConstrainedRule cs ce [] k ∈ unconstrained_rules out.
Proof.
  intros Halike.
  assert (Forall (λ p, ∃ ko, keysOf p = Ok ko) (patterns output)) as Htotal.
  { eapply Forall_impl; [exact Halike|]. intros p [[? _]|(o & ? & _)]; eauto. }
  destruct (collect_keys _ _ _ Halike) as (occs & Hocc & Hkeys).
  destruct (extractPureWith_spec arraySort localeCompare arraySort_perm keysOf output
              minOccurrences Htotal) as (pure & Hpure & Htemplates).
  destruct (mineConstrainedWith_unconstrained arraySort localeCompare arraySort_perm
              occurrenceOfPattern featureNames output minOccurrences occs Hocc)
    as (out & Hout & Hrules).
  exists pure, out. split; [done|]. split; [done|]. intros cs ce k.
  rewrite Htemplates, (Hrules _), <- countOf_keysList, <- Hkeys, countOf_occKey.
  assert (∀ ce', (∃ p, p ∈ patterns output ∧ keysOf p = Ok (Some (cs, ce'))) ↔
                 ∃ o, o ∈ occs ∧ occKey o = (cs, ce')) as Hex.
  { intros ce'. rewrite <- (keysList_elem _ _ _ _ Htotal), <- Hkeys, list_elem_of_fmap.
    split; intros (o & ? & ?); by exists o. }
  split.
  - intros (-> & (o & Ho & [= <- <-])%Hex & Huniq & Hmin).
    exists o. split; [done|]. split; [|done].
    intros o' Ho' Hcs. destruct (proj2 (Hex (occ_canonical_forced_empty o'))) as (p & Hp & Hk).
    { exists o'. split; [done|]. unfold occKey. by rewrite Hcs. }
    by apply (Huniq p).
  - intros (o & Ho & Hsame & Hrule). cbv zeta in Hrule.
    destruct Hrule as (Hmin & [= -> -> ->]). split; [done|]. split; [|split; [|done]].
    + apply Hex. by exists o.
    + intros p ce' Hp Hk. destruct (proj1 (Hex ce')) as (o' & Ho' & [= Hcs <-]); [eauto|].
      by apply Hsame.
Qed.

End PureAndUnconstrained.

(** X22. The pure templates are the unconstrained rules: on the same
    output and threshold, [extractPureEntanglements] reports a template with
    stars, forced-empty cells and count exactly when
    [mineConstrainedEntanglements] reports the unconstrained rule with the
    same stars, cells and count. This holds for the versions for any number
    of stars, and for the two-star versions when every pattern has two
    stars. *)
Theorem pure_templates_are_unconstrained_rules
    (arraySort : ∀ A : Type, (A → A → Z) → list A → list A)
    (localeCompare : string → string → Z)
    (output : Output) (minOccurrences : Z) :
  (∀ A cmp l, arraySort A cmp l ≡ₚ l) →
  (∃ pure out,
     extractPureEntanglements arraySort localeCompare output minOccurrences = Ok pure ∧
     mineConstrainedEntanglements arraySort localeCompare output minOccurrences = Ok out ∧
     ∀ cs ce k,
       mkTemplate cs ce k ∈ pure_entanglement_templates pure ↔
       mkConstrainedRule cs ce [] k ∈ unconstrained_rules out) ∧
  (Forall (λ p, length (initial_stars p) = 2%nat) (patterns output) →
   ∃ pure out,
     extractPureEntanglements_pair arraySort localeCompare output minOccurrences
     = Ok pure ∧
     mineConstrainedEntanglements_pair arraySort localeCompare output minOccurrences
     = Ok out ∧
     ∀ cs ce k,
       mkTemplate cs ce k ∈ pure_entanglement_templates pure ↔
       mkConstrainedRule cs ce [] k ∈ unconstrained_rules out).
Proof.
  intros Hperm. split.
  - apply (pure_is_unconstrained arraySort localeCompare Hperm genericKeys occurrenceOf).
    apply Forall_forall. intros p _. apply genericKeys_occurrenceOf.
  - intros Hpairs.
    apply (pure_is_unconstrained arraySort localeCompare Hperm pairKeys occurrenceOf_pair).
    eapply Forall_impl; [exact Hpairs|]. intros p Hp. by apply pairKeys_occurrenceOf_pair.
Qed.

Lemma pure_templates_are_unconstrained_rules_witness :
  (∃ pure out,
     extractPureEntanglements stableSort codeUnitCompare
       (mkOutput 4 1 1 2 2 mirroredPatterns) 2 = Ok pure ∧
     mineConstrainedEntanglements stableSort codeUnitCompare
       (mkOutput 4 1 1 2 2 mirroredPatterns) 2 = Ok out ∧
     ∀ cs ce k,
       mkTemplate cs ce k ∈ pure_entanglement_templates pure ↔
       mkConstrainedRule cs ce [] k ∈ unconstrained_rules out) ∧
  (∃ pure out,
     extractPureEntanglements_pair stableSort codeUnitCompare
       (mkOutput 4 1 1 2 2 mirroredPatterns) 2 = Ok pure ∧
     mineConstrainedEntanglements_pair stableSort codeUnitCompare
       (mkOutput 4 1 1 2 2 mirroredPatterns) 2 = Ok out ∧
     ∀ cs ce k,
       mkTemplate cs ce k ∈ pure_entanglement_templates pure ↔
       mkConstrainedRule cs ce [] k ∈ unconstrained_rules out).
Proof.
  pose proof (pure_templates_are_unconstrained_rules stableSort codeUnitCompare
                (mkOutput 4 1 1 2 2 mirroredPatterns) 2 stableSort_perm) as [Hany Hpair].
  split; [exact Hany|]. apply Hpair. repeat constructor.
Defined.

End MinerProperties.

Module SampleProperties.
Import Geometry Enumeration Configuration Analyzer AnalyzerSpec Miners Pipeline.
Import GeometryFacts CanonicalForm EnumerationFacts AnalyzerFacts MinerFacts.
Import AnalyzerProperties PipelineProperties GeometryProperties MinerProperties.

(** ** Step 2 of the triple miners: the tests of the loop body *)

Definition inside (boardSize : Z) (p : Point) : Prop :=
  0 ≤ p.1 < boardSize ∧ 0 ≤ p.2 < boardSize.

Lemma outsideBoard_false boardSize p : outsideBoard boardSize p = false ↔ inside boardSize p.
Proof.
  unfold outsideBoard, inside. rewrite !orb_false_iff, !bool_decide_eq_false. lia.
Qed.

Lemma basesOf_elem boardSize base : base ∈ basesOf boardSize ↔ inside boardSize base.
Proof.
  unfold basesOf, inside. rewrite list_elem_of_bind. split.
  - intros (r & (c & -> & Hc)%list_elem_of_fmap & Hr). simpl.
    apply elem_of_seqZ in Hc, Hr. lia.
  - intros [Hr Hc]. exists base.1. split; [|apply elem_of_seqZ; lia].
    apply list_elem_of_fmap. exists base.2. split; [by destruct base|].
    apply elem_of_seqZ; lia.
Qed.

Lemma hasAdjacentStars_isLocallyValid (absStars : list Point) :
  hasAdjacentStars absStars = negb (isLocallyValid (toCell <$> absStars)).
Proof.
  induction absStars as [|si rest IH]; [done|].
  simpl. rewrite IH, negb_andb. f_equal. clear IH.
  induction rest as [|sj rest IH]; [done|].
  simpl. rewrite IH, negb_andb, negb_involutive. f_equal.
  by rewrite bool_decide_and.
Qed.

(** The three tests a placement passes before it is looked up among the
    placements seen. *)
Definition placementAllowed (solutions : list Grid) (boardSize : Z)
    (absStars : list Point) (absCandidate : Point) : bool :=
  negb (existsb (outsideBoard boardSize) absStars || outsideBoard boardSize absCandidate)
  && negb (hasAdjacentStars absStars)
  && existsb (λ solution, isPatternCompatible (toCell <$> absStars) solution) solutions.

(** [legalPlacement]: the placement lies on the board, no two of its stars
    touch, and some solution has all its stars. *)
Definition legalPlacement (solutions : list Grid) (boardSize : Z)
    (absStars : list Point) (absCandidate : Point) : Prop :=
  Forall (inside boardSize) (absCandidate :: absStars) ∧
  isLocallyValid (toCell <$> absStars) = true ∧
  ∃ solution, solution ∈ solutions ∧
              isPatternCompatible (toCell <$> absStars) solution = true.

Lemma placementAllowed_spec solutions boardSize absStars absCandidate :
  placementAllowed solutions boardSize absStars absCandidate = true
  ↔ legalPlacement solutions boardSize absStars absCandidate.
Proof.
  unfold placementAllowed, legalPlacement.
  rewrite !andb_true_iff, !negb_true_iff, orb_false_iff, outsideBoard_false.
  rewrite hasAdjacentStars_isLocallyValid, negb_false_iff, Forall_cons.
  rewrite existsb_exists.
  assert (existsb (outsideBoard boardSize) absStars = false
          ↔ Forall (inside boardSize) absStars) as ->.
  { rewrite Forall_forall. split.
    - intros Hex p Hp. apply outsideBoard_false.
      destruct (outsideBoard boardSize p) eqn:E; [|done].
      assert (existsb (outsideBoard boardSize) absStars = true) as Ht; [|congruence].
      apply existsb_exists. exists p. split; [by apply list_elem_of_In|done].
    - intros Hall. apply not_true_iff_false. intros (p & Hp & Hout)%existsb_exists.
      apply list_elem_of_In in Hp. apply Hall, outsideBoard_false in Hp. congruence. }
  split.
  - intros [[[Hs Hc] Hv] (s & Hs' & Hcompat)]. split; [done|]. split; [done|].
    exists s. by rewrite list_elem_of_In.
  - intros ([Hc Hs] & Hv & s & Hs' & Hcompat). split; [done|].
    exists s. by rewrite <- list_elem_of_In.
Qed.

(** What one turn of the loop body does to the sample and to the set of
    placements seen. *)
Lemma tryPlacement_Ok variant solutions boardSize key occs seen base st' :
  tryPlacement variant solutions boardSize key (Ok (occs, seen)) base = Ok st' →
  ∃ absStars,
    placeStars variant base.1 base.2 key.1 = Ok absStars ∧
    let absCandidate : Point := (base.1 + key.2.1, base.2 + key.2.2) in
    if placementAllowed solutions boardSize absStars absCandidate
       && negb (bool_decide ((key, absStars, absCandidate) ∈ seen))
    then
      ∃ features,
        featuresOf variant absStars absCandidate boardSize = Ok features ∧
        st' = (occs ++ [mkTripleOccurrence key.1 key.2 absStars absCandidate
                          (isCandidateForcedEmpty (toCell <$> absStars)
                             (toCell absCandidate) solutions) features],
               {[ (key, absStars, absCandidate) ]} ∪ seen)
    else st' = (occs, seen).
Proof.
  unfold tryPlacement. simpl.
  destruct (placeStars variant base.1 base.2 key.1) as [absStars|]; [|done]. simpl.
  intros Hst. exists absStars. split; [done|]. cbv zeta. unfold placementAllowed.
  destruct (existsb (outsideBoard boardSize) absStars || outsideBoard boardSize _);
    simpl; [by injection Hst|].
  destruct (hasAdjacentStars absStars); simpl; [by injection Hst|].
  change (λ p : Point, mkCell p.1 p.2) with toCell in Hst.
  destruct (existsb _ solutions); simpl in *; [|by injection Hst].
  destruct (decide (_ ∈ seen)) as [Hin|Hin].
  - rewrite bool_decide_eq_true_2 by done. simpl. by injection Hst.
  - rewrite bool_decide_eq_false_2 by done. simpl.
    destruct (featuresOf variant absStars _ boardSize) as [features|]; [|done].
    simpl in Hst. injection Hst as <-. by exists features.
Qed.

Lemma tryPlacement_Throw variant solutions boardSize key msg bases :
  foldl (tryPlacement variant solutions boardSize key) (Throw msg) bases = Throw msg.
Proof. induction bases as [|b bases IH]; [done|]. simpl. apply IH. Qed.

(** ** The sample *)

(** [legalOccurrence]: an occurrence that Step 2 may add: a translation of a
    canonical triple of Step 1 to a base cell of the board, legal there,
    labelled and described as the source labels and describes it. *)
Definition legalOccurrence (variant : TripleVariant) (solutions : list Grid)
    (boardSize : Z) (keys : list (list Point * Point)) (o : TripleOccurrence) : Prop :=
  tripleKeyOf o ∈ keys ∧
  (∃ base, inside boardSize base ∧
           placeStars variant base.1 base.2 (t_canonical_stars o) = Ok (t_abs_stars o) ∧
           abs_candidate o = (base.1 + (canonical_candidate o).1,
                              base.2 + (canonical_candidate o).2)) ∧
  legalPlacement solutions boardSize (t_abs_stars o) (abs_candidate o) ∧
  is_forced o = isCandidateForcedEmpty (toCell <$> t_abs_stars o)
                                       (toCell (abs_candidate o)) solutions ∧
  featuresOf variant (t_abs_stars o) (abs_candidate o) boardSize = Ok (t_extra_features o).

Definition sampleInv (variant : TripleVariant) (solutions : list Grid) (boardSize : Z)
    (fromPatterns : list TripleOccurrence)
    (st : list TripleOccurrence * gset (list Point * Point * list Point * Point)) : Prop :=
  (∃ added,
     st.1 = fromPatterns ++ added ∧
     NoDup (placementKeyOf <$> added) ∧
     (∀ o, o ∈ added → placementKeyOf o ∉ placementKeyOf <$> fromPatterns) ∧
     Forall (legalOccurrence variant solutions boardSize (tripleKeyOf <$> fromPatterns))
            added) ∧
  ∀ pk, pk ∈ st.2 ↔ pk ∈ placementKeyOf <$> st.1.

Section Sample.
Variable variant : TripleVariant.
Variable solutions : list Grid.
Variable boardSize : Z.
Variable fromPatterns : list TripleOccurrence.

Lemma tryPlacement_inv key st base st' :
  key ∈ tripleKeyOf <$> fromPatterns → inside boardSize base →
  tryPlacement variant solutions boardSize key (Ok st) base = Ok st' →
  sampleInv variant solutions boardSize fromPatterns st →
  sampleInv variant solutions boardSize fromPatterns st' ∧
  (∀ pk, pk ∈ st.2 → pk ∈ st'.2) ∧
  ∀ absStars,
    placeStars variant base.1 base.2 key.1 = Ok absStars →
    placementAllowed solutions boardSize absStars
                     (base.1 + key.2.1, base.2 + key.2.2) = true →
    (key, absStars, (base.1 + key.2.1, base.2 + key.2.2)) ∈ st'.2.
Proof.
  intros Hkey Hbase Hst Hinv. destruct st as [occs seen].
  apply tryPlacement_Ok in Hst as (absStars & Hplace & Hst). cbv zeta in Hst.
  destruct (placementAllowed _ _ _ _) eqn:Hallowed; simpl in Hst.
  - destruct (decide ((key, absStars, (base.1 + key.2.1, base.2 + key.2.2)) ∈ seen))
      as [Hin|Hin].
    + rewrite bool_decide_eq_true_2 in Hst by done. simpl in Hst. subst st'.
      split; [done|]. split; [done|]. intros absStars' Hplace' _.
      rewrite Hplace in Hplace'. by injection Hplace' as <-.
    + rewrite bool_decide_eq_false_2 in Hst by done. simpl in Hst.
      destruct Hst as (features & Hfeat & ->).
      destruct Hinv as [(added & Hocc & Hnd & Hfresh & Hlegal) Hseen].
      unfold sampleInv. simpl in *.
      set (o := mkTripleOccurrence key.1 key.2 absStars _ _ features).
      assert (placementKeyOf o = (key, absStars, (base.1 + key.2.1, base.2 + key.2.2)))
        as Hpk by (unfold placementKeyOf, tripleKeyOf; simpl; by destruct key).
      assert (placementKeyOf o ∉ placementKeyOf <$> occs) as Hnew
        by (rewrite Hpk; by rewrite <- Hseen).
      rewrite Hocc, fmap_app, elem_of_app in Hnew.
      split; [split|split].
      * exists (added ++ [o]). rewrite Hocc, app_assoc. split; [done|].
        split; [|split].
        -- rewrite fmap_app. apply NoDup_app. split; [done|]. split.
           ++ intros pk Hpk1 ->%list_elem_of_singleton. tauto.
           ++ apply NoDup_singleton.
        -- intros o' [Ho' | ->%list_elem_of_singleton]%elem_of_app; [by apply Hfresh|tauto].
        -- apply Forall_app. split; [done|]. apply Forall_singleton.
           unfold legalOccurrence. simpl.
           split; [unfold tripleKeyOf; simpl; by destruct key|].
           split; [by exists base|].
           split; [by apply placementAllowed_spec|done].
      * intros pk. rewrite fmap_app, elem_of_app, elem_of_union, elem_of_singleton.
        simpl. rewrite list_elem_of_singleton, Hpk, Hseen. tauto.
      * intros pk Hin'. apply elem_of_union. by right.
      * intros absStars' Hplace' _. rewrite Hplace in Hplace'. injection Hplace' as <-.
        apply elem_of_union. left. by apply elem_of_singleton.
  - simpl in Hst. subst st'. split; [done|]. split; [done|].
    intros absStars' Hplace' Hallowed'. rewrite Hplace in Hplace'.
    injection Hplace' as <-. congruence.
Qed.

Lemma placements_inv key bases st st' :
  key ∈ tripleKeyOf <$> fromPatterns → (∀ b, b ∈ bases → inside boardSize b) →
  foldl (tryPlacement variant solutions boardSize key) (Ok st) bases = Ok st' →
  sampleInv variant solutions boardSize fromPatterns st →
  sampleInv variant solutions boardSize fromPatterns st' ∧
  (∀ pk, pk ∈ st.2 → pk ∈ st'.2) ∧
  ∀ base absStars,
    base ∈ bases →
    placeStars variant base.1 base.2 key.1 = Ok absStars →
    placementAllowed solutions boardSize absStars
                     (base.1 + key.2.1, base.2 + key.2.2) = true →
    (key, absStars, (base.1 + key.2.1, base.2 + key.2.2)) ∈ st'.2.
Proof.
  intros Hkey. revert st'.
  induction bases as [|b bases IH] using rev_ind; intros st' Hin Hfold Hinv.
  - simpl in Hfold. injection Hfold as <-. split; [done|]. split; [done|].
    by intros ? ? ?%elem_of_nil.
  - rewrite foldl_app in Hfold. simpl in Hfold.
    destruct (foldl _ (Ok st) bases) as [st1|msg] eqn:E; [|done].
    destruct (IH st1) as (Hinv1 & Hmono1 & Hdone1);
      [by intros; apply Hin, elem_of_app; left|done|done|].
    destruct (tryPlacement_inv key st1 b st') as (Hinv2 & Hmono2 & Hdone2);
      [done|by apply Hin, elem_of_app; right; left|done|done|].
    split; [done|]. split; [by intros; apply Hmono2, Hmono1|].
    intros base absStars [Hb | ->%list_elem_of_singleton]%elem_of_app Hplace Hallowed.
    + by apply Hmono2, Hdone1.
    + by apply Hdone2.
Qed.

Lemma triples_inv (triples : list ((list Point * Point) * (list Point * Point))) st st' :
  (∀ key, key ∈ triples.*1 → key ∈ tripleKeyOf <$> fromPatterns) →
  foldl (λ st '(tripleKey, _),
           foldl (tryPlacement variant solutions boardSize tripleKey) st (basesOf boardSize))
        (Ok st) triples = Ok st' →
  sampleInv variant solutions boardSize fromPatterns st →
  sampleInv variant solutions boardSize fromPatterns st' ∧
  (∀ pk, pk ∈ st.2 → pk ∈ st'.2) ∧
  ∀ key base absStars,
    key ∈ triples.*1 → inside boardSize base →
    placeStars variant base.1 base.2 key.1 = Ok absStars →
    placementAllowed solutions boardSize absStars
                     (base.1 + key.2.1, base.2 + key.2.2) = true →
    (key, absStars, (base.1 + key.2.1, base.2 + key.2.2)) ∈ st'.2.
Proof.
  revert st'.
  induction triples as [|[key v] triples IH] using rev_ind; intros st' Hkeys Hfold Hinv.
  - simpl in Hfold. injection Hfold as <-. split; [done|]. split; [done|].
    by intros ? ? ? ?%elem_of_nil.
  - rewrite foldl_app in Hfold. simpl in Hfold. rewrite fmap_app in Hkeys.
    destruct (foldl _ (Ok st) triples) as [st1|msg] eqn:E;
      [|by rewrite tryPlacement_Throw in Hfold].
    destruct (IH st1) as (Hinv1 & Hmono1 & Hdone1);
      [by intros; apply Hkeys, elem_of_app; left|done|done|].
    destruct (placements_inv key (basesOf boardSize) st1 st') as (Hinv2 & Hmono2 & Hdone2);
      [by apply Hkeys, elem_of_app; right; left|by intros b ?%basesOf_elem|done|done|].
    split; [done|]. split; [by intros; apply Hmono2, Hmono1|].
    intros key' base absStars Hkey' Hbase Hplace Hallowed.
    rewrite fmap_app in Hkey'.
    apply elem_of_app in Hkey' as [Hk | ->%list_elem_of_singleton].
    + by apply Hmono2, Hdone1.
    + apply Hdone2; [by apply basesOf_elem|done|done].
Qed.

End Sample.

Lemma canonicalTriplesOf_keys (occs : list TripleOccurrence) key :
  key ∈ (canonicalTriplesOf occs).*1 ↔ key ∈ tripleKeyOf <$> occs.
Proof.
  unfold canonicalTriplesOf.
  induction occs as [|occ occs IH] using rev_ind; [done|].
  rewrite foldl_app, fmap_app, elem_of_app. simpl. rewrite list_elem_of_singleton.
  destruct (mapHas _ _) eqn:Hhas.
  - rewrite IH. split; [by left|]. intros [? | ->]; [done|].
    by apply IH, mapHas_spec.
  - rewrite elem_keys_mapSet, IH. tauto.
Qed.

Lemma seenPlacementsOf_elem (occs : list TripleOccurrence) pk :
  pk ∈ seenPlacementsOf occs ↔ pk ∈ placementKeyOf <$> occs.
Proof.
  unfold seenPlacementsOf.
  induction occs as [|occ occs IH] using rev_ind.
  { simpl. split; [by intros ?%elem_of_empty|by intros ?%elem_of_nil]. }
  rewrite foldl_app, fmap_app, elem_of_app. simpl.
  rewrite list_elem_of_singleton, elem_of_union, elem_of_singleton, IH. tauto.
Qed.

(** [sampleOf variant solutions output sample]: how the occurrence sample
    of Steps 1 and 2 is made up. *)
Definition sampleOf (variant : TripleVariant) (solutions : list Grid) (output : Output)
    (sample : list TripleOccurrence) : Prop :=
  ∃ fromPatterns added,
    collect (triplesOfPattern variant solutions (board_size output)) (patterns output)
    = Ok fromPatterns ∧
    sample = fromPatterns ++ added ∧
    Forall (legalOccurrence variant solutions (board_size output)
                            (tripleKeyOf <$> fromPatterns)) added ∧
    NoDup (placementKeyOf <$> added) ∧
    (∀ o, o ∈ added → placementKeyOf o ∉ placementKeyOf <$> fromPatterns) ∧
    ∀ key base absStars,
      key ∈ tripleKeyOf <$> fromPatterns → inside (board_size output) base →
      placeStars variant base.1 base.2 key.1 = Ok absStars →
      legalPlacement solutions (board_size output) absStars
                     (base.1 + key.2.1, base.2 + key.2.2) →
      ∃ o', o' ∈ sample ∧
            placementKeyOf o' = (key, absStars, (base.1 + key.2.1, base.2 + key.2.2)).

Lemma tripleOccurrencesOf_sample variant solutions (output : Output) sample :
  tripleOccurrencesOf variant solutions output = Ok sample →
  sampleOf variant solutions output sample.
Proof.
  unfold tripleOccurrencesOf.
  destruct (collect _ (patterns output)) as [fromPatterns|] eqn:Hcollect; [|done].
  simpl. destruct (foldl _ _ (canonicalTriplesOf fromPatterns)) as [st|] eqn:Hfold; [|done].
  simpl. intros [= <-].
  destruct (triples_inv variant solutions (board_size output) fromPatterns
              (canonicalTriplesOf fromPatterns)
              (fromPatterns, seenPlacementsOf fromPatterns) st)
    as ([(added & Hocc & Hnd & Hfresh & Hlegal) Hseen] & _ & Hdone).
  - intros key. apply canonicalTriplesOf_keys.
  - done.
  - split; [|intros pk; apply seenPlacementsOf_elem].
    exists []. simpl. rewrite app_nil_r. repeat split; [constructor|..].
    + by intros ? ?%elem_of_nil.
    + constructor.
  - exists fromPatterns, added. repeat (split; [done|]).
    intros key base absStars Hkey Hbase Hplace Hlegal'.
    assert ((key, absStars, (base.1 + key.2.1, base.2 + key.2.2)) ∈ st.2) as Hin.
    { apply (Hdone key base absStars); [|done|done|].
      - by apply canonicalTriplesOf_keys.
      - by apply placementAllowed_spec. }
    apply Hseen, list_elem_of_fmap in Hin as (o' & Hpk & Ho'). by exists o'.
Qed.

(** ** Step 1 and the labels *)

Lemma collect_elem {A B} (f : A → result (list B)) (l : list A) (r : list B) :
  collect f l = Ok r → ∀ x, x ∈ r → ∃ a ra, a ∈ l ∧ f a = Ok ra ∧ x ∈ ra.
Proof.
  revert r. induction l as [|a l IH] using rev_ind; intros r.
  - intros [= <-] x Hx. by apply elem_of_nil in Hx.
  - rewrite collect_snoc. destruct (collect f l) as [items|]; [|done]. simpl.
    destruct (f a) as [new|] eqn:Hfa; [|done]. simpl. intros [= <-] x.
    intros [Hx|Hx]%elem_of_app.
    + destruct (IH items eq_refl x Hx) as (a' & ra & Ha' & Hfa' & Hra).
      exists a', ra. split; [apply elem_of_app; by left|done].
    + exists a, new. split; [apply elem_of_app; right; left|done].
Qed.

Lemma triplesOfPattern_elem variant solutions boardSize (p : Pattern) occs o :
  triplesOfPattern variant solutions boardSize p = Ok occs → o ∈ occs →
  ∃ cell, cell ∈ forced_empty_cells p ∧
          t_abs_stars o = toPoint <$> initial_stars p ∧
          abs_candidate o = toPoint cell ∧
          is_forced o = isCandidateForcedEmpty (initial_stars p) cell solutions.
Proof.
  unfold triplesOfPattern. destruct (supported variant p).
  - intros Hcollect Ho.
    destruct (collect_elem _ _ _ Hcollect o Ho) as (cell & ra & Hcell & Hra & Hin).
    exists cell. split; [done|].
    destruct (canonicalizer variant _ _) as [ct|]; [|done]. simpl in Hra.
    destruct (featuresOf variant _ _ _) as [features|]; [|done]. simpl in Hra.
    injection Hra as <-. by apply list_elem_of_singleton in Hin as ->.
  - intros [= <-] Ho. by apply elem_of_nil in Ho.
Qed.

Lemma isCandidateForcedEmpty_spec (stars : list Cell) (candidate : Cell)
    (solutions : list Grid) :
  isCandidateForcedEmpty stars candidate solutions = true ↔
  (∃ solution, solution ∈ solutions ∧ isPatternCompatible stars solution = true) ∧
  ∀ solution, solution ∈ solutions → isPatternCompatible stars solution = true →
              gridAtZ solution (row candidate) (col candidate) = Some 0.
Proof.
  unfold isCandidateForcedEmpty. cbv zeta.
  destruct (filter _ solutions) as [|s0 rest] eqn:E.
  - simpl. split; [done|]. intros [(s & Hs & Hc) _].
    assert (s ∈ filter (λ solution, isPatternCompatible stars solution = true) solutions)
      as Hin by by apply list_elem_of_filter.
    rewrite E in Hin. by apply elem_of_nil in Hin.
  - rewrite bool_decide_eq_false_2 by done. rewrite <- E, forallb_elem. split.
    + intros Hall. split.
      * assert (s0 ∈ filter (λ solution, isPatternCompatible stars solution = true)
                            solutions) as Hin by (rewrite E; left).
        apply list_elem_of_filter in Hin as [? ?]. by exists s0.
      * intros s Hs Hc. apply (bool_decide_eq_true_1 _), Hall.
        by apply list_elem_of_filter.
    + intros [_ Hall] s [Hc Hs]%list_elem_of_filter. apply bool_decide_eq_true_2.
      by apply Hall.
Qed.

Lemma toCell_toPoint_cell (c : Cell) : toCell (toPoint c) = c.
Proof. by destruct c. Qed.

Lemma sample_labels variant solutions (output : Output) sample o :
  tripleOccurrencesOf variant solutions output = Ok sample → o ∈ sample →
  is_forced o = isCandidateForcedEmpty (toCell <$> t_abs_stars o)
                                       (toCell (abs_candidate o)) solutions.
Proof.
  intros Hsample Ho.
  destruct (tripleOccurrencesOf_sample _ _ _ _ Hsample)
    as (fromPatterns & added & Hcollect & -> & Hlegal & _).
  apply elem_of_app in Ho as [Ho|Ho].
  - destruct (collect_elem _ _ _ Hcollect o Ho) as (p & occs & _ & Hp & Hin).
    destruct (triplesOfPattern_elem _ _ _ _ _ _ Hp Hin) as (cell & _ & -> & -> & ->).
    by rewrite toCell_toPoint, toCell_toPoint_cell.
  - rewrite Forall_forall in Hlegal. by destruct (Hlegal o Ho) as (_ & _ & _ & ? & _).
Qed.

(** The sample of the two-star miner on the 4 x 4 board with one star per
    row and column, from the pattern with stars (0,1), (1,3); its fourth
    occurrence has the candidate (3,3). *)
Definition cornerOutput : Output := mkOutput 4 1 1 2 2 [cornerPattern].

Definition cornerSample : list TripleOccurrence := Eval vm_compute in
  match tripleOccurrencesOf pairVariant solutions_4_1 cornerOutput with
  | Ok sample => sample
  | Throw _ => []
  end.

Definition cornerOccurrence : TripleOccurrence := Eval vm_compute in
  default (mkTripleOccurrence [] (0, 0) [] (0, 0) false []) (cornerSample !! 3%nat).

(** X23. What Step 2 of the triple miners adds to the occurrences of
    Step 1: each added occurrence is a canonical triple of Step 1 moved to a
    base cell of the board, lies on the board, has no two touching stars, is
    realised by a solution, is labelled by [isCandidateForcedEmpty] and
    carries the features of its placement; no placement is added twice and
    none that Step 1 has already. *)
Theorem step2_adds_legal_translations
    (variant : TripleVariant) (solutions : list Grid) (output : Output)
    (sample : list TripleOccurrence) :
  tripleOccurrencesOf variant solutions output = Ok sample →
  ∃ fromPatterns added,
    collect (triplesOfPattern variant solutions (board_size output)) (patterns output)
    = Ok fromPatterns ∧
    sample = fromPatterns ++ added ∧
    Forall (legalOccurrence variant solutions (board_size output)
                            (tripleKeyOf <$> fromPatterns)) added ∧
    NoDup (placementKeyOf <$> added) ∧
    ∀ o, o ∈ added → placementKeyOf o ∉ placementKeyOf <$> fromPatterns.
Proof.
  intros Hsample.
  destruct (tripleOccurrencesOf_sample _ _ _ _ Hsample)
    as (fromPatterns & added & Hcollect & Hsplit & Hlegal & Hnd & Hfresh & _).
  by exists fromPatterns, added.
Qed.

Lemma step2_adds_legal_translations_witness :
  ∃ fromPatterns added,
    collect (triplesOfPattern pairVariant solutions_4_1 4) [cornerPattern]
    = Ok fromPatterns ∧
    cornerSample = fromPatterns ++ added ∧
    Forall (legalOccurrence pairVariant solutions_4_1 4 (tripleKeyOf <$> fromPatterns))
           added ∧
    NoDup (placementKeyOf <$> added) ∧
    ∀ o, o ∈ added → placementKeyOf o ∉ placementKeyOf <$> fromPatterns.
Proof.
  apply (step2_adds_legal_translations pairVariant solutions_4_1 cornerOutput cornerSample).
  vm_compute. reflexivity.
Defined.

(** X24. The sample is closed under legal translations: when an
    occurrence is in the sample and its canonical triple, moved to a base
    cell of the board, lies on the board, has no two touching stars and is
    realised by a solution, the sample has an occurrence with that
    placement. *)
Theorem sample_closed_under_translation
    (variant : TripleVariant) (solutions : list Grid) (output : Output)
    (sample : list TripleOccurrence) (o : TripleOccurrence) (base : Z * Z)
    (absStars : list Point) :
  tripleOccurrencesOf variant solutions output = Ok sample →
  o ∈ sample →
  inside (board_size output) base →
  placeStars variant base.1 base.2 (t_canonical_stars o) = Ok absStars →
  legalPlacement solutions (board_size output) absStars
                 (base.1 + (canonical_candidate o).1, base.2 + (canonical_candidate o).2) →
  ∃ o', o' ∈ sample ∧
        placementKeyOf o'
        = (tripleKeyOf o, absStars,
           (base.1 + (canonical_candidate o).1, base.2 + (canonical_candidate o).2)).
Proof.
  intros Hsample Ho Hbase Hplace Hlegal.
  destruct (tripleOccurrencesOf_sample _ _ _ _ Hsample)
    as (fromPatterns & added & Hcollect & -> & Hadded & _ & _ & Hdone).
  apply (Hdone (tripleKeyOf o) base absStars); try done.
  apply elem_of_app in Ho as [Ho|Ho]; [by apply list_elem_of_fmap_2|].
  rewrite Forall_forall in Hadded. by destruct (Hadded o Ho) as [? _].
Qed.

Lemma sample_closed_under_translation_witness :
  ∃ o', o' ∈ cornerSample ∧
        placementKeyOf o' = (([(0, 0); (1, 2)], (-2, 0)), [(2, 0); (3, 2)], (0, 0)).
Proof.
  apply (sample_closed_under_translation pairVariant solutions_4_1 cornerOutput
           cornerSample cornerOccurrence (2, 0) [(2, 0); (3, 2)]).
  - vm_compute. reflexivity.
  - apply (list_elem_of_lookup_2 _ 3%nat). vm_compute. reflexivity.
  - unfold inside. simpl. lia.
  - vm_compute. reflexivity.
  - apply placementAllowed_spec. vm_compute. reflexivity.
Defined.

(** X25. The label of every occurrence of the sample, from Step 1 or from
    Step 2, is read off the solution list at the occurrence's own placement:
    it is forced exactly when some solution has all its stars and every such
    solution has the candidate cell empty. *)
Theorem sample_labels_follow_solutions
    (variant : TripleVariant) (solutions : list Grid) (output : Output)
    (sample : list TripleOccurrence) (o : TripleOccurrence) :
  tripleOccurrencesOf variant solutions output = Ok sample →
  o ∈ sample →
  is_forced o = true ↔
  (∃ solution, solution ∈ solutions ∧
               isPatternCompatible (toCell <$> t_abs_stars o) solution = true) ∧
  ∀ solution, solution ∈ solutions →
              isPatternCompatible (toCell <$> t_abs_stars o) solution = true →
              gridAtZ solution (abs_candidate o).1 (abs_candidate o).2 = Some 0.
Proof.
  intros Hsample Ho. rewrite (sample_labels _ _ _ _ _ Hsample Ho).
  apply isCandidateForcedEmpty_spec.
Qed.

Lemma sample_labels_follow_solutions_witness :
  is_forced cornerOccurrence = true ↔
  (∃ solution, solution ∈ solutions_4_1 ∧
               isPatternCompatible [mkCell 0 1; mkCell 1 3] solution = true) ∧
  ∀ solution, solution ∈ solutions_4_1 →
              isPatternCompatible [mkCell 0 1; mkCell 1 3] solution = true →
              gridAtZ solution 3 3 = Some 0.
Proof.
  apply (sample_labels_follow_solutions pairVariant solutions_4_1 cornerOutput
           cornerSample cornerOccurrence).
  - vm_compute. reflexivity.
  - apply (list_elem_of_lookup_2 _ 3%nat). vm_compute. reflexivity.
Defined.

(** X26. The analyzer and the triple miners agree on what is forced: when
    [analyzePattern] reports a pattern from valid solutions, each of its
    forced-empty cells is a forced-empty candidate for
    [isCandidateForcedEmpty] over the same solutions, and none of its
    forced-star cells is. *)
Theorem analyzed_cells_are_forced_candidates
    (N : nat) (S : Z) (solutions : list Grid) (includeInherent : bool)
    (pattern : list Cell) (res : Pattern) :
  (∀ sol, sol ∈ solutions → isConfiguration N S sol) →
  analyzePattern N solutions includeInherent pattern = Some res →
  (∀ cell, cell ∈ forced_empty_cells res →
           isCandidateForcedEmpty (initial_stars res) cell solutions = true) ∧
  (∀ cell, cell ∈ forced_star_cells res →
           isCandidateForcedEmpty (initial_stars res) cell solutions = false).
Proof.
  intros Hvalid Hres.
  assert (∃ sol, sol ∈ compatibleWith solutions pattern) as [s0 Hs0].
  { unfold analyzePattern in Hres. cbv zeta in Hres.
    destruct (decide (length (compatibleWith solutions pattern) = 0%nat)); [done|].
    destruct (compatibleWith solutions pattern) as [|s0 l]; [done|]. exists s0. left. }
  destruct (analyzePattern_forced_cells N S solutions includeInherent pattern res
              Hvalid Hres) as (-> & Hempty & Hstar & Hcells).
  assert (∀ sol, sol ∈ compatibleWith solutions pattern ↔
                 sol ∈ solutions ∧ isPatternCompatible pattern sol = true) as Hcompat.
  { intros sol. unfold compatibleWith. rewrite list_elem_of_filter. tauto. }
  split; intros cell Hcell.
  - destruct (Hcells cell) as (r & c & ->); [apply elem_of_app; by left|].
    apply isCandidateForcedEmpty_spec. split.
    + exists s0. by apply Hcompat.
    + intros sol Hsol Hc. simpl. rewrite gridAtZ_of_nat.
      apply Hempty in Hcell as (_ & _ & _ & Hall & _). apply Hall. by apply Hcompat.
  - destruct (Hcells cell) as (r & c & ->); [apply elem_of_app; by right|].
    apply not_true_iff_false. intros [_ Hall]%isCandidateForcedEmpty_spec.
    apply Hstar in Hcell as (_ & _ & _ & Hones).
    apply Hcompat in Hs0 as [Hs0 Hc0].
    specialize (Hall s0 Hs0 Hc0). simpl in Hall. rewrite gridAtZ_of_nat in Hall.
    rewrite Hones in Hall by by apply Hcompat. done.
Qed.

Lemma analyzed_cells_are_forced_candidates_witness :
  (∀ cell, cell ∈ forced_empty_cells cornerPattern →
           isCandidateForcedEmpty (initial_stars cornerPattern) cell solutions_4_1 = true) ∧
  (∀ cell, cell ∈ forced_star_cells cornerPattern →
           isCandidateForcedEmpty (initial_stars cornerPattern) cell solutions_4_1 = false).
Proof.
  apply (analyzed_cells_are_forced_candidates 4 1 solutions_4_1 false
           [mkCell 0 1; mkCell 1 3] cornerPattern).
  - exact solutions_4_1_valid.
  - vm_compute. reflexivity.
Defined.

End SampleProperties.

Module EnumerationProperties.
Import Enumeration Configuration EnumerationFacts.

(** ** Boards without stars and boards with too many *)

Lemma sumTo_nonneg f n : (∀ i, (i < n)%nat → 0 ≤ f i) → 0 ≤ sumTo f n.
Proof.
  induction n as [|n IH]; intros Hf; simpl; [done|].
  specialize (IH (λ i Hi, Hf i (Nat.lt_lt_succ_r _ _ Hi))).
  specialize (Hf n (Nat.lt_succ_diag_r n)). lia.
Qed.

Lemma sumTo_zero f n :
  (∀ i, (i < n)%nat → 0 ≤ f i) → sumTo f n = 0 → ∀ i, (i < n)%nat → f i = 0.
Proof.
  induction n as [|n IH]; intros Hf Hsum i Hi; [lia|]. simpl in Hsum.
  pose proof (sumTo_nonneg f n (λ j Hj, Hf j (Nat.lt_lt_succ_r _ _ Hj))) as Hn.
  pose proof (Hf n (Nat.lt_succ_diag_r n)) as Hlast.
  destruct (decide (i = n)) as [->|Hne]; [lia|].
  apply IH; [intros; apply Hf; lia|lia|lia].
Qed.

(** Ones that are never next to each other fill at most every other
    place. *)
Lemma sumTo_spaced f n :
  (∀ i, (i < n)%nat → f i = 0 ∨ f i = 1) →
  (∀ i, (S i < n)%nat → f i = 1 → f (S i) = 1 → False) →
  2 * sumTo f n ≤ Z.of_nat n + 1 ∧
  (∀ m, n = S m → f m = 0 → 2 * sumTo f n ≤ Z.of_nat n).
Proof.
  induction n as [|n IH]; intros Hbin Hspaced; simpl; [split; [lia|by intros]|].
  destruct IH as [IH1 IH2]; [intros; apply Hbin; lia|intros i ?; apply Hspaced; lia|].
  destruct (Hbin n) as [H0|H1]; [lia|..].
  - split; [lia|]. intros m [= <-] _. lia.
  - split; [|intros m [= <-] ?; lia].
    destruct n as [|m]; [simpl; lia|].
    destruct (Hbin m) as [Hm|Hm]; [lia| |].
    + specialize (IH2 m eq_refl Hm). lia.
    + exfalso. apply (Hspaced m); [lia|done|done].
Qed.

Lemma emptyGrid_configuration N : isConfiguration N 0 (emptyGrid N).
Proof.
  split; [|split; [|split; [|split]]].
  - split; [apply length_replicate|]. apply Forall_replicate, length_replicate.
  - intros r c _ _. left. apply cellValue_emptyGrid.
  - intros r _. unfold rowTotal.
    rewrite (sumTo_ext _ (λ _, 0)) by (intros; apply cellValue_emptyGrid).
    clear. induction N as [|n IH]; simpl; lia.
  - intros c _. unfold colTotal.
    rewrite (sumTo_ext _ (λ _, 0)) by (intros; apply cellValue_emptyGrid).
    clear. induction N as [|n IH]; simpl; lia.
  - intros r1 c1 r2 c2 _ _ _ _ H. by rewrite cellValue_emptyGrid in H.
Qed.

Lemma configuration_without_stars N g : isConfiguration N 0 g ↔ g = emptyGrid N.
Proof.
  split; [|intros ->; apply emptyGrid_configuration].
  intros (Hwf & Hbin & Hrows & _).
  apply (grid_ext N); [done|apply emptyGrid_configuration|].
  intros r c Hr Hc. rewrite cellValue_emptyGrid.
  apply (sumTo_zero (cellValue g r) N); [|by apply Hrows|done].
  intros i Hi. destruct (Hbin r i Hr Hi); lia.
Qed.

Lemma configuration_star_bound N S g :
  (1 ≤ N)%nat → isConfiguration N S g → 0 ≤ S ∧ 2 * S ≤ Z.of_nat N + 1.
Proof.
  intros HN (Hwf & Hbin & Hrows & _ & Hfar).
  rewrite <- (Hrows 0%nat) by lia. unfold rowTotal. split.
  - apply sumTo_nonneg. intros i Hi. destruct (Hbin 0%nat i); lia.
  - apply sumTo_spaced.
    + intros i Hi. apply Hbin; lia.
    + intros i Hi H1 H2. apply (Hfar 0%nat i 0%nat (i + 1)%nat); try lia.
      { by rewrite Nat.add_1_r. }
      split; [intros [=]; lia|lia].
Qed.

(** X27. The only solution on a board that asks for no stars is the grid of
    zeros; on the board of size 0 it is the empty grid whatever the number
    of stars asked for. *)
Theorem enumerate_without_stars (N : nat) (S : Z) :
  enumerate N 0 = Some [emptyGrid N] ∧ enumerate 0 S = Some [[]].
Proof.
  split.
  - destruct (enumerate_spec N 0) as (l & -> & Hnd & Hl). f_equal.
    apply MinerFacts.NoDup_all_equal; [done|by apply Hl, emptyGrid_configuration|].
    intros g Hg. by apply configuration_without_stars, Hl.
  - destruct (enumerate_spec 0 S) as (l & -> & Hnd & Hl). f_equal.
    assert (isConfiguration 0 S []) as Hnil.
    { split; [by split|]. split; [intros ? ? ?; lia|].
      split; [intros ? ?; lia|]. split; [intros ? ?; lia|]. intros ? ? ? ? ?; lia. }
    apply MinerFacts.NoDup_all_equal; [done|by apply Hl|].
    intros g [[Hlen _] _]%Hl. by destruct g.
Qed.

(** X28. A row of [N] cells has room for at most [(N + 1) / 2] stars that do
    not touch: asked for more, or for a negative number, the enumerator
    finds nothing. *)
Theorem enumerate_too_many_stars (N : nat) (S : Z) :
  (1 ≤ N)%nat → S < 0 ∨ Z.of_nat N + 1 < 2 * S → enumerate N S = Some [].
Proof.
  intros HN Hmany. destruct (enumerate_spec N S) as (l & -> & _ & Hl). f_equal.
  destruct l as [|g l]; [done|].
  destruct (configuration_star_bound N S g HN); [apply Hl; left|lia].
Qed.

Lemma enumerate_too_many_stars_witness : enumerate 4 3 = Some [].
Proof. apply (enumerate_too_many_stars 4 3); [lia|right; lia]. Defined.

End EnumerationProperties.
